(** * EnergyModelling: generator/load assignment, renewable redistribution
      and the convergence fallback, embedded from the Python sources

    Sources embedded here:
    - [scripts/_4_mapping_gen_and_load.py]: [calculate_power_limits],
      [create_gen_or_load];
    - [scripts/_7_time_series_and_pf_calculations.py]:
      [allocate_renewable_generation], [create_values_per_country],
      [update_loads], [time_series_pf_results];
    - [main_program.py]: [handle_pf_results], the fallback protocol of
      section 7.1.2 and the scaling-factor retry of section 7.1.3.

    Numbers.  The program computes with IEEE doubles held in pandas
    columns.  The embedding idealises a double as an exact rational [Q];
    a missing value (pandas NaN) is [None].  Arithmetic on a missing value
    is missing, every comparison with a missing value is false, and the
    pandas reductions ([sum]) skip missing values, as pandas does.  Rounding
    is not modelled: every equation below is an equation between the exact
    values.

    Tables.  A pandas DataFrame is a list of row records in table order; a
    boolean-mask assignment [df.loc[mask, col] = ...] is a [map] that
    rewrites the rows selected by the mask and keeps the others. *)

From Stdlib Require Import QArith Qminmax Lqa Lia ZArith.
From Stdlib Require Import List String Bool.
Import ListNotations.
Open Scope string_scope.
Open Scope Q_scope.

(** ** Numbers with a missing value *)

Definition float := option Q.

Definition Qltb (x y : Q) : bool := negb (Qle_bool y x).

Definition fmul (a b : float) : float :=
  match a, b with Some x, Some y => Some (x * y) | _, _ => None end.

Definition fadd (a b : float) : float :=
  match a, b with Some x, Some y => Some (x + y) | _, _ => None end.

Definition fsub (a b : float) : float :=
  match a, b with Some x, Some y => Some (x - y) | _, _ => None end.

Definition fdiv (a b : float) : float :=
  match a, b with Some x, Some y => Some (x / y) | _, _ => None end.

(** [a < b] on columns: false as soon as one side is missing. *)
Definition flt (a b : float) : bool :=
  match a, b with Some x, Some y => Qltb x y | _, _ => false end.

(** Equality of two cells up to the value of the rational. *)
Definition feq (a b : float) : Prop :=
  match a, b with
  | Some x, Some y => x == y
  | None, None => True
  | _, _ => False
  end.

(** [Series.fillna(0)]. *)
Definition fillna0 (a : float) : float :=
  match a with Some x => Some x | None => Some 0 end.

Fixpoint Qsum (l : list Q) : Q :=
  match l with
  | [] => 0
  | x :: r => x + Qsum r
  end.

(** [Series.sum()]: missing cells are skipped. *)
Fixpoint fsum (l : list float) : Q :=
  match l with
  | [] => 0
  | Some x :: r => x + fsum r
  | None :: r => fsum r
  end.

(** Python's builtin [min(a, b)]: [b] when [b < a], otherwise [a]. *)
Definition py_min (a b : float) : float := if flt b a then b else a.

(** ** Exceptions and the state-and-error monad

    Python code mutates the network in place and may raise half way; what
    was written before the raise stays written.  A computation therefore
    returns the state it reached together with either an exception or a
    value. *)

Inductive exn : Type :=
| ValueError
| IndexError
| KeyError
| NotConverged (* pandapower's LoadflowNotConverged / OPFNotConverged *).

Definition M (S A : Type) : Type := S -> (exn + A) * S.

Definition ret {S A} (a : A) : M S A := fun s => (inr a, s).

Definition bind {S A B} (c : M S A) (k : A -> M S B) : M S B :=
  fun s =>
    match c s with
    | (inl e, s') => (inl e, s')
    | (inr a, s') => k a s'
    end.

Definition raise {S A} (e : exn) : M S A := fun s => (inl e, s).

Definition get {S} : M S S := fun s => (inr s, s).

Definition modify {S} (f : S -> S) : M S unit := fun s => (inr tt, f s).

(** [try: c except Exception: h]. *)
Definition try_except {S A} (c : M S A) (h : exn -> M S A) : M S A :=
  fun s =>
    match c s with
    | (inl e, s') => h e s'
    | (inr a, s') => (inr a, s')
    end.

Notation "x <- c ;; k" := (bind c (fun x => k))
  (at level 61, c at next level, right associativity).
Notation "c ;;; k" := (bind c (fun _ => k))
  (at level 61, right associativity).

(** A [for] loop over a list whose body may raise. *)
Fixpoint for_each {S A} (l : list A) (body : A -> M S unit) : M S unit :=
  match l with
  | [] => ret tt
  | a :: r => body a ;;; for_each r body
  end.

(** ** The network tables *)

(** A row of [net.bus]; [bus_idx] is its index label. *)
Record bus : Type := mkBus {
  bus_idx : nat;
  bus_name : string;
  bus_zone : string;
  bus_vn_kv : Q;
  bus_in_service : bool
}.

(** A row of [net.bus_geodata]; [geo_idx] is its index label. *)
Record bus_geo : Type := mkBusGeo {
  geo_idx : nat;
  geo_x : Q;
  geo_y : Q
}.

(** A row of [net.gen], with the extra columns the program adds
    ([cost_per_mw], [type], [tech], [p_mw_original], [normed_p_mw],
    [country]). *)
Record gen : Type := mkGen {
  gen_idx : nat;
  gen_bus : nat;
  gen_name : string;
  gen_p_mw : float;
  gen_vm_pu : Q;
  gen_slack : bool;
  gen_scaling : Q;
  gen_controllable : bool;
  gen_min_p_mw : float;
  gen_max_p_mw : float;
  gen_cost_per_mw : Q;
  gen_type : string;
  gen_tech : string;
  gen_p_mw_original : Q;
  gen_normed_p_mw : float;
  gen_country : option string;
  gen_in_service : bool
}.

(** A row of [net.load]; [load_num] is the extra column [num], missing when
    the load was created without it. *)
Record load : Type := mkLoad {
  load_bus : nat;
  load_p_mw : float;
  load_name : string;
  load_controllable : bool;
  load_num : option Q;
  load_min_p_mw : float;
  load_max_p_mw : float;
  load_in_service : bool
}.

Record network : Type := mkNetwork {
  net_bus : list bus;
  net_bus_geodata : list bus_geo;
  net_gen : list gen;
  net_load : list load
}.

(** *** Column writes *)

Definition set_gen_p_mw (v : float) (g : gen) : gen :=
  mkGen (gen_idx g) (gen_bus g) (gen_name g) v (gen_vm_pu g) (gen_slack g)
    (gen_scaling g) (gen_controllable g) (gen_min_p_mw g) (gen_max_p_mw g)
    (gen_cost_per_mw g) (gen_type g) (gen_tech g) (gen_p_mw_original g)
    (gen_normed_p_mw g) (gen_country g) (gen_in_service g).

Definition set_gen_min_p_mw (v : float) (g : gen) : gen :=
  mkGen (gen_idx g) (gen_bus g) (gen_name g) (gen_p_mw g) (gen_vm_pu g)
    (gen_slack g) (gen_scaling g) (gen_controllable g) v (gen_max_p_mw g)
    (gen_cost_per_mw g) (gen_type g) (gen_tech g) (gen_p_mw_original g)
    (gen_normed_p_mw g) (gen_country g) (gen_in_service g).

Definition set_gen_max_p_mw (v : float) (g : gen) : gen :=
  mkGen (gen_idx g) (gen_bus g) (gen_name g) (gen_p_mw g) (gen_vm_pu g)
    (gen_slack g) (gen_scaling g) (gen_controllable g) (gen_min_p_mw g) v
    (gen_cost_per_mw g) (gen_type g) (gen_tech g) (gen_p_mw_original g)
    (gen_normed_p_mw g) (gen_country g) (gen_in_service g).

Definition set_gen_tech (v : string) (g : gen) : gen :=
  mkGen (gen_idx g) (gen_bus g) (gen_name g) (gen_p_mw g) (gen_vm_pu g)
    (gen_slack g) (gen_scaling g) (gen_controllable g) (gen_min_p_mw g)
    (gen_max_p_mw g) (gen_cost_per_mw g) (gen_type g) v
    (gen_p_mw_original g) (gen_normed_p_mw g) (gen_country g)
    (gen_in_service g).

Definition set_gen_normed_p_mw (v : float) (g : gen) : gen :=
  mkGen (gen_idx g) (gen_bus g) (gen_name g) (gen_p_mw g) (gen_vm_pu g)
    (gen_slack g) (gen_scaling g) (gen_controllable g) (gen_min_p_mw g)
    (gen_max_p_mw g) (gen_cost_per_mw g) (gen_type g) (gen_tech g)
    (gen_p_mw_original g) v (gen_country g) (gen_in_service g).

Definition set_gen_country (v : option string) (g : gen) : gen :=
  mkGen (gen_idx g) (gen_bus g) (gen_name g) (gen_p_mw g) (gen_vm_pu g)
    (gen_slack g) (gen_scaling g) (gen_controllable g) (gen_min_p_mw g)
    (gen_max_p_mw g) (gen_cost_per_mw g) (gen_type g) (gen_tech g)
    (gen_p_mw_original g) (gen_normed_p_mw g) v (gen_in_service g).

Definition set_gen_scaling (v : Q) (g : gen) : gen :=
  mkGen (gen_idx g) (gen_bus g) (gen_name g) (gen_p_mw g) (gen_vm_pu g)
    (gen_slack g) v (gen_controllable g) (gen_min_p_mw g)
    (gen_max_p_mw g) (gen_cost_per_mw g) (gen_type g) (gen_tech g)
    (gen_p_mw_original g) (gen_normed_p_mw g) (gen_country g)
    (gen_in_service g).

Definition set_load_p_mw (v : float) (l : load) : load :=
  mkLoad (load_bus l) v (load_name l) (load_controllable l) (load_num l)
    (load_min_p_mw l) (load_max_p_mw l) (load_in_service l).

Definition set_load_min_p_mw (v : float) (l : load) : load :=
  mkLoad (load_bus l) (load_p_mw l) (load_name l) (load_controllable l)
    (load_num l) v (load_max_p_mw l) (load_in_service l).

Definition set_load_max_p_mw (v : float) (l : load) : load :=
  mkLoad (load_bus l) (load_p_mw l) (load_name l) (load_controllable l)
    (load_num l) (load_min_p_mw l) v (load_in_service l).

Definition set_load_controllable (v : bool) (l : load) : load :=
  mkLoad (load_bus l) (load_p_mw l) (load_name l) v (load_num l)
    (load_min_p_mw l) (load_max_p_mw l) (load_in_service l).

Definition set_net_gen (gs : list gen) (n : network) : network :=
  mkNetwork (net_bus n) (net_bus_geodata n) gs (net_load n).

Definition set_net_load (ls : list load) (n : network) : network :=
  mkNetwork (net_bus n) (net_bus_geodata n) (net_gen n) ls.

(** [df.loc[mask, col] = f(row)]: rewrite the rows the mask selects. *)
Definition update_where {A} (mask : A -> bool) (f : A -> A) (l : list A)
  : list A :=
  map (fun a => if mask a then f a else a) l.

(** [x in xs] on strings. *)
Definition str_in (x : string) (xs : list string) : bool :=
  existsb (String.eqb x) xs.

(** ** Renewable redistribution: [allocate_renewable_generation]
    ([scripts/_7_time_series_and_pf_calculations.py], lines 94-156) *)

(** The mask [network.gen["tech"] == renewable]. *)
Definition in_tech (renewable : string) (g : gen) : bool :=
  String.eqb (gen_tech g) renewable.

(** [network.gen.loc[tech == renewable, "p_mw_original"].sum()]. *)
Definition total_max_capacity (gens : list gen) (renewable : string) : Q :=
  Qsum (map gen_p_mw_original (filter (in_tech renewable) gens)).

(** [p_mw = normed_p_mw * country_generation] on the rows of the technology. *)
Definition assign_initial (renewable : string) (country_generation : float)
  (gens : list gen) : list gen :=
  update_where (in_tech renewable)
    (fun g => set_gen_p_mw (fmul (gen_normed_p_mw g) country_generation) g)
    gens.

(** One cell of [excess_generation]: [p_mw - p_mw_original], kept where it
    is positive and replaced by 0 elsewhere ([Series.where]). *)
Definition excess_of (g : gen) : Q :=
  match fsub (gen_p_mw g) (Some (gen_p_mw_original g)) with
  | Some d => if Qltb 0 d then d else 0
  | None => 0
  end.

(** The series [excess_generation], one cell per row of the technology. *)
Definition excess_generation (renewable : string) (gens : list gen)
  : list Q :=
  map excess_of (filter (in_tech renewable) gens).

(** [p_mw -= excess_generation] on the rows of the technology. *)
Definition clip_to_nameplate (renewable : string) (gens : list gen)
  : list gen :=
  update_where (in_tech renewable)
    (fun g => set_gen_p_mw (fsub (gen_p_mw g) (Some (excess_of g))) g)
    gens.

(** The mask [network.gen["p_mw"] < network.gen["p_mw_original"]], over the
    whole generator table. *)
Definition available (g : gen) : bool :=
  flt (gen_p_mw g) (Some (gen_p_mw_original g)).

(** [p_mw_original - p_mw]. *)
Definition headroom (g : gen) : float :=
  fsub (Some (gen_p_mw_original g)) (gen_p_mw g).

Definition total_available_capacity (gens : list gen) : Q :=
  fsum (map headroom (filter available gens)).

(** [p_mw += (p_mw_original - p_mw) * scaling_factor] on one row. *)
Definition redistribute_row (scaling_factor : Q) (g : gen) : gen :=
  set_gen_p_mw (fadd (gen_p_mw g) (fmul (headroom g) (Some scaling_factor))) g.

(** The redistribution block (lines 135-148). *)
Definition redistribute (total_excess : Q) (gens : list gen) : list gen :=
  match filter available gens with
  | [] => gens
  | _ :: _ =>
      if Qltb 0 (total_available_capacity gens) then
        let scaling_factor := total_excess / total_available_capacity gens in
        update_where available (redistribute_row scaling_factor) gens
      else gens
  end.

(** [min_p_mw = p_mw] then [max_p_mw = p_mw] on the rows of the technology. *)
Definition freeze_limits (renewable : string) (gens : list gen) : list gen :=
  update_where (in_tech renewable)
    (fun g => set_gen_max_p_mw (gen_p_mw g) g)
    (update_where (in_tech renewable)
       (fun g => set_gen_min_p_mw (gen_p_mw g) g) gens).

(** The observation after the cap of line 116. *)
Definition capped_generation (gens : list gen) (country_generation : float)
  (renewable : string) : float :=
  py_min country_generation (Some (total_max_capacity gens renewable)).

(** The generator table after the initial assignment and the clipping. *)
Definition clipped_gens (gens : list gen) (country_generation : float)
  (renewable : string) : list gen :=
  clip_to_nameplate renewable
    (assign_initial renewable
       (capped_generation gens country_generation renewable) gens).

(** [excess_generation.sum()]. *)
Definition total_excess (gens : list gen) (country_generation : float)
  (renewable : string) : Q :=
  Qsum (excess_generation renewable
          (assign_initial renewable
             (capped_generation gens country_generation renewable) gens)).

(** Lines 110-156 on the generator table. *)
Definition allocate_gens (gens : list gen) (country_generation : float)
  (renewable : string) : list gen :=
  freeze_limits renewable
    (redistribute (total_excess gens country_generation renewable)
       (clipped_gens gens country_generation renewable)).

(** *** Predicates on the generator table used to state the properties *)

(** Every unit of the technology has a normalised share. *)
Definition shares_set (r : string) (l : list gen) : Prop :=
  forallb (fun g => implb (in_tech r g)
                      (match gen_normed_p_mw g with Some _ => true | None => false end)) l = true.

(** No generator outside the technology has headroom. *)
Definition no_outside_headroom (r : string) (l : list gen) : Prop :=
  forallb (fun g => in_tech r g || negb (available g)) l = true.

(** The dispatch of [g] is not above its nameplate (a missing dispatch is
    not above anything). *)
Definition within_nameplate (g : gen) : bool :=
  negb (flt (Some (gen_p_mw_original g)) (gen_p_mw g)).

Definition all_within_nameplate (l : list gen) : Prop :=
  forallb within_nameplate l = true.

Definition accepted_renewables : list string :=
  ["Solar"; "onwind"; "offwind"; "wind"].

Definition allocate_renewable_generation (country_generation : float)
  (renewable : string) : M network unit :=
  if negb (str_in renewable accepted_renewables) then raise ValueError
  else
    modify (fun network =>
              set_net_gen
                (allocate_gens (net_gen network) country_generation renewable)
                network).

(** ** Capacity normaliser: [create_values_per_country]
    (same file, lines 159-207) *)

(** Which column a category is looked up in. *)
Inductive gen_column : Type := col_type | col_tech.

Definition gen_col (c : gen_column) (g : gen) : string :=
  match c with col_type => gen_type g | col_tech => gen_tech g end.

(** The dict [categories], in its insertion order. *)
Definition categories : list (string * gen_column) :=
  [("solar", col_type); ("wind", col_type);
   ("onwind", col_tech); ("offwind", col_tech)].

(** A Python dict with string keys, as an association list in insertion
    order; an assignment to a present key overwrites its value in place. *)
Definition dict (V : Type) : Type := list (string * V).

Fixpoint dict_get {V} (k : string) (d : dict V) : option V :=
  match d with
  | [] => None
  | (k', v) :: r => if String.eqb k' k then Some v else dict_get k r
  end.

Fixpoint dict_set {V} (k : string) (v : V) (d : dict V) : dict V :=
  match d with
  | [] => [(k, v)]
  | (k', v') :: r =>
      if String.eqb k' k then (k', v) :: r else (k', v') :: dict_set k v r
  end.

(** The per-country [totals], keyed by category. *)
Definition totals_t : Type := dict Q.

(** The function attribute [create_values_per_country.cached_values];
    [None] while the attribute does not exist. *)
Record world : Type := mkWorld {
  w_net : network;
  w_cached_values : option (dict totals_t)
}.

Definition set_w_net (n : network) (w : world) : world :=
  mkWorld n (w_cached_values w).

Definition set_w_cached_values (c : option (dict totals_t)) (w : world)
  : world :=
  mkWorld (w_net w) c.

(** Run a computation on the network inside the world. *)
Definition on_net {A} (c : M network A) : M world A :=
  fun w =>
    match c (w_net w) with
    | (r, n') => (r, set_w_net n' w)
    end.

(** A row of [processed_regions], as far as the time-series code reads it. *)
Record region : Type := mkRegion {
  region_id : string;
  region_country : string;
  region_load_factor : Q
}.

(** [Series.unique()]: first occurrences, in order. *)
Fixpoint unique (l : list string) : list string :=
  match l with
  | [] => []
  | x :: r => x :: filter (fun y => negb (String.eqb y x)) (unique r)
  end.

(** [network.bus["zone"]] looked up by index label. *)
Definition zone_of_bus (buses : list bus) (b : nat) : option string :=
  match find (fun r => Nat.eqb (bus_idx r) b) buses with
  | Some r => Some (bus_zone r)
  | None => None
  end.

(** [network.gen["country"] = network.gen["bus"].map(network.bus["zone"])]. *)
Definition map_gen_country (n : network) : network :=
  set_net_gen
    (map (fun g => set_gen_country (zone_of_bus (net_bus n) (gen_bus g)) g)
       (net_gen n))
    n.

Definition in_country (country : string) (g : gen) : bool :=
  match gen_country g with
  | Some c => String.eqb c country
  | None => false
  end.

Definition in_category (kv : string * gen_column) (g : gen) : bool :=
  String.eqb (gen_col (snd kv) g) (fst kv).

(** [country_gen[country_gen[value] == key]["p_mw_original"].sum()]. *)
Definition category_total (gens : list gen) (country : string)
  (kv : string * gen_column) : Q :=
  Qsum (map gen_p_mw_original
          (filter (in_category kv) (filter (in_country country) gens))).

Definition compute_totals (gens : list gen) (country : string) : totals_t :=
  map (fun kv => (fst kv, category_total gens country kv)) categories.

(** [totals[key]]; every key of [categories] is present in [totals]. *)
Definition totals_get (key : string) (totals : totals_t) : Q :=
  match dict_get key totals with Some v => v | None => 0 end.

(** One turn of the inner loop (lines 186-202). *)
Definition normalize_category (country : string) (totals : totals_t)
  (gens : list gen) (kv : string * gen_column) : list gen :=
  if Qltb 0 (totals_get (fst kv) totals) then
    update_where (fun g => in_country country g && in_category kv g)
      (fun g =>
         set_gen_normed_p_mw
           (fdiv (Some (gen_p_mw_original g))
              (Some (totals_get (fst kv) totals))) g)
      gens
  else gens.

(** The dict held by the function attribute (empty while it is absent). *)
Definition cache_of (w : world) : dict totals_t :=
  match w_cached_values w with Some c => c | None => [] end.

Definition uk_to_gb (country : string) : string :=
  if String.eqb country "UK" then "GB" else country.

(** One turn of the loop over the countries (lines 173-204). *)
Definition normalize_country (country0 : string) (w : world) : world :=
  let country := uk_to_gb country0 in
  let gens := net_gen (w_net w) in
  let totals := compute_totals gens country in
  let gens' := fold_left (normalize_category country totals) categories gens in
  mkWorld (set_net_gen gens' (w_net w))
    (Some (dict_set country totals (cache_of w))).

Definition create_values_per_country (processed_regions : list region)
  (force_update : bool) : M world (dict totals_t) :=
  fun w =>
    let countries := unique (map region_country processed_regions) in
    let w1 := set_w_net (map_gen_country (w_net w)) w in
    match force_update, w_cached_values w1 with
    | false, Some c => (inr c, w1)
    | _, _ =>
        let w2 :=
          fold_left (fun acc country => normalize_country country acc)
            countries (set_w_cached_values (Some []) w1) in
        (inr (cache_of w2), w2)
    end.

(** *** The normaliser seen row by row

    The loops of [create_values_per_country] write the column
    [normed_p_mw] through masks; the functions below give the cell each
    loop turn leaves in one row.  They are related to the loops in the
    properties section. *)

(** The mask and guard of one category turn, for one row. *)
Definition category_applies (country : string) (totals : totals_t)
  (kv : string * gen_column) (g : gen) : bool :=
  Qltb 0 (totals_get (fst kv) totals)
  && (in_country country g && in_category kv g).

Definition category_share (totals : totals_t) (kv : string * gen_column)
  (g : gen) : float :=
  fdiv (Some (gen_p_mw_original g)) (Some (totals_get (fst kv) totals)).

(** The share a row holds after the category loop of one country, from the
    share [v] it held before. *)
Definition row_share (country : string) (totals : totals_t) (g : gen)
  (v : float) : float :=
  fold_left
    (fun v kv =>
       if category_applies country totals kv g
       then category_share totals kv g else v)
    categories v.

(** The share a row holds after the loop over the countries [cs], with the
    totals taken on the table [gens]. *)
Definition final_share (cs : list string) (gens : list gen) (g : gen)
  : float :=
  fold_left
    (fun v c0 =>
       row_share (uk_to_gb c0) (compute_totals gens (uk_to_gb c0)) g v)
    cs (gen_normed_p_mw g).

(** The countries the loop runs over. *)
Definition countries_of (processed_regions : list region) : list string :=
  unique (map region_country processed_regions).

(** The call recomputes: it is forced, or the cache does not exist yet. *)
Definition recomputes (force_update : bool) (w : world) : Prop :=
  force_update = true \/ w_cached_values w = None.

(** The generator table the normaliser starts from: the input table with
    its country column filled in. *)
Definition mapped_gens (w : world) : list gen :=
  net_gen (map_gen_country (w_net w)).

(** The world the recomputing branch starts its country loop from. *)
Definition recompute_start (w : world) : world :=
  set_w_cached_values (Some []) (set_w_net (map_gen_country (w_net w)) w).

Definition recomputed_world (regions : list region) (w : world) : world :=
  fold_left (fun acc country => normalize_country country acc)
    (countries_of regions) (recompute_start w).

(** The rows of the (country, category) group. *)
Definition group (gens : list gen) (country : string)
  (kv : string * gen_column) : list gen :=
  filter (in_category kv) (filter (in_country country) gens).

(** A unit of a category keyed by [type] that a category keyed by [tech]
    also selects. *)
Definition tech_keyed_elsewhere (kv : string * gen_column) (g : gen) : bool :=
  match snd kv with
  | col_tech => false
  | col_type => str_in (gen_tech g) ["onwind"; "offwind"]
  end.

(** ** Generator limits: [calculate_power_limits]
    ([scripts/_4_mapping_gen_and_load.py], lines 24-83)

    The result [(None, None)] is [None]. *)

Definition calculate_power_limits (fueltype : string) (P_nom : Q)
  : option (Q * Q) :=
  let '(P_min, P_max) :=
    if String.eqb fueltype "nuclear" then (P_nom * 0.50, P_nom * 1.00)
    else if str_in fueltype ["coal"; "lignite"] then
      (P_nom * 0.40, P_nom * 1.00)
    else if str_in fueltype ["CCGT"; "OCGT"] then
      (P_nom * 0.40, P_nom * 1.00)
    else if str_in fueltype ["biomass"; "waste"; "oil"] then
      (P_nom * 0.30, P_nom * 1.00)
    else if str_in fueltype ["hydro"; "PHS"; "ror"] then
      (P_nom * 0.10, P_nom * 1.00)
    else if str_in fueltype ["wind"; "solar"] then
      (0.00, P_nom * 1.00)
    else if String.eqb fueltype "geothermal" then
      (P_nom * 0.60, P_nom * 1.00)
    else (P_nom * 0.20, P_nom * 1.00) in
  if Qltb P_min 0 || Qle_bool P_max P_min then None
  else Some (P_min, P_max).

(** ** Nearest neighbour: [scipy.spatial.KDTree]

    [KDTree(data).query(x)] returns the position in [data] of a point
    nearest to [x] in Euclidean distance; on a tree without points it
    returns the position [n = 0] ("missing neighbors are indicated with
    self.n").  Distances are compared through their squares.  Among
    equally near points the model returns the first. *)

Definition sq_dist (p q : Q * Q) : Q :=
  (fst p - fst q) * (fst p - fst q) + (snd p - snd q) * (snd p - snd q).

Fixpoint nearest_from (best : nat) (best_d : Q) (i : nat)
  (data : list (Q * Q)) (x : Q * Q) : nat :=
  match data with
  | [] => best
  | p :: r =>
      if Qltb (sq_dist p x) best_d
      then nearest_from i (sq_dist p x) (S i) r x
      else nearest_from best best_d (S i) r x
  end.

Definition KDTree_query (data : list (Q * Q)) (x : Q * Q) : nat :=
  match data with
  | [] => 0%nat
  | p :: r => nearest_from 0 (sq_dist p x) 1 r x
  end.

(** ** Asset-to-bus resolution: [create_gen_or_load] (same file, lines
    86-229) *)

(** What the resolver works on: the network, and a record of the point
    sets every [KDTree] was built over, in order (the record is not in the
    program; it is kept to state what the program builds). *)
Record rstate : Type := mkRstate {
  rs_net : network;
  rs_kdtrees : list (list (Q * Q))
}.

Definition KDTree (data : list (Q * Q)) : M rstate (list (Q * Q)) :=
  fun s => (inr data, mkRstate (rs_net s) (rs_kdtrees s ++ [data])).

Definition update_net (f : network -> network) : M rstate unit :=
  fun s => (inr tt, mkRstate (f (rs_net s)) (rs_kdtrees s)).

(** [pp.create_gen(net, bus, ...)] and [pp.create_load(net, bus, ...)]
    append one row. *)
Definition create_gen (g : gen) : M rstate unit :=
  update_net (fun n => set_net_gen (net_gen n ++ [g]) n).

Definition create_load (l : load) : M rstate unit :=
  update_net (fun n => set_net_load (net_load n ++ [l]) n).

(** [index[k]]: positional access, [IndexError] out of range. *)
Definition index_at {S} (labels : list nat) (k : nat) : M S nat :=
  match nth_error labels k with
  | Some b => ret b
  | None => raise IndexError
  end.

(** [df.loc[labels]]: the rows with these index labels, in the order of the
    labels; [KeyError] when a label is absent. *)
Fixpoint loc_rows {A} (label_of : A -> nat) (rows : list A)
  (labels : list nat) : option (list A) :=
  match labels with
  | [] => Some []
  | i :: r =>
      match find (fun a => Nat.eqb (label_of a) i) rows, loc_rows label_of rows r with
      | Some a, Some l => Some (a :: l)
      | _, _ => None
      end
  end.

Definition loc {S A} (label_of : A -> nat) (rows : list A)
  (labels : list nat) : M S (list A) :=
  match loc_rows label_of rows labels with
  | Some l => ret l
  | None => raise KeyError
  end.

(** [index.isin(labels)]. *)
Definition isin (i : nat) (labels : list nat) : bool :=
  existsb (Nat.eqb i) labels.

Definition geo_xy (g : bus_geo) : Q * Q := (geo_x g, geo_y g).

(** [Series.min()] of a column without missing values. *)
Fixpoint Qmin_list (x : Q) (l : list Q) : Q :=
  match l with
  | [] => x
  | y :: r => Qmin_list (if Qltb y x then y else x) r
  end.

(** [name.startswith(("relation", "way"))]. *)
Definition real_substation_name (name : string) : bool :=
  String.prefix "relation" name || String.prefix "way" name.

Section Resolver.
(** Geometries and the two operations the resolver asks of shapely:
    [Point(x, y).within(geometry)] and [geometry.centroid]. *)
Variable geometry : Type.
Variable within : Q * Q -> geometry -> bool.
Variable centroid : geometry -> Q * Q.

(** A row of the asset table [gdf] (plants or load regions); each branch
    reads the columns of its own kind of asset. *)
Record element : Type := mkElement {
  el_index : nat;
  el_geometry : geometry;
  el_zone : string;
  el_name : string;
  el_id : string;
  el_capacity : Q;
  el_fueltype : string;
  el_technology : string;
  el_adjusted_marginal_price : float;
  el_load_factor : Q
}.

(** [net.bus[net.bus["zone"] == element["zone"]]]. *)
Definition country_buses (net : network) (e : element) : list bus :=
  filter (fun b => String.eqb (bus_zone b) (el_zone e)) (net_bus net).

Definition real_country_buses (net : network) (e : element) : list bus :=
  filter (fun b => real_substation_name (bus_name b) && bus_in_service b)
    (country_buses net e).

Definition real_country_buses_geodata (net : network) (e : element)
  : list bus_geo :=
  filter (fun g => isin (geo_idx g) (map bus_idx (real_country_buses net e)))
    (net_bus_geodata net).

Definition buses_within_polygon (net : network) (e : element)
  : list bus_geo :=
  filter (fun g => within (geo_xy g) (el_geometry e))
    (real_country_buses_geodata net e).

(** Lines 118-147: the bus the element is mapped to. *)
Definition closest_bus (net : network) (e : element) : M rstate nat :=
  let element_coords := centroid (el_geometry e) in
  real_country_bus_kdtree <-
    KDTree (map geo_xy (real_country_buses_geodata net e)) ;;
  match buses_within_polygon net e with
  | _ :: _ =>
      substations_within <-
        loc bus_idx (net_bus net) (map geo_idx (buses_within_polygon net e)) ;;
      let min_voltage :=
        match map bus_vn_kv substations_within with
        | [] => 0
        | v :: r => Qmin_list v r
        end in
      let substations_with_lowest_voltage :=
        filter (fun b => Qeq_bool (bus_vn_kv b) min_voltage)
          substations_within in
      substations_coords <-
        loc geo_idx (real_country_buses_geodata net e)
          (map bus_idx substations_with_lowest_voltage) ;;
      tree <- KDTree (map geo_xy substations_coords) ;;
      index_at (map bus_idx substations_with_lowest_voltage)
        (KDTree_query tree element_coords)
  | [] =>
      index_at (map bus_idx (real_country_buses net e))
        (KDTree_query real_country_bus_kdtree element_coords)
  end.

(** The generator branch (lines 152-194). *)
Definition create_gen_branch (distribute_gen : bool) (net : network)
  (e : element) (closest : nat) : M rstate unit :=
  let power_mw := el_capacity e in
  let limits := calculate_power_limits (el_fueltype e) power_mw in
  let controllable :=
    match limits with Some _ => true | None => false end in
  let marginal_cost :=
    match el_adjusted_marginal_price e with
    | Some c => c
    | None => 0
    end in
  let '(P_min, P_max) :=
    match limits with
    | Some (lo, hi) => (lo, hi)
    | None => (0, 0)
    end in
  closest' <-
    (if distribute_gen then
       tree <-
         KDTree
           (map geo_xy
              (filter
                 (fun g => isin (geo_idx g) (map bus_idx (country_buses net e)))
                 (net_bus_geodata net))) ;;
       index_at (map bus_idx (country_buses net e))
         (KDTree_query tree (centroid (el_geometry e)))
     else ret closest) ;;
  create_gen
    (mkGen (el_index e) closest' (el_name e) (Some power_mw) 1 false 1 true
       (Some P_min) (Some P_max) marginal_cost (el_fueltype e)
       (el_technology e) power_mw None None true).

(** The load branch (lines 196-226). *)
Definition create_load_branch (distribute_load : bool) (net : network)
  (e : element) (closest : nat) : M rstate unit :=
  if negb distribute_load then
    create_load
      (mkLoad closest (Some (el_load_factor e)) (el_id e) false None None
         None true)
  else
    let num_buses :=
      inject_Z (Z.of_nat (List.length (buses_within_polygon net e))) in
    match buses_within_polygon net e with
    | _ :: _ =>
        for_each (buses_within_polygon net e)
          (fun row =>
             create_load
               (mkLoad (geo_idx row)
                  (Some (el_load_factor e / num_buses)) (el_id e) false
                  (Some num_buses) None None true))
    | [] =>
        create_load
          (mkLoad closest (Some (el_load_factor e)) (el_id e) false
             (Some 1) None None true)
    end.

(** One turn of the loop over the assets; the result tells whether the
    loop goes on ([true]) or the function returns ([false], on an element
    type that is neither "gen" nor "load"). *)
Definition resolve_element (Type_ : string)
  (distribute_gen distribute_load : bool) (e : element) : M rstate bool :=
  s <- get ;;
  let net := rs_net s in
  closest <- closest_bus net e ;;
  if String.eqb Type_ "gen" then
    create_gen_branch distribute_gen net e closest ;;; ret true
  else if String.eqb Type_ "load" then
    create_load_branch distribute_load net e closest ;;; ret true
  else ret false.

Fixpoint resolve_all (Type_ : string)
  (distribute_gen distribute_load : bool) (gdf : list element)
  : M rstate unit :=
  match gdf with
  | [] => ret tt
  | e :: r =>
      go_on <- resolve_element Type_ distribute_gen distribute_load e ;;
      if go_on
      then resolve_all Type_ distribute_gen distribute_load r
      else ret tt
  end.

Definition create_gen_or_load (gdf : list element) (Type_ : string)
  (distribute_gen distribute_load : bool) : M rstate unit :=
  resolve_all Type_ distribute_gen distribute_load gdf.
End Resolver.

Arguments mkElement {geometry}.
Arguments el_index {geometry}.
Arguments el_geometry {geometry}.
Arguments el_zone {geometry}.
Arguments el_name {geometry}.
Arguments el_id {geometry}.
Arguments el_capacity {geometry}.
Arguments el_fueltype {geometry}.
Arguments el_technology {geometry}.
Arguments el_adjusted_marginal_price {geometry}.
Arguments el_load_factor {geometry}.
Arguments country_buses {geometry}.
Arguments real_country_buses {geometry}.
Arguments real_country_buses_geodata {geometry}.
Arguments buses_within_polygon {geometry}.
Arguments closest_bus {geometry}.
Arguments create_gen_branch {geometry}.
Arguments create_load_branch {geometry}.
Arguments resolve_element {geometry}.
Arguments resolve_all {geometry}.
Arguments create_gen_or_load {geometry}.

(** [net.bus_geodata] has one row per bus, in the order of [net.bus], and
    the index labels of [net.bus] are distinct. *)
Definition aligned (net : network) : Prop :=
  map geo_idx (net_bus_geodata net) = map bus_idx (net_bus net)
  /\ NoDup (map bus_idx (net_bus net)).

(** The rows [create_gen_or_load] adds for an evenly distributed load. *)
Definition even_loads {geometry} (e : element geometry) (rows : list bus_geo)
  : list load :=
  let num_buses := inject_Z (Z.of_nat (List.length rows)) in
  map (fun row =>
         mkLoad (geo_idx row) (Some (el_load_factor e / num_buses))
           (el_id e) false (Some num_buses) None None true)
    rows.

(** ** The time series and the per-step update: [update_loads]
    ([scripts/_7_time_series_and_pf_calculations.py], lines 211-406) *)

(** The time-series table: its index (the time steps) and its columns,
    each a list of cells in index order. *)
Record time_series : Type := mkTimeSeries {
  ts_index : list nat;
  ts_columns : list (string * list float)
}.

Definition columns (ts : time_series) : list string :=
  map fst (ts_columns ts).

Fixpoint position (t : nat) (index : list nat) : option nat :=
  match index with
  | [] => None
  | i :: r =>
      if Nat.eqb i t then Some 0%nat
      else match position t r with
           | Some k => Some (S k)
           | None => None
           end
  end.

(** [time_series.loc[time_step, col]] (the first cell when the label
    occurs several times); [KeyError] when the label or the column is
    absent. *)
Definition ts_loc {S} (ts : time_series) (time_step : nat) (col : string)
  : M S float :=
  match dict_get col (ts_columns ts), position time_step (ts_index ts) with
  | Some cells, Some k =>
      match nth_error cells k with
      | Some v => ret v
      | None => raise KeyError
      end
  | _, _ => raise KeyError
  end.

(** [[col for col in time_series.columns if col.startswith(prefix)]]. *)
Definition columns_starting_with (ts : time_series) (prefix : string)
  : list string :=
  filter (String.prefix prefix) (columns ts).

(** [xs[0]], [IndexError] on the empty list. *)
Definition first_of {S A} (xs : list A) : M S A :=
  match xs with
  | x :: _ => ret x
  | [] => raise IndexError
  end.

(** The local variables of [update_loads] that are set before the loop
    over the regions and live across its turns. *)
Record wind_columns : Type := mkWindColumns {
  expected_prefix_onwind : option string;
  expected_prefix_offwind : option string;
  expected_prefix_wind : option string;
  matching_columns_wind : option (list string);
  matching_columns_onwind : option (list string);
  matching_columns_offwind : option (list string)
}.

(** Truth value of an optional string ([None] and "" are false) and of an
    optional list ([None] and [[]] are false). *)
Definition truthy_string (o : option string) : bool :=
  match o with
  | Some s => negb (String.eqb s "")
  | None => false
  end.

Definition truthy_list {A} (o : option (list A)) : bool :=
  match o with
  | Some (_ :: _) => true
  | _ => false
  end.

Definition is_none {A} (o : option A) : bool :=
  match o with None => true | Some _ => false end.

(** ["x" in network.gen.tech.values]. *)
Definition tech_present (tech : string) (n : network) : bool :=
  existsb (fun g => String.eqb (gen_tech g) tech) (net_gen n).

(** Lines 236-271: the prefixes for one region. *)
Definition expected_prefixes (ts : time_series) (n : network)
  (country : string) (v : wind_columns)
  : string * string * string * wind_columns :=
  let uk := String.eqb country "UK" in
  let country_code := if uk then "GB" else country in
  let stem := if uk then "GB_UKM" else country_code in
  let expected_prefix := stem ++ "_load_actual" in
  let expected_prefix_solar := stem ++ "_solar_generation_actual" in
  let onshore_col := stem ++ "_wind_onshore_generation_actual" in
  let offshore_col := stem ++ "_wind_offshore_generation_actual" in
  let wind_col := stem ++ "_wind_generation_actual" in
  let onwind' :=
    if tech_present "onwind" n && str_in onshore_col (columns ts)
    then Some onshore_col else expected_prefix_onwind v in
  let offwind' :=
    if tech_present "offwind" n && str_in offshore_col (columns ts)
    then Some offshore_col else expected_prefix_offwind v in
  let wind' :=
    if uk then
      (* the [else] belongs to the test of "offwind" in the technologies *)
      if tech_present "offwind" n then expected_prefix_wind v
      else Some wind_col
    else
      (* the [else] belongs to the test of the offshore column *)
      if tech_present "offwind" n && negb (str_in offshore_col (columns ts))
      then Some wind_col else expected_prefix_wind v in
  (country_code, expected_prefix, expected_prefix_solar,
   mkWindColumns onwind' offwind' wind' (matching_columns_wind v)
     (matching_columns_onwind v) (matching_columns_offwind v)).

(** Lines 316-337: the matching wind columns. *)
Definition match_wind_columns (ts : time_series) (v : wind_columns)
  : wind_columns :=
  let m_on :=
    if truthy_string (expected_prefix_onwind v)
    then match expected_prefix_onwind v with
         | Some p => Some (columns_starting_with ts p)
         | None => matching_columns_onwind v
         end
    else matching_columns_onwind v in
  let m_off :=
    if truthy_string (expected_prefix_offwind v)
    then match expected_prefix_offwind v with
         | Some p => Some (columns_starting_with ts p)
         | None => matching_columns_offwind v
         end
    else matching_columns_offwind v in
  let m_wind :=
    match expected_prefix_onwind v, expected_prefix_offwind v,
          expected_prefix_wind v with
    | None, None, Some p => Some (columns_starting_with ts p)
    | _, _, _ => matching_columns_wind v
    end in
  mkWindColumns (expected_prefix_onwind v) (expected_prefix_offwind v)
    (expected_prefix_wind v) m_wind m_on m_off.

(** ["num" in network.load.columns]: the column exists once a load has
    been created with it. *)
Definition has_num_column (n : network) : bool :=
  existsb (fun l => negb (is_none (load_num l))) (net_load n).

(** Lines 340-357: the load of the region. *)
Definition update_region_load (ts : time_series) (time_step : nat)
  (r : region) (matching_columns : list string) : M world unit :=
  match matching_columns with
  | [] => ret tt
  | col :: _ =>
      country_load <- ts_loc ts time_step col ;;
      let region_load := fmul country_load (Some (region_load_factor r)) in
      modify (fun w =>
        let n := w_net w in
        let named l := String.eqb (load_name l) (region_id r) in
        if has_num_column n then
          set_w_net
            (set_net_load
               (update_where named
                  (fun l => set_load_p_mw (fdiv region_load (load_num l)) l)
                  (net_load n)) n) w
        else
          set_w_net
            (set_net_load
               (update_where named (set_load_p_mw region_load) (net_load n))
               n) w)
  end.

(** One of the guarded allocations of lines 360-391. *)
Definition allocate_if (ts : time_series) (time_step : nat)
  (matching : option (list string)) (total_max : Q) (renewable : string)
  : M world unit :=
  if truthy_list matching && Qltb 0 total_max then
    col <- first_of (match matching with Some l => l | None => [] end) ;;
    country_generation <- ts_loc ts time_step col ;;
    on_net (allocate_renewable_generation country_generation renewable)
  else ret tt.

(** [create_values_per_country.cached_values[country_code][key]]. *)
Definition cached_total (country_code key : string) : M world Q :=
  fun w =>
    match dict_get country_code (cache_of w) with
    | Some totals =>
        match dict_get key totals with
        | Some t => (inr t, w)
        | None => (inl KeyError, w)
        end
    | None => (inl KeyError, w)
    end.

(** One turn of the loop over the regions (lines 232-406). *)
Definition update_region (ts : time_series) (time_step : nat)
  (variable : bool) (v : wind_columns) (r : region)
  : M world wind_columns :=
  w <- get ;;
  let '(country_code, expected_prefix, expected_prefix_solar, v1) :=
    expected_prefixes ts (w_net w) (region_country r) v in
  total_max_solar <- cached_total country_code "solar" ;;
  total_max_onwind <- cached_total country_code "onwind" ;;
  total_max_offwind <- cached_total country_code "offwind" ;;
  let matching_columns := columns_starting_with ts expected_prefix in
  let matching_columns_solar :=
    columns_starting_with ts expected_prefix_solar in
  let v2 := match_wind_columns ts v1 in
  update_region_load ts time_step r matching_columns ;;;
  (if negb variable then
     allocate_if ts time_step (Some matching_columns_solar) total_max_solar
       "Solar" ;;;
     allocate_if ts time_step (matching_columns_onwind v2) total_max_onwind
       "onwind" ;;;
     allocate_if ts time_step (matching_columns_offwind v2)
       total_max_offwind "offwind" ;;;
     (if is_none (matching_columns_offwind v2)
         && is_none (matching_columns_onwind v2)
         && negb (is_none (matching_columns_wind v2))
      then
        col <- first_of (match matching_columns_wind v2 with
                         | Some l => l
                         | None => []
                         end) ;;
        country_generation <- ts_loc ts time_step col ;;
        on_net (allocate_renewable_generation country_generation "wind")
      else ret tt)
   else ret tt) ;;;
  ret v2.

Fixpoint update_regions (ts : time_series) (time_step : nat)
  (variable : bool) (v : wind_columns) (regions : list region)
  : M world unit :=
  match regions with
  | [] => ret tt
  | r :: rest =>
      v' <- update_region ts time_step variable v r ;;
      update_regions ts time_step variable v' rest
  end.

Definition update_loads (ts : time_series) (regions : list region)
  (time_step : nat) (force_update variable : bool) : M world unit :=
  create_values_per_country regions force_update ;;;
  modify (fun w =>
    set_w_net
      (set_net_gen
         (update_where (fun g => String.eqb (gen_type g) "solar")
            (set_gen_tech "solar") (net_gen (w_net w)))
         (w_net w)) w) ;;;
  update_regions ts time_step variable
    (mkWindColumns None None None None None None) regions.

(** ** The scenario driver: [time_series_pf_results] (same file, lines
    416-471) *)

(** What the driver reads from the result tables after a solve:
    [res_load.p_mw.sum()], [res_gen.p_mw.sum()],
    [res_line.loading_percent.max()] and [.idxmax()]. *)
Record res_summary : Type := mkRes {
  res_total_load : Q;
  res_total_generation : Q;
  res_max_line_loading : float;
  res_max_loading_index : option nat
}.

(** The entry points of the external solver the driver calls. *)
Inductive solver_call : Type := runpp | rundcopp | runopp.

(** The network with the cache of the normaliser, and the result tables of
    the last successful solve. *)
Record driver : Type := mkDriver {
  dr_world : world;
  dr_res : res_summary
}.

(** One row of the summary table [pf_results]. *)
Record summary_row : Type := mkRow {
  row_time_step : nat;
  row_total_load : Q;
  row_total_generation : Q;
  row_max_line_loading : float;
  row_max_loading_index : option nat
}.

Definition on_world {A} (c : M world A) : M driver A :=
  fun d =>
    match c (dr_world d) with
    | (r, w') => (r, mkDriver w' (dr_res d))
    end.

(** [net.gen[col] = net.gen[col].fillna(0)] for [p_mw], [min_p_mw] and
    [max_p_mw]. *)
Definition fill_missing_dispatch (n : network) : network :=
  set_net_gen
    (map (fun g =>
            set_gen_max_p_mw (fillna0 (gen_max_p_mw g))
              (set_gen_min_p_mw (fillna0 (gen_min_p_mw g))
                 (set_gen_p_mw (fillna0 (gen_p_mw g)) g)))
       (net_gen n))
    n.

(** Is a cell of the column [max_line_loading] above 100? *)
Definition overloaded (r : summary_row) : bool :=
  flt (Some 100) (row_max_line_loading r).

(** Is every cell of the row missing?  The cell [time_step] never is. *)
Definition row_all_missing (r : summary_row) : bool :=
  false && is_none (row_max_line_loading r)
  && is_none (row_max_loading_index r).

Section Driver.
(** The external grid solver: on a network it either raises or fills the
    result tables. *)
Variable pp : solver_call -> network -> exn + res_summary.
(** The time series and the regions of the run (globals of
    [main_program.py]). *)
Variable time_series_short : time_series.
Variable processed_regions : list region.

(** A call of [pp.runpp] or [pp.rundcopp]: an exception propagates. *)
Definition solve (call : solver_call) : M driver unit :=
  fun d =>
    match pp call (w_net (dr_world d)) with
    | inl e => (inl e, d)
    | inr r => (inr tt, mkDriver (dr_world d) r)
    end.

(** [run_ac_opf]: an exception of [pp.runopp] is caught and the result
    tables stay as they were. *)
Definition run_ac_opf : M driver unit :=
  try_except (solve runopp) (fun _ => ret tt).

Definition run_calculation (calculation : string) : M driver unit :=
  if String.eqb calculation "ac_pf" then solve runpp
  else if String.eqb calculation "dc_opf" then solve rundcopp
  else if String.eqb calculation "ac_opf" then run_ac_opf
  else raise ValueError.

(** One turn of the loop over the time steps. *)
Definition pf_step (calculation : string) (ts : time_series)
  (regions : list region) (variable first_iteration : bool)
  (time_step : nat) : M driver summary_row :=
  on_world (update_loads ts regions time_step first_iteration variable) ;;;
  on_world (modify (fun w => set_w_net (fill_missing_dispatch (w_net w)) w)) ;;;
  run_calculation calculation ;;;
  d <- get ;;
  ret (mkRow time_step (res_total_load (dr_res d))
         (res_total_generation (dr_res d))
         (res_max_line_loading (dr_res d))
         (res_max_loading_index (dr_res d))).

Fixpoint pf_steps (calculation : string) (ts : time_series)
  (regions : list region) (variable first_iteration : bool)
  (steps : list nat) (results_list : list summary_row)
  : M driver (list summary_row) :=
  match steps with
  | [] => ret results_list
  | time_step :: rest =>
      row <- pf_step calculation ts regions variable first_iteration
               time_step ;;
      pf_steps calculation ts regions variable false rest
        (results_list ++ [row])
  end.

Definition time_series_pf_results (calculation : string)
  (ts : time_series) (regions : list region)
  (force_update variable : bool) : M driver (list summary_row) :=
  pf_steps calculation ts regions variable force_update (ts_index ts) [].

(** ** [handle_pf_results] ([main_program.py], lines 404-432)

    Every exception is caught, so the function always returns a boolean. *)
Definition handle_pf_results (mode : string) (variable : bool) (d : driver)
  : bool * driver :=
  match time_series_pf_results mode time_series_short processed_regions
          true variable d with
  | (inl _, d') => (false, d')
  | (inr pf_results, d') =>
      if forallb row_all_missing pf_results then (false, d')
      else if existsb overloaded pf_results then (false, d')
      else (true, d')
  end.

(** ** The fallback protocol ([main_program.py], sections 7.1.2 and
    7.1.3) *)

(** What the protocol does, in order: a call of [handle_pf_results] with
    the stage it belongs to and its result, a relaxation of the network,
    the diagnostic output after the last stage, and the steps of the
    scaling-factor retry. *)
Inductive event : Type :=
| ev_attempt (stage : nat) (mode : string) (variable : bool) (ok : bool)
| ev_relax_conventional
| ev_relax_controllable
| ev_curtail_loads
| ev_diagnostic
| ev_scaling (scaling_factor : Q)
| ev_retry (mode : string) (raised : bool).

Definition on_gens (f : list gen -> list gen) (d : driver) : driver :=
  mkDriver
    (set_w_net (set_net_gen (f (net_gen (w_net (dr_world d))))
                  (w_net (dr_world d))) (dr_world d))
    (dr_res d).

Definition on_loads (f : list load -> list load) (d : driver) : driver :=
  mkDriver
    (set_w_net (set_net_load (f (net_load (w_net (dr_world d))))
                  (w_net (dr_world d))) (dr_world d))
    (dr_res d).

(** [max_p_mw = p_mw] and then [min_p_mw = 0] on the rows of the mask. *)
Definition relax_gens (mask : gen -> bool) (gens : list gen) : list gen :=
  update_where mask (set_gen_min_p_mw (Some 0))
    (update_where mask (fun g => set_gen_max_p_mw (gen_p_mw g) g) gens).

(** Lines 452-462. *)
Definition conventional (g : gen) : bool :=
  gen_controllable g && negb (str_in (gen_type g) ["solar"; "wind"]).

(** Lines 486-488. *)
Definition curtail_loads (loads : list load) : list load :=
  map (fun l =>
         set_load_controllable true
           (set_load_max_p_mw (fmul (load_p_mw l) (Some 1))
              (set_load_min_p_mw (fmul (load_p_mw l) (Some 0.1)) l)))
    loads.

(** Section 7.1.2.  The result of the first call is not bound to
    [converged]. *)
Definition fallback_protocol (d0 : driver) : bool * driver * list event :=
  let '(o1, d1) := handle_pf_results "ac_pf" false d0 in
  let log1 := [ev_attempt 1 "ac_pf" false o1] in
  let converged := false in
  if negb converged then
    let '(o2, d2) := handle_pf_results "dc_opf" false d1 in
    let log2 := (log1 ++ [ev_attempt 2 "dc_opf" false o2])%list in
    if o2 then (o2, d2, log2)
    else
      let d2' := on_gens (relax_gens conventional) d2 in
      let '(o3, d3) := handle_pf_results "dc_opf" false d2' in
      let log3 :=
        (log2 ++ [ev_relax_conventional; ev_attempt 3 "dc_opf" false o3])%list
      in
      if o3 then (o3, d3, log3)
      else
        let d3' := on_gens (relax_gens gen_controllable) d3 in
        let '(o4, d4) := handle_pf_results "dc_opf" true d3' in
        let log4 :=
          (log3 ++ [ev_relax_controllable; ev_attempt 4 "dc_opf" true o4])%list
        in
        if o4 then (o4, d4, log4)
        else
          let d4' := on_loads curtail_loads d4 in
          let '(o5, d5) := handle_pf_results "dc_opf" true d4' in
          let log5 :=
            (log4 ++ [ev_curtail_loads; ev_attempt 5 "dc_opf" true o5])%list
          in
          if o5 then (o5, d5, log5)
          else (o5, d5, (log5 ++ [ev_diagnostic])%list)
  else (converged, d1, log1).

(** [calculate_scaling_factor] (lines 505-516). *)
Definition calculate_scaling_factor (n : network) : Q :=
  let total_gen_power :=
    fsum (map gen_p_mw (filter gen_in_service (net_gen n))) in
  let total_load_power :=
    fsum (map load_p_mw (filter load_in_service (net_load n))) in
  if Qltb 0 total_gen_power then total_load_power / total_gen_power
  else 1.

(** Section 7.1.3: the retry with a scaling factor, inside
    [try ... except Exception]. *)
Definition scaling_retry (d : driver) : driver * list event :=
  let scaling_factor := calculate_scaling_factor (w_net (dr_world d)) in
  let d' := on_gens (map (set_gen_scaling scaling_factor)) d in
  match time_series_pf_results "ac_pf" time_series_short processed_regions
          true false d' with
  | (inl _, d'') => (d'', [ev_scaling scaling_factor; ev_retry "ac_pf" true])
  | (inr _, d'') => (d'', [ev_scaling scaling_factor; ev_retry "ac_pf" false])
  end.

(** Sections 7.1.2 and 7.1.3 in sequence. *)
Definition power_flow_with_fallback (d0 : driver) : driver * list event :=
  let '(converged, d, log) := fallback_protocol d0 in
  if negb converged then
    let '(d', log') := scaling_retry d in (d', (log ++ log')%list)
  else (d, log).
End Driver.

(** The attempts of the five stages. *)
Definition stage1 (o : bool) : event := ev_attempt 1 "ac_pf" false o.
Definition stage2 (o : bool) : event := ev_attempt 2 "dc_opf" false o.
Definition stage3 (o : bool) : event := ev_attempt 3 "dc_opf" false o.
Definition stage4 (o : bool) : event := ev_attempt 4 "dc_opf" true o.
Definition stage5 (o : bool) : event := ev_attempt 5 "dc_opf" true o.


(** ** Relations between a table before and after a call

    The functions of the program rewrite columns of a table in place.  The
    relations below compare a row before a call with the row at the same
    position after it. *)

(** [g'] is the row [g] up to the dispatch columns [p_mw], [min_p_mw] and
    [max_p_mw]: every other column holds the same value. *)
Definition same_unit (g g' : gen) : Prop :=
  set_gen_p_mw (gen_p_mw g)
    (set_gen_min_p_mw (gen_min_p_mw g)
       (set_gen_max_p_mw (gen_max_p_mw g) g')) = g.

(** [g'] is [g] with the same limits and a dispatch of the same value. *)
Definition same_dispatch (g g' : gen) : Prop :=
  same_unit g g'
  /\ feq (gen_p_mw g') (gen_p_mw g)
  /\ gen_min_p_mw g' = gen_min_p_mw g
  /\ gen_max_p_mw g' = gen_max_p_mw g.

(** What [allocate_renewable_generation] leaves of a row for the
    technology [renewable]: a unit of the technology has both limits at its
    dispatch, any other unit has the limits it had. *)
Definition allocated_unit (renewable : string) (g g' : gen) : Prop :=
  same_unit g g'
  /\ (in_tech renewable g = true ->
      gen_min_p_mw g' = gen_p_mw g' /\ gen_max_p_mw g' = gen_p_mw g')
  /\ (in_tech renewable g = false ->
      gen_min_p_mw g' = gen_min_p_mw g /\ gen_max_p_mw g' = gen_max_p_mw g).

(** What [allocate_renewable_generation] leaves of a row when the
    observation is missing. *)
Definition switched_off_unit (renewable : string) (g g' : gen) : Prop :=
  if in_tech renewable g
  then gen_p_mw g' = None /\ gen_min_p_mw g' = None
       /\ gen_max_p_mw g' = None
  else same_dispatch g g'.

(** Line 230 of [update_loads]:
    [network.gen.loc[network.gen["type"] == "solar", "tech"] = "solar"]. *)
Definition mark_solar (gens : list gen) : list gen :=
  update_where (fun g => String.eqb (gen_type g) "solar")
    (set_gen_tech "solar") gens.

(** No unit of the table has the technology [renewable]. *)
Definition no_unit_of (renewable : string) (gens : list gen) : Prop :=
  forallb (fun g => negb (in_tech renewable g)) gens = true.

(** The only units whose technology is spelled "Solar" are units of type
    "solar". *)
Definition solar_spelled_on_solar_only (gens : list gen) : Prop :=
  forallb (fun g => implb (String.eqb (gen_tech g) "Solar")
                      (String.eqb (gen_type g) "solar")) gens = true.

(** What [create_gen_or_load] writes into the generator row of a plant:
    the plant's index label, name, fuel type and technology, a dispatch at
    the plant's capacity, and limits that form a range. *)
Definition created_from {geometry} (e : element geometry) (g : gen) : Prop :=
  gen_idx g = el_index e
  /\ gen_name g = el_name e
  /\ gen_type g = el_fueltype e
  /\ gen_tech g = el_technology e
  /\ gen_p_mw g = Some (el_capacity e)
  /\ gen_p_mw_original g = el_capacity e
  /\ gen_slack g = false
  /\ gen_controllable g = true
  /\ gen_in_service g = true
  /\ exists lo hi,
       gen_min_p_mw g = Some lo /\ gen_max_p_mw g = Some hi
       /\ 0 <= lo /\ lo <= hi
       /\ (0 < el_capacity e -> lo < hi /\ hi == el_capacity e)
       /\ (el_capacity e <= 0 -> lo == 0 /\ hi == 0).

(** ** Two judgements on computations

    [raises_only P c]: every exception [c] can end with satisfies [P].
    [preserves R c]: however [c] ends, normally or with an exception, the
    state it leaves is related by [R] to the state it started from. *)
Definition raises_only {S A} (P : exn -> Prop) (c : M S A) : Prop :=
  forall s e s', c s = (inl e, s') -> P e.

Definition preserves {S A} (R : S -> S -> Prop) (c : M S A) : Prop :=
  forall s r s', c s = (r, s') -> R s s'.

(** The exceptions of the table lookups: a missing label or key, or a
    position past the end of a list. *)
Definition lookup_error (e : exn) : Prop := e = KeyError \/ e = IndexError.

(** [g'] is the row [g] up to the columns [country], [normed_p_mw] and
    [tech]. *)
Definition same_dispatch_columns (g g' : gen) : Prop :=
  set_gen_country (gen_country g)
    (set_gen_normed_p_mw (gen_normed_p_mw g)
       (set_gen_tech (gen_tech g) g')) = g.

(** [l'] is the row [l] up to the column [p_mw]. *)
Definition same_load (l l' : load) : Prop :=
  set_load_p_mw (load_p_mw l) l' = l.

(** What [update_loads] leaves of a network when the renewable allocation
    is switched off: generators up to [country], [normed_p_mw] and [tech],
    loads up to [p_mw], buses as they were. *)
Definition loads_only (n n' : network) : Prop :=
  net_bus n' = net_bus n
  /\ net_bus_geodata n' = net_bus_geodata n
  /\ Forall2 same_dispatch_columns (net_gen n) (net_gen n')
  /\ Forall2 same_load (net_load n) (net_load n').

Definition world_loads_only (w w' : world) : Prop :=
  loads_only (w_net w) (w_net w').

(** The three calculation modes of [time_series_pf_results]. *)
Definition calculation_modes : list string := ["ac_pf"; "dc_opf"; "ac_opf"].

(** The exceptions a run of [time_series_pf_results] in the mode
    [calculation] can end with: those of the lookups of [update_loads], the
    [ValueError] of an unknown mode, and what [pp.runpp] (mode "ac_pf") or
    [pp.rundcopp] (mode "dc_opf") raise. *)
Definition driver_error (pp : solver_call -> network -> exn + res_summary)
  (calculation : string) (e : exn) : Prop :=
  lookup_error e
  \/ (e = ValueError /\ ~ In calculation calculation_modes)
  \/ (calculation = "ac_pf" /\ exists n, pp runpp n = inl e)
  \/ (calculation = "dc_opf" /\ exists n, pp rundcopp n = inl e).

(** The mask [network.load["name"] == region["id"]]. *)
Definition named (id : string) (l : load) : bool :=
  String.eqb (load_name l) id.

(** The loads of the region [id] are numbered as the even distribution of
    [create_gen_or_load] numbers them: there is at least one, and the
    column [num] of each holds their count. *)
Definition numbered_evenly (id : string) (loads : list load) : Prop :=
  let k := List.length (filter (named id) loads) in
  (0 < k)%nat
  /\ forallb
       (fun l =>
          implb (named id l)
            (match load_num l with
             | Some v => Qeq_bool v (inject_Z (Z.of_nat k))
             | None => false
             end))
       loads = true.

(** ** The grid tables beside generators and loads

    [net.line], [net.trafo] and [net.line_geodata], as far as the filters
    and checks below read them.  The network record above holds the tables
    of the resolver and of the time-series code; the functions of this part
    take the tables they work on as arguments or in the record [grid]. *)

(** A row of [net.line]; [line_idx] is its index label, [line_name] is
    missing when the cell is NaN. *)
Record line : Type := mkLine {
  line_idx : nat;
  line_name : option string;
  line_from_bus : nat;
  line_to_bus : nat;
  line_max_i_ka : float
}.

(** A row of [net.trafo]. *)
Record trafo : Type := mkTrafo {
  trafo_idx : nat;
  trafo_hv_bus : nat;
  trafo_lv_bus : nat
}.

Definition set_line_max_i_ka (v : float) (l : line) : line :=
  mkLine (line_idx l) (line_name l) (line_from_bus l) (line_to_bus l) v.

Definition set_line_idx (i : nat) (l : line) : line :=
  mkLine i (line_name l) (line_from_bus l) (line_to_bus l) (line_max_i_ka l).

Definition set_gen_slack (v : bool) (g : gen) : gen :=
  mkGen (gen_idx g) (gen_bus g) (gen_name g) (gen_p_mw g) (gen_vm_pu g) v
    (gen_scaling g) (gen_controllable g) (gen_min_p_mw g) (gen_max_p_mw g)
    (gen_cost_per_mw g) (gen_type g) (gen_tech g) (gen_p_mw_original g)
    (gen_normed_p_mw g) (gen_country g) (gen_in_service g).

(** *** Sets of index labels

    A Python [set] of labels is a list without repetitions; only
    membership is read from it. *)
Definition set_of (l : list nat) : list nat := nodup Nat.eq_dec l.

Definition set_minus (a b : list nat) : list nat :=
  filter (fun x => negb (isin x b)) a.

(** ** [check_connections] ([scripts/_5_check_connections.py], lines
    12-45) *)

(** The four results, under the names the function gives them. *)
Record connections : Type := mkConnections {
  disconnected_buses_set : list nat;
  disconnected_gens : list nat;
  disconnected_loads : list nat;
  disconnected_buses_no_gens : list nat
}.

(** The buses a line or a transformer ends at. *)
Definition connected_buses_set (net_line : list line)
  (net_trafo : list trafo) : list nat :=
  set_of
    (set_of (map line_from_bus net_line ++ map line_to_bus net_line)
     ++ set_of (map trafo_hv_bus net_trafo ++ map trafo_lv_bus net_trafo)).

(** The index labels of the load table: [pp.create_load] numbers the rows
    0, 1, 2, ... in the order of their creation. *)
Definition load_index (net_load : list load) : list (nat * load) :=
  combine (seq 0 (List.length net_load)) net_load.

Definition check_connections (net_bus : list bus) (net_load : list load)
  (net_gen : list gen) (net_line : list line) (net_trafo : list trafo)
  : connections :=
  let connected := connected_buses_set net_line net_trafo in
  let all_buses_set := set_of (map bus_idx net_bus) in
  let disconnected_buses_set := set_minus all_buses_set connected in
  let disconnected_loads :=
    map fst
      (filter (fun il => negb (isin (load_bus (snd il)) connected))
         (load_index net_load)) in
  let disconnected_gens :=
    map gen_idx
      (filter (fun g => negb (isin (gen_bus g) connected)) net_gen) in
  let buses_with_gens := set_of (map gen_bus net_gen) in
  let disconnected_buses_no_gens :=
    set_minus disconnected_buses_set buses_with_gens in
  mkConnections disconnected_buses_set disconnected_gens disconnected_loads
    disconnected_buses_no_gens.

(** ** The slack generator ([main_program.py], lines 279-283 and 297;
    [verify_slack_connection], [scripts/_5_check_connections.py], lines
    48-70) *)

(** [Series.idxmax()]: the index label of the first cell that holds the
    largest value, missing cells being skipped.  [None] stands for the
    series without any value, on which pandas raises [ValueError] (on an
    empty series in every version; on a series of missing cells only,
    earlier versions return NaN with a warning). *)
Fixpoint idxmax_from (best : nat) (best_v : Q) (cells : list (nat * float))
  : nat :=
  match cells with
  | [] => best
  | (i, Some v) :: r =>
      if Qltb best_v v then idxmax_from i v r else idxmax_from best best_v r
  | (_, None) :: r => idxmax_from best best_v r
  end.

Fixpoint idxmax (cells : list (nat * float)) : option nat :=
  match cells with
  | [] => None
  | (i, Some v) :: r => Some (idxmax_from i v r)
  | (_, None) :: r => idxmax r
  end.

(** The column [p_mw] of a generator table with its index. *)
Definition p_mw_cells (gens : list gen) : list (nat * float) :=
  map (fun g => (gen_idx g, gen_p_mw g)) gens.

(** The mask [index == label]. *)
Definition labelled (label : nat) (g : gen) : bool :=
  Nat.eqb (gen_idx g) label.

(** Lines 279-283 of [main_program.py]: the unit with the largest dispatch
    becomes the slack. *)
Definition assign_slack : M network unit :=
  net <- get ;;
  match idxmax (p_mw_cells (net_gen net)) with
  | Some biggest_unit_idx =>
      modify (fun n =>
        set_net_gen
          (update_where (labelled biggest_unit_idx) (set_gen_slack true)
             (map (set_gen_slack false) (net_gen n)))
          n)
  | None => raise ValueError
  end.

(** Line 297: [net.gen.loc[net.gen["slack"]].index[0]]. *)
Definition slack_gen_index : M network nat :=
  net <- get ;;
  first_of (map gen_idx (filter gen_slack (net_gen net))).

(** The generators [verify_slack_connection] may hand the slack to. *)
Definition available_gens (result : connections) (gens : list gen)
  : list gen :=
  filter
    (fun g =>
       negb (isin (gen_idx g) (disconnected_gens result))
       && negb (isin (gen_bus g) (disconnected_buses_set result)))
    gens.

(** [verify_slack_connection(result, slack_gen_index, net)].  The second
    operand of [or] is evaluated only when the first is false;
    [net.gen.loc[label, "bus"]] raises [KeyError] on a label the table does
    not have.  The writes [net.gen.loc[label, "slack"] = ...] rewrite the
    rows of that label; the program passes labels read from the table (on a
    label that is not in the table pandas appends a row, which the model
    does not follow). *)
Definition verify_slack_connection (result : connections) (slack : nat)
  : M network unit :=
  net <- get ;;
  disconnected <-
    (if isin slack (disconnected_gens result) then ret true
     else
       match find (labelled slack) (net_gen net) with
       | Some g => ret (isin (gen_bus g) (disconnected_buses_set result))
       | None => raise KeyError
       end) ;;
  if (disconnected : bool) then
    modify (fun n =>
      set_net_gen
        (update_where (labelled slack) (set_gen_slack false) (net_gen n))
        n) ;;;
    net' <- get ;;
    match available_gens result (net_gen net') with
    | [] => ret tt
    | _ :: _ =>
        match idxmax (p_mw_cells (available_gens result (net_gen net'))) with
        | Some new_slack_index =>
            modify (fun n =>
              set_net_gen
                (update_where (labelled new_slack_index)
                   (set_gen_slack true) (net_gen n))
                n)
        | None => raise ValueError
        end
    end
  else ret tt.

(** Section 5 and 5.1 of [main_program.py] (lines 279-299) on the tables
    they read. *)
Definition assign_and_verify_slack (net_line : list line)
  (net_trafo : list trafo) : M network unit :=
  assign_slack ;;;
  net <- get ;;
  let result :=
    check_connections (net_bus net) (net_load net) (net_gen net) net_line
      net_trafo in
  slack <- slack_gen_index ;;
  verify_slack_connection result slack.

(** ** The network filter: [filter_network_by_countries]
    ([scripts/_0_filter_network.py], lines 16-68) *)

Section Grid.
(** The cells of the column [coords] of [net.line_geodata], and the
    conversion the filter applies to them
    ([eval(x) if isinstance(x, str) else x]). *)
Variable coords : Type.
Variable convert_coords : coords -> coords.

Record line_geo : Type := mkLineGeo {
  lgeo_idx : nat;
  lgeo_coords : coords
}.

Record grid : Type := mkGrid {
  grid_bus : list bus;
  grid_line : list line;
  grid_trafo : list trafo;
  grid_bus_geodata : list bus_geo;
  grid_line_geodata : list line_geo
}.

Definition zone_isin (countries : list string) (b : bus) : bool :=
  str_in (bus_zone b) countries.

(** The argument [countries]: one country name or a list of them. *)
Inductive countries_arg : Type :=
| a_country (c : string)
| some_countries (cs : list string).

(** [if isinstance(countries, str): countries = [countries]]. *)
Definition as_list (countries : countries_arg) : list string :=
  match countries with
  | a_country c => [c]
  | some_countries cs => cs
  end.

Definition filter_network_by_countries (net : grid)
  (countries0 : countries_arg) : grid :=
  let countries := as_list countries0 in
  let filtered_buses := filter (zone_isin countries) (grid_bus net) in
  let filtered_bus_indices := map bus_idx filtered_buses in
  let filtered_lines :=
    filter
      (fun l => isin (line_from_bus l) filtered_bus_indices
                && isin (line_to_bus l) filtered_bus_indices)
      (grid_line net) in
  let filtered_trafos :=
    filter
      (fun t => isin (trafo_hv_bus t) filtered_bus_indices
                && isin (trafo_lv_bus t) filtered_bus_indices)
      (grid_trafo net) in
  let filtered_bus_geodata :=
    filter (fun g => isin (geo_idx g) filtered_bus_indices)
      (grid_bus_geodata net) in
  let filtered_line_geodata :=
    filter (fun g => isin (lgeo_idx g) (map line_idx filtered_lines))
      (grid_line_geodata net) in
  mkGrid filtered_buses filtered_lines filtered_trafos filtered_bus_geodata
    (map (fun g => mkLineGeo (lgeo_idx g) (convert_coords (lgeo_coords g)))
       filtered_line_geodata).

(** ** Lines without a bus ([main_program.py], section 6.1, lines
    319-347) *)

(** Both ends of the line are buses of the table. *)
Definition valid_line (buses : list bus) (l : line) : bool :=
  isin (line_from_bus l) (map bus_idx buses)
  && isin (line_to_bus l) (map bus_idx buses).

(** [reset_index(drop=True)]: the rows are relabelled 0, 1, 2, ... *)
Definition reset_line_index (lines : list line) : list line :=
  map (fun il => set_line_idx (fst il) (snd il))
    (combine (seq 0 (List.length lines)) lines).

Definition reset_line_geo_index (rows : list line_geo) : list line_geo :=
  map (fun il => mkLineGeo (fst il) (lgeo_coords (snd il)))
    (combine (seq 0 (List.length rows)) rows).

Definition drop_invalid_lines : M grid unit :=
  net <- get ;;
  let invalid_lines :=
    filter (fun l => negb (isin (line_from_bus l) (map bus_idx (grid_bus net)))
                     || negb (isin (line_to_bus l)
                                (map bus_idx (grid_bus net))))
      (grid_line net) in
  match invalid_lines with
  | [] => ret tt
  | _ :: _ =>
      let valid_lines := filter (valid_line (grid_bus net)) (grid_line net) in
      geodata <-
        loc lgeo_idx (grid_line_geodata net) (map line_idx valid_lines) ;;
      modify (fun n =>
        mkGrid (grid_bus n) (reset_line_index valid_lines) (grid_trafo n)
          (grid_bus_geodata n) (reset_line_geo_index geodata))
  end.

(** ** [adjust_hvdc_link_capacity]
    ([scripts/_7_time_series_and_pf_calculations.py], lines 64-91) *)

(** [name.str.startswith("HVDC Link", na=False)]. *)
Definition hvdc_link (l : line) : bool :=
  match line_name l with
  | Some name => String.prefix "HVDC Link" name
  | None => false
  end.

(** The local [increase_factor] is bound only from 500 buses on, and read
    only from 500 buses on. *)
Definition adjust_hvdc_link_capacity (network : grid) : grid :=
  let num_buses := List.length (grid_bus network) in
  let increase_factor :=
    if (1000 <=? num_buses)%nat then Some 5
    else if (500 <=? num_buses)%nat then Some 2.5
    else None in
  if (500 <=? num_buses)%nat then
    match increase_factor with
    | Some f =>
        let hvdc_lines := filter hvdc_link (grid_line network) in
        mkGrid (grid_bus network)
          (update_where
             (fun l => isin (line_idx l) (map line_idx hvdc_lines))
             (fun l => set_line_max_i_ka (fmul (line_max_i_ka l) (Some f)) l)
             (grid_line network))
          (grid_trafo network) (grid_bus_geodata network)
          (grid_line_geodata network)
    | None => network
    end
  else network.
End Grid.

Arguments mkLineGeo {coords}.
Arguments lgeo_idx {coords}.
Arguments lgeo_coords {coords}.
Arguments mkGrid {coords}.
Arguments grid_bus {coords}.
Arguments grid_line {coords}.
Arguments grid_trafo {coords}.
Arguments grid_bus_geodata {coords}.
Arguments grid_line_geodata {coords}.
Arguments filter_network_by_countries {coords}.
Arguments reset_line_geo_index {coords}.
Arguments drop_invalid_lines {coords}.
Arguments adjust_hvdc_link_capacity {coords}.

(** *** Relations used to state the properties of the slack assignment *)

(** [g'] is the row [g] up to the column [slack]. *)
Definition same_but_slack (g g' : gen) : Prop :=
  set_gen_slack (gen_slack g) g' = g.

(** The table [gens] with the column [slack] rewritten by [s]. *)
Definition with_slack (s : gen -> bool) (gens : list gen) : list gen :=
  map (fun g => set_gen_slack (s g) g) gens.

(** A line or a transformer ends at the bus of the generator. *)
Definition on_connected_bus (net_line : list line) (net_trafo : list trafo)
  (g : gen) : bool :=
  isin (gen_bus g) (connected_buses_set net_line net_trafo).

(** No generator of the network sits on a bus of the zone [zone]. *)
Definition no_generator_in_zone (n : network) (zone : string) : Prop :=
  forallb
    (fun g =>
       match zone_of_bus (net_bus n) (gen_bus g) with
       | Some z => negb (String.eqb z zone)
       | None => true
       end)
    (net_gen n) = true.

(** ** Country codes ([scripts/__prompt_for_countries.py])

    The program names a country in three ways: by its full name, by the
    code of the NUTS regions ("EL", "UK") and by its ISO code ("GR",
    "GB"). *)

(** The list [eu_countries] (lines 10-47). *)
Definition eu_countries : list string :=
  ["Albania"; "Austria"; "Belgium"; "Bosnia and Herzegovina"; "Bulgaria";
   "Croatia"; "Czech Republic"; "Denmark"; "Estonia"; "Finland"; "France";
   "Germany"; "Greece"; "Hungary"; "Ireland"; "Italy"; "Latvia";
   "Lithuania"; "Luxembourg"; "Montenegro"; "Netherlands";
   "North Macedonia"; "Norway"; "Poland"; "Portugal"; "Romania"; "Serbia";
   "Slovakia"; "Slovenia"; "Spain"; "Sweden"; "Switzerland"; "Ukraine";
   "United Kingdom"; "Kosovo"; "Moldova"].

(** The dicts of [get_country_code] (lines 54-93). *)
Definition country_codes : dict string :=
  [("Austria", "AT"); ("Albania", "AL"); ("Belgium", "BE");
   ("Bosnia and Herzegovina", "BA"); ("Bulgaria", "BG");
   ("Switzerland", "CH"); ("Czech Republic", "CZ"); ("Germany", "DE");
   ("Denmark", "DK"); ("Estonia", "EE"); ("Spain", "ES"); ("Finland", "FI");
   ("France", "FR"); ("Greece", "EL"); ("Croatia", "HR"); ("Hungary", "HU");
   ("Ireland", "IE"); ("Italy", "IT"); ("Lithuania", "LT");
   ("Luxembourg", "LU"); ("Latvia", "LV"); ("Montenegro", "ME");
   ("Netherlands", "NL"); ("Norway", "NO"); ("North Macedonia", "MK");
   ("Poland", "PL"); ("Portugal", "PT"); ("Romania", "RO"); ("Serbia", "RS");
   ("Sweden", "SE"); ("Slovenia", "SI"); ("Slovakia", "SK");
   ("Ukraine", "UA"); ("United Kingdom", "UK"); ("Kosovo", "XK");
   ("Moldova", "MD")].

Definition iso_country_codes : dict string :=
  [("Greece", "GR"); ("United Kingdom", "GB")].

(** [{v: iso_country_codes[k] for k, v in country_codes.items()
      if k in iso_country_codes}]. *)
Definition reverse_lookup : dict string :=
  fold_left
    (fun d kv =>
       match dict_get (fst kv) iso_country_codes with
       | Some iso_code => dict_set (snd kv) iso_code d
       | None => d
       end)
    country_codes [].

(** [dict.get(key, default)]. *)
Definition dict_get_default {V} (key : string) (default : V) (d : dict V)
  : V :=
  match dict_get key d with Some v => v | None => default end.

(** The inner function [get_code] (lines 102-109). *)
Definition get_code (iso : bool) (name : string) : string :=
  match dict_get name country_codes with
  | Some code =>
      if iso then dict_get_default name code iso_country_codes else code
  | None => dict_get_default name name reverse_lookup
  end.

(** The argument of [get_country_code]: one name or a list of names. *)
Inductive names_arg : Type :=
| one_name (name : string)
| name_list (names : list string).

Definition get_country_code (country_name : names_arg) (iso : bool)
  : names_arg :=
  match country_name with
  | name_list names => name_list (map (get_code iso) names)
  | one_name name => one_name (get_code iso name)
  end.

(** [transform_iso_code] (lines 117-122). *)
Definition transform_iso_code (iso_code : string) : string :=
  dict_get_default iso_code iso_code [("GB", "UK"); ("GR", "EL")].

(** *** The codes [main_program.py] derives from a country (lines 45-47,
    137, 214 and 268)

    [prompt_for_valid_countries] returns, for a country entered by its full
    name, [get_country_code(name, False)]; the program turns it into the
    ISO code, by which buses, plants and loads are zoned, and back into the
    code by which the regions are selected. *)
Definition chosen_code (name : string) : string := get_code false name.

Definition zone_code (name : string) : string :=
  get_code true (chosen_code name).

Definition region_code (name : string) : string :=
  transform_iso_code (zone_code name).

(** ** Demand shares: [distribute_load_to_nuts]
    ([scripts/_3_electricity_demand.py], lines 55-99) *)

(** A row of [regions], as far as the function reads and writes it. *)
Record nuts_region : Type := mkNuts {
  nuts_id : string;
  nuts_country : string;
  nuts_gdp : float;
  nuts_pop : float;
  nuts_load_factor : float;
  nuts_load : float
}.

Definition set_nuts_load_factor (v : float) (r : nuts_region) : nuts_region :=
  mkNuts (nuts_id r) (nuts_country r) (nuts_gdp r) (nuts_pop r) v
    (nuts_load r).

Definition set_nuts_load (v : float) (r : nuts_region) : nuts_region :=
  mkNuts (nuts_id r) (nuts_country r) (nuts_gdp r) (nuts_pop r)
    (nuts_load_factor r) v.

(** The mask [regions["country"] == country]. *)
Definition of_country (country : string) (r : nuts_region) : bool :=
  String.eqb (nuts_country r) country.

Definition total_gdp (regions : list nuts_region) (country : string) : Q :=
  fsum (map nuts_gdp (filter (of_country country) regions)).

Definition total_pop (regions : list nuts_region) (country : string) : Q :=
  fsum (map nuts_pop (filter (of_country country) regions)).

(** One turn of the first loop (lines 77-86); [key_gdp] and [key_pop] are
    [distribution_key["gdp"]] and [distribution_key["pop"]]. *)
Definition load_factor_of_country (key_gdp key_pop : Q)
  (regions : list nuts_region) (country : string) : list nuts_region :=
  if Qltb 0 (total_gdp regions country) && Qltb 0 (total_pop regions country)
  then
    update_where (of_country country)
      (fun r =>
         set_nuts_load_factor
           (fadd
              (fmul (Some key_gdp)
                 (fdiv (nuts_gdp r) (Some (total_gdp regions country))))
              (fmul (Some key_pop)
                 (fdiv (nuts_pop r) (Some (total_pop regions country)))))
           r)
      regions
  else regions.

(** One turn of the second loop (lines 89-97) for a column of [load_df]. *)
Definition load_of_country (regions : list nuts_region)
  (column : string * list float) : list nuts_region :=
  let country := fst column in
  if str_in country (unique (map nuts_country regions)) then
    let total_load := fsum (snd column) in
    if Qltb 0 total_load then
      update_where (of_country country)
        (fun r =>
           set_nuts_load (fmul (nuts_load_factor r) (Some total_load)) r)
        regions
    else regions
  else regions.

Definition distribute_load_to_nuts (load_df : list (string * list float))
  (regions : list nuts_region) (key_gdp key_pop : Q) : list nuts_region :=
  let regions0 :=
    map (fun r => set_nuts_load (Some 0) (set_nuts_load_factor (Some 0) r))
      regions in
  let regions1 :=
    fold_left (load_factor_of_country key_gdp key_pop)
      (unique (map nuts_country regions0)) regions0 in
  fold_left load_of_country load_df regions1.

(** Every region of the country has a GDP and a population. *)
Definition country_has_data (regions : list nuts_region) (country : string)
  : Prop :=
  forallb
    (fun r =>
       implb (of_country country r)
         (negb (is_none (nuts_gdp r)) && negb (is_none (nuts_pop r))))
    regions = true.

(** ** Hydro plants: [calculate_hydro_marginal_cost] and
    [dynamic_operating_cost_and_time]
    ([scripts/_3_3_marginal_costs.py], lines 195-292), and the two calls of
    [process_powerplants_data] (lines 439-474) *)

(** [dynamic_operating_cost_and_time(capacity_mw, is_phs)]: the pair
    (operating cost, operating time). *)
Definition dynamic_operating_cost_and_time (capacity_mw : Q) (is_phs : bool)
  : Q * Q :=
  let base_cost_per_mw_small := 52000 in
  let base_cost_per_mw_large := 45000 in
  let base_hours_per_year := if is_phs then 4000 else 5000 in
  let base_cost_per_mw :=
    if Qle_bool capacity_mw 20 then base_cost_per_mw_small
    else base_cost_per_mw_large in
  (base_cost_per_mw * capacity_mw, base_hours_per_year).

(** The result of a division: a value, or [undefined] for a division by
    zero ([ZeroDivisionError] on Python floats, infinity or NaN on the
    cells of a DataFrame row). *)
Inductive arith_result : Type :=
| value (v : Q)
| undefined.

Definition divide (a b : Q) : arith_result :=
  if Qeq_bool b 0 then undefined else value (a / b).

(** [calculate_hydro_marginal_cost]; [pumping_cost] is [None] for
    conventional hydro.  Both branches compute the same energy output. *)
Definition calculate_hydro_marginal_cost (capacity_mw efficiency
  investment_cost lifetime_years hours_per_year annual_operating_cost : Q)
  (pumping_cost : option Q) : arith_result :=
  if Qeq_bool capacity_mw 0 then value 0
  else
    let effective_energy_output_mwh :=
      capacity_mw * efficiency * hours_per_year in
    match divide investment_cost lifetime_years with
    | undefined => undefined
    | value annual_investment =>
        let total_annual_cost :=
          match pumping_cost with
          | Some pc =>
              annual_investment + annual_operating_cost
              + pc * capacity_mw * hours_per_year
          | None => annual_investment + annual_operating_cost
          end in
        divide total_annual_cost effective_energy_output_mwh
    end.

(** The columns of a plant row the two calls read, for a row whose four
    cells hold numbers. *)
Record plant_costs : Type := mkPlantCosts {
  pc_capacity : Q;
  pc_efficiency_r : Q;
  pc_capital_cost : Q;
  pc_lifetime : Q
}.

(** The call for the fuel types "hydro" and "ror" (lines 439-455). *)
Definition hydro_marginal_cost (row : plant_costs) : arith_result :=
  calculate_hydro_marginal_cost (pc_capacity row) (pc_efficiency_r row)
    (pc_capital_cost row) (pc_lifetime row)
    (snd (dynamic_operating_cost_and_time (pc_capacity row) false))
    (fst (dynamic_operating_cost_and_time (pc_capacity row) false))
    None.

(** The call for the fuel type "PHS" (lines 457-474); [is_phs] is not
    passed. *)
Definition phs_marginal_cost (row : plant_costs) : arith_result :=
  calculate_hydro_marginal_cost (pc_capacity row) (pc_efficiency_r row)
    (pc_capital_cost row) (pc_lifetime row)
    (snd (dynamic_operating_cost_and_time (pc_capacity row) false))
    (fst (dynamic_operating_cost_and_time (pc_capacity row) false))
    (Some 50).

(** ** The result of [distribute_load_to_nuts], row by row *)

(** The share [distribute_load_to_nuts] gives a region of a country with
    the totals [tg] and [tp]. *)
Definition share (key_gdp key_pop tg tp : Q) (r : nuts_region) : float :=
  fadd (fmul (Some key_gdp) (fdiv (nuts_gdp r) (Some tg)))
    (fmul (Some key_pop) (fdiv (nuts_pop r) (Some tp))).

Definition positive_totals (regions : list nuts_region) (country : string)
  : bool :=
  Qltb 0 (total_gdp regions country) && Qltb 0 (total_pop regions country).

(** The load factor a region holds after the loop over the countries
    [cs], from the load factor [v] it held before; the totals are those of
    the table [regions]. *)
Definition factor_after (key_gdp key_pop : Q) (regions : list nuts_region)
  (cs : list string) (r : nuts_region) (v : float) : float :=
  fold_left
    (fun v country =>
       if of_country country r && positive_totals regions country
       then share key_gdp key_pop (total_gdp regions country)
              (total_pop regions country) r
       else v)
    cs v.

(** The second loop, row by row. *)
Definition load_after (load_df : list (string * list float))
  (r : nuts_region) (v : float) : float :=
  fold_left
    (fun v column =>
       if of_country (fst column) r && Qltb 0 (fsum (snd column))
       then fmul (nuts_load_factor r) (Some (fsum (snd column)))
       else v)
    load_df v.

(** The share of a region in the result. *)
Definition load_factor_of (key_gdp key_pop : Q) (regions : list nuts_region)
  (r : nuts_region) : float :=
  if positive_totals regions (nuts_country r)
  then share key_gdp key_pop (total_gdp regions (nuts_country r))
         (total_pop regions (nuts_country r)) r
  else Some 0.

(** [r'] is the row [r] up to the columns [load_factor] and [load]. *)
Definition same_region (r r' : nuts_region) : Prop :=
  set_nuts_load (nuts_load r) (set_nuts_load_factor (nuts_load_factor r) r')
  = r.

(** ** The relaxations of the fallback protocol, row by row *)

(** [g'] is the row [g] after a relaxation over the rows of [mask]: only
    the two limits are written; a row of the mask may be dispatched between
    0 and its present dispatch, any other row is as it was. *)
Definition relaxed_unit (mask : gen -> bool) (g g' : gen) : Prop :=
  set_gen_min_p_mw (gen_min_p_mw g) (set_gen_max_p_mw (gen_max_p_mw g) g')
  = g
  /\ (mask g = true ->
      gen_min_p_mw g' = Some 0 /\ gen_max_p_mw g' = gen_p_mw g)
  /\ (mask g = false -> g' = g).

(** ** Concrete networks used in the examples below *)

(** A generator row as [pp.create_gen] leaves it for a wind unit of the
    given technology: dispatched at nameplate, limits 0 to nameplate, no
    normalised share and no country yet. *)
Definition wind_unit (idx bus : nat) (tech : string) (capacity : Q) : gen :=
  mkGen idx bus "unit" (Some capacity) 1 false 1 true (Some 0)
    (Some capacity) 0 "wind" tech capacity None None true.

(** Two countries, one onshore wind unit each: 400 MW in AA, 100 MW in BB. *)
Definition two_country_net : network :=
  mkNetwork
    [mkBus 0 "way/10" "AA" 220 true; mkBus 1 "way/11" "BB" 220 true]
    [mkBusGeo 0 0 0; mkBusGeo 1 10 0]
    [wind_unit 0 0 "onwind" 400; wind_unit 1 1 "onwind" 100]
    [].

Definition two_country_regions : list region :=
  [mkRegion "AA001" "AA" 1; mkRegion "BB001" "BB" 1].

(** The generator table after the first, forced run of the normaliser. *)
Definition two_country_gens : list gen :=
  net_gen (w_net (snd (create_values_per_country two_country_regions true
                         (mkWorld two_country_net None)))).

(** One country, two onshore wind units whose shares (1/2 each) no longer
    match their nameplates (100 MW and 300 MW). *)
Definition stale_share_gens : list gen :=
  [set_gen_normed_p_mw (Some (1 # 2)) (wind_unit 0 0 "onwind" 100);
   set_gen_normed_p_mw (Some (1 # 2)) (wind_unit 1 0 "onwind" 300)].

(** One country with an onshore and an offshore wind unit, both of type
    "wind", and a solar unit of capacity 0. *)
Definition mixed_wind_net : network :=
  mkNetwork
    [mkBus 0 "way/10" "AA" 220 true]
    [mkBusGeo 0 0 0]
    [wind_unit 0 0 "onwind" 100; wind_unit 1 0 "offwind" 300;
     mkGen 2 0 "pv" (Some 0) 1 false 1 true (Some 0) (Some 0) 0
       "solar" "solar" 0 None None true]
    [].

Definition mixed_wind_regions : list region := [mkRegion "AA001" "AA" 1].

Definition mixed_wind_gens : list gen :=
  net_gen (w_net (snd (create_values_per_country mixed_wind_regions true
                         (mkWorld mixed_wind_net None)))).

(** Two onshore wind units of 100 MW in one country, and the same table
    after the second unit's nameplate has been raised to 300 MW. *)
Definition equal_units_net : network :=
  mkNetwork
    [mkBus 0 "way/10" "AA" 220 true]
    [mkBusGeo 0 0 0]
    [wind_unit 0 0 "onwind" 100; wind_unit 1 0 "onwind" 100]
    [].

Definition raise_second_nameplate (w : world) : world :=
  set_w_net
    (set_net_gen
       (match net_gen (w_net w) with
        | [a; b] =>
            [a; mkGen (gen_idx b) (gen_bus b) (gen_name b) (gen_p_mw b)
                  (gen_vm_pu b) (gen_slack b) (gen_scaling b)
                  (gen_controllable b) (gen_min_p_mw b) (gen_max_p_mw b)
                  (gen_cost_per_mw b) (gen_type b) (gen_tech b) 300
                  (gen_normed_p_mw b) (gen_country b) (gen_in_service b)]
        | l => l
        end)
       (w_net w))
    w.

(** *** Assets and buses for the resolver

    Geometries of the examples: a point, or an axis-parallel rectangle
    given by two corners; a point is within a rectangle when it lies
    strictly inside, and within a point geometry never. *)
Inductive ex_geometry : Type :=
| ex_point (x y : Q)
| ex_rectangle (xmin ymin xmax ymax : Q).

Definition ex_within (p : Q * Q) (g : ex_geometry) : bool :=
  match g with
  | ex_point _ _ => false
  | ex_rectangle xmin ymin xmax ymax =>
      Qltb xmin (fst p) && Qltb (fst p) xmax
      && Qltb ymin (snd p) && Qltb (snd p) ymax
  end.

Definition ex_centroid (g : ex_geometry) : Q * Q :=
  match g with
  | ex_point x y => (x, y)
  | ex_rectangle xmin ymin xmax ymax =>
      ((xmin + xmax) / 2, (ymin + ymax) / 2)
  end.

(** Zone AA has three real substations (two of them inside the square
    0..10 x 0..10) and one virtual bus; zone BB has only a virtual bus. *)
Definition resolver_net : network :=
  mkNetwork
    [mkBus 0 "way/10" "AA" 220 true;
     mkBus 1 "relation/11" "AA" 380 true;
     mkBus 2 "way/12" "AA" 220 true;
     mkBus 3 "virtual_3" "AA" 220 true;
     mkBus 4 "virtual_4" "BB" 220 true]
    [mkBusGeo 0 2 2; mkBusGeo 1 8 8; mkBusGeo 2 20 20; mkBusGeo 3 5 5;
     mkBusGeo 4 50 50]
    [] [].

Definition resolver_start : rstate := mkRstate resolver_net [].

(** A coal plant in zone AA whose capacity is 0. *)
Definition idle_coal_plant : element ex_geometry :=
  mkElement 7 (ex_point 3 3) "AA" "plant7" "" 0 "coal" "Steam"
    (Some 30) 0.

(** A coal plant of 100 MW in zone BB, where no real substation exists. *)
Definition stranded_plant : element ex_geometry :=
  mkElement 8 (ex_point 49 49) "BB" "plant8" "" 100 "coal"
    "Steam" (Some 30) 0.

(** A load region of zone AA covering the square 0..10 x 0..10, with
    demand 9. *)
Definition square_region : element ex_geometry :=
  mkElement 0 (ex_rectangle 0 0 10 10) "AA" "" "AA001" 0 "" ""
    None 9.

(** A load region of zone AA that contains no bus, with demand 9. *)
Definition empty_region : element ex_geometry :=
  mkElement 1 (ex_rectangle 12 12 18 18) "AA" "" "AA002" 0 "" ""
    None 9.

(** *** A run of the driver

    One country (DE), one bus, a coal plant of 100 MW, one load for the
    region DE001, and a time series of three steps that has only the load
    column. *)
Definition coal_unit : gen :=
  mkGen 0 0 "coal0" (Some 100) 1 false 1 true (Some 40) (Some 100) 30
    "coal" "Steam" 100 None None true.

Definition region_load : load :=
  mkLoad 0 (Some 1) "DE001" false None None None true.

Definition coal_net : network :=
  mkNetwork [mkBus 0 "way/1" "DE" 220 true] [mkBusGeo 0 0 0]
    [coal_unit] [region_load].

(** The same network with an offshore wind unit of 100 MW added. *)
Definition offshore_net : network :=
  mkNetwork [mkBus 0 "way/1" "DE" 220 true] [mkBusGeo 0 0 0]
    [coal_unit; wind_unit 1 0 "offwind" 100] [region_load].

Definition de_regions : list region := [mkRegion "DE001" "DE" 1].

Definition load_only_series : time_series :=
  mkTimeSeries [0; 1; 2]%nat
    [("DE_load_actual", [Some 50; Some 60; Some 70])].

Definition no_results : res_summary := mkRes 0 0 None None.

Definition start_of (n : network) : driver :=
  mkDriver (mkWorld n None) no_results.

(** A solver that always converges, with the most loaded line at 50 %. *)
Definition converging_solver (call : solver_call) (n : network)
  : exn + res_summary :=
  inr (mkRes (fsum (map load_p_mw (net_load n)))
         (fsum (map gen_p_mw (net_gen n))) (Some 50) (Some 0%nat)).

(** A solver that never converges. *)
Definition failing_solver (call : solver_call) (n : network)
  : exn + res_summary :=
  inl NotConverged.

(** *** Solar units

    A photovoltaic park of 100 MW dispatched at 40 MW, whose technology is
    "PV" in the plant data, and the coal unit. *)
Definition solar_park_gens : list gen :=
  [mkGen 0 0 "pv0" (Some 40) 1 false 1 true (Some 0) (Some 100) 0
     "solar" "PV" 100 (Some 1) None true;
   coal_unit].

(** A coal plant of 100 MW in zone AA, next to the virtual bus 3. *)
Definition central_plant : element ex_geometry :=
  mkElement 9 (ex_point 5 6) "AA" "plant9" "" 100 "coal" "Steam"
    (Some 30) 0.

(** *** Further runs of the driver *)

(** A time series without time steps. *)
Definition empty_series : time_series := mkTimeSeries [] [].

(** The load table [create_gen_or_load] leaves for [square_region] with
    even distribution, the matching region row and a load series for zone
    AA. *)
Definition square_loads_world : world :=
  mkWorld
    (rs_net (snd (create_gen_or_load ex_within ex_centroid [square_region]
                    "load" false true resolver_start)))
    None.

Definition aa_region : region := mkRegion "AA001" "AA" 9.

Definition aa_series : time_series :=
  mkTimeSeries [0; 1]%nat [("AA_load_actual", [Some 50; Some 60])].

(** *** The slack generator

    Three buses; one line from bus 0 to bus 1, nothing at bus 2.  The
    largest generator (300 MW, label 10) is on bus 2, the next (200 MW,
    label 11) on bus 0, the smallest (100 MW, label 12) on bus 1. *)
Definition plain_unit (idx bus : nat) (capacity : Q) : gen :=
  mkGen idx bus "unit" (Some capacity) 1 false 1 true (Some 0)
    (Some capacity) 0 "coal" "Steam" capacity None None true.

Definition slack_net : network :=
  mkNetwork
    [mkBus 0 "way/0" "DE" 220 true; mkBus 1 "way/1" "DE" 220 true;
     mkBus 2 "way/2" "DE" 220 true]
    [mkBusGeo 0 0 0; mkBusGeo 1 1 0; mkBusGeo 2 2 0]
    [plain_unit 10 2 300; plain_unit 11 0 200; plain_unit 12 1 100]
    [].

Definition slack_lines : list line := [mkLine 0 (Some "line 0") 0 1 (Some 1)].

(** *** Grids

    Two buses in DE and one in FR, a line inside DE, a link across the
    border and a transformer inside DE. *)
Definition border_grid : grid string :=
  mkGrid
    [mkBus 0 "way/0" "DE" 380 true; mkBus 1 "way/1" "DE" 220 true;
     mkBus 2 "way/2" "FR" 380 true]
    [mkLine 0 (Some "line 0") 0 1 (Some 1);
     mkLine 1 (Some "HVDC Link 1") 1 2 (Some 2)]
    [mkTrafo 0 0 1]
    [mkBusGeo 0 0 0; mkBusGeo 1 1 0; mkBusGeo 2 2 0]
    [mkLineGeo 0 "[(0, 0), (1, 0)]"; mkLineGeo 1 "[(1, 0), (2, 0)]"].

(** The same grid without the bus in FR: the link has lost an end. *)
Definition cut_grid : grid string :=
  mkGrid
    [mkBus 0 "way/0" "DE" 380 true; mkBus 1 "way/1" "DE" 220 true]
    (grid_line border_grid) (grid_trafo border_grid)
    [mkBusGeo 0 0 0; mkBusGeo 1 1 0]
    (grid_line_geodata border_grid).

(** A grid of 500 buses with the lines of [border_grid], one of them
    without a name. *)
Definition large_grid : grid string :=
  mkGrid
    (map (fun i => mkBus i "way" "DE" 380 true) (seq 0 500))
    (grid_line border_grid ++ [mkLine 2 None 3 4 (Some 3)])
    [] [] [].

(** *** Codes of a country

    A network of one bus in zone "GR" with an onshore wind unit, and the
    region row of Greece, whose country code is "EL". *)
Definition greek_net : network :=
  mkNetwork [mkBus 0 "way/1" "GR" 220 true] [mkBusGeo 0 0 0]
    [wind_unit 0 0 "onwind" 100] [].

Definition greek_regions : list region := [mkRegion "EL301" "EL" 1].

(** *** Demand shares

    Two regions of DE and a region of FR whose GDP is missing; country
    loads of 300 (DE) and 50 (FR). *)
Definition demand_regions : list nuts_region :=
  [mkNuts "DE1" "DE" (Some 30) (Some 10) None None;
   mkNuts "DE2" "DE" (Some 10) (Some 30) None None;
   mkNuts "FR1" "FR" None (Some 5) None None].

Definition demand_columns : list (string * list float) :=
  [("DE", [Some 100; Some 200]); ("FR", [Some 50])].

(** *** Hydro plants

    A plant of 10 MW with efficiency 0.9, capital cost 1000000 and a
    lifetime of 50 years. *)
Definition small_hydro : plant_costs := mkPlantCosts 10 0.9 1000000 50.

(** * Properties *)

(** ** Arithmetic on cells and sums *)

Lemma Qltb_true (x y : Q) : Qltb x y = true <-> x < y.
Proof.
  unfold Qltb. rewrite negb_true_iff.
  split; intro H.
  - apply Qnot_le_lt. intro L. apply Qle_bool_iff in L. congruence.
  - destruct (Qle_bool y x) eqn:E; [|reflexivity].
    apply Qle_bool_iff in E. exfalso. eapply Qlt_not_le; eauto.
Qed.

Lemma Qltb_false (x y : Q) : Qltb x y = false <-> y <= x.
Proof.
  unfold Qltb. rewrite negb_false_iff. apply Qle_bool_iff.
Qed.

Lemma Qsum_app (l1 l2 : list Q) : Qsum (l1 ++ l2) == Qsum l1 + Qsum l2.
Proof.
  induction l1 as [|x l1 IH]; simpl.
  - ring.
  - rewrite IH. ring.
Qed.

Lemma Qsum_nonneg (l : list Q) : Forall (fun x => 0 <= x) l -> 0 <= Qsum l.
Proof.
  induction 1 as [|x l Hx _ IH]; simpl.
  - apply Qle_refl.
  - lra.
Qed.

Lemma Qsum_repeat (x : Q) (n : nat) :
  Qsum (repeat x n) == inject_Z (Z.of_nat n) * x.
Proof.
  induction n as [|n IH].
  - simpl. ring.
  - cbn [repeat Qsum]. rewrite IH, Nat2Z.inj_succ.
    unfold Z.succ. rewrite inject_Z_plus. ring.
Qed.

Lemma py_min_Qmin (a b : Q) :
  exists c, py_min (Some a) (Some b) = Some c /\ c == Qmin a b.
Proof.
  unfold py_min, flt.
  destruct (Qltb b a) eqn:E.
  - exists b. split; [reflexivity|].
    apply Qltb_true in E. symmetry. apply Q.min_r. lra.
  - exists a. split; [reflexivity|].
    apply Qltb_false in E. symmetry. apply Q.min_l. exact E.
Qed.

(** ** Column writes keep the other columns *)

Lemma in_tech_set_p_mw r v g : in_tech r (set_gen_p_mw v g) = in_tech r g.
Proof. reflexivity. Qed.

Lemma update_where_length {A} (mask : A -> bool) f (l : list A) :
  List.length (update_where mask f l) = List.length l.
Proof. unfold update_where. apply length_map. Qed.

Lemma freeze_limits_p_mw r (l : list gen) :
  map gen_p_mw (filter (in_tech r) (freeze_limits r l))
  = map gen_p_mw (filter (in_tech r) l).
Proof.
  unfold freeze_limits, update_where.
  induction l as [|g l IH]; [reflexivity|].
  cbn [map filter].
  destruct (in_tech r g) eqn:E.
  - change (in_tech r (set_gen_min_p_mw (gen_p_mw g) g)) with (in_tech r g).
    rewrite E.
    change (in_tech r (set_gen_max_p_mw
                         (gen_p_mw (set_gen_min_p_mw (gen_p_mw g) g))
                         (set_gen_min_p_mw (gen_p_mw g) g)))
      with (in_tech r g).
    rewrite E. cbn [map]. f_equal. exact IH.
  - rewrite E, E. exact IH.
Qed.

Lemma freeze_limits_row r (l : list gen) g' :
  In g' (freeze_limits r l) ->
  exists g, In g l /\ gen_p_mw g' = gen_p_mw g
            /\ gen_p_mw_original g' = gen_p_mw_original g
            /\ gen_tech g' = gen_tech g.
Proof.
  unfold freeze_limits, update_where. rewrite map_map.
  intro H. apply in_map_iff in H. destruct H as [g [Hg Hin]].
  exists g. split; [exact Hin|].
  subst g'.
  destruct (in_tech r g) eqn:E.
  - change (in_tech r (set_gen_min_p_mw (gen_p_mw g) g)) with (in_tech r g).
    rewrite E. repeat split.
  - rewrite E. repeat split.
Qed.

(** ** C10: validation of the technology argument *)

Lemma str_in_In (x : string) (xs : list string) :
  str_in x xs = true <-> In x xs.
Proof.
  unfold str_in. rewrite existsb_exists. split.
  - intros [y [Hin Heq]]. apply String.eqb_eq in Heq. subst. exact Hin.
  - intro Hin. exists x. split; [exact Hin|apply String.eqb_refl].
Qed.

(** C10.  [allocate_renewable_generation] raises [ValueError] exactly when
    its technology argument is none of "Solar", "onwind", "offwind", "wind";
    whenever it raises, the exception is that [ValueError] and the network
    it leaves behind is the network it was given. *)
Theorem allocate_renewable_generation_value_error
  (country_generation : float) (renewable : string) (network : network) :
  (fst (allocate_renewable_generation country_generation renewable network)
     = inl ValueError
   <-> ~ In renewable ["Solar"; "onwind"; "offwind"; "wind"])
  /\ (forall e,
        fst (allocate_renewable_generation country_generation renewable
               network) = inl e ->
        e = ValueError
        /\ snd (allocate_renewable_generation country_generation renewable
                  network) = network).
Proof.
  unfold allocate_renewable_generation.
  change ["Solar"; "onwind"; "offwind"; "wind"] with accepted_renewables.
  destruct (str_in renewable accepted_renewables) eqn:E; cbn [negb].
  - apply str_in_In in E. split.
    + split; [discriminate|intro H; contradiction].
    + intros e H. discriminate.
  - assert (Hn : ~ In renewable accepted_renewables).
    { intro H. apply str_in_In in H. congruence. }
    split.
    + split; [intros _; exact Hn|reflexivity].
    + intros e H. cbn in H. injection H as <-. split; reflexivity.
Qed.

(** ** C1: clipping and redistribution *)

Lemma clipped_sum r cg l :
  shares_set r l ->
  fsum (map gen_p_mw (filter (in_tech r)
     (clip_to_nameplate r (assign_initial r (Some cg) l))))
  == cg * fsum (map gen_normed_p_mw (filter (in_tech r) l))
     - Qsum (excess_generation r (assign_initial r (Some cg) l)).
Proof.
  unfold shares_set, clip_to_nameplate, assign_initial, excess_generation, update_where.
  induction l as [|g l IH]; intro H.
  - cbn. ring.
  - cbn [forallb] in H. apply andb_true_iff in H. destruct H as [Hg Hl].
    specialize (IH Hl).
    cbn [map filter].
    destruct (in_tech r g) eqn:E.
    + rewrite !in_tech_set_p_mw, E. 
      cbn [implb] in Hg. destruct (gen_normed_p_mw g) as [n|] eqn:En; [|discriminate].
      cbn [map fsum Qsum filter]. rewrite !in_tech_set_p_mw, E.
      cbn [map fsum Qsum filter gen_p_mw set_gen_p_mw fmul fsub excess_of gen_p_mw_original].
      rewrite En. cbn [fsum].
      rewrite IH.
      destruct (Qltb 0 (n * cg - gen_p_mw_original g)); ring.
    + rewrite !E. exact IH.
Qed.

Lemma available_headroom g :
  available g = true ->
  exists p, gen_p_mw g = Some p /\ p < gen_p_mw_original g.
Proof.
  unfold available, flt. destruct (gen_p_mw g) as [p|]; [|discriminate].
  intro H. exists p. split; [reflexivity|]. apply Qltb_true. exact H.
Qed.

Lemma redistributed_sum r cg s l :
  shares_set r l ->
  no_outside_headroom r l ->
  fsum (map gen_p_mw (filter (in_tech r)
     (update_where available (redistribute_row s)
        (clip_to_nameplate r (assign_initial r (Some cg) l)))))
  == fsum (map gen_p_mw (filter (in_tech r)
        (clip_to_nameplate r (assign_initial r (Some cg) l))))
     + s * total_available_capacity
             (clip_to_nameplate r (assign_initial r (Some cg) l)).
Proof.
  unfold shares_set, no_outside_headroom, total_available_capacity,
    clip_to_nameplate, assign_initial, update_where.
  induction l as [|g l IH]; intros H Ho.
  - cbn. ring.
  - cbn [forallb] in H, Ho.
    apply andb_true_iff in H. destruct H as [Hg Hl].
    apply andb_true_iff in Ho. destruct Ho as [Hog Hol].
    specialize (IH Hl Hol).
    cbn [map filter].
    destruct (in_tech r g) eqn:E.
    + rewrite !in_tech_set_p_mw, E.
      cbn [implb] in Hg.
      destruct (gen_normed_p_mw g) as [n|] eqn:En; [|discriminate].
      set (g2 := set_gen_p_mw _ (set_gen_p_mw _ g)).
      destruct (available g2) eqn:Ea.
      * change (in_tech r (redistribute_row s g2)) with (in_tech r g2).
        assert (Et : in_tech r g2 = true) by exact E.
        rewrite Et. cbn [map fsum filter].
        destruct (available_headroom _ Ea) as [p [Hp Hlt]].
        change (gen_p_mw (redistribute_row s g2))
          with (fadd (gen_p_mw g2) (fmul (headroom g2) (Some s))).
        assert (Hh : headroom g2 = Some (gen_p_mw_original g2 - p)).
        { unfold headroom. rewrite Hp. reflexivity. }
        rewrite Hh, Hp. cbn [fmul fadd fsum]. rewrite IH. ring.
      * assert (Et : in_tech r g2 = true) by exact E.
        rewrite Et. cbn [map fsum]. 
        destruct (gen_p_mw g2); rewrite IH; ring.
    + rewrite !E. cbn [orb] in Hog. apply negb_true_iff in Hog.
      rewrite Hog, E. exact IH.
Qed.

Lemma excess_of_nonneg g : 0 <= excess_of g.
Proof.
  unfold excess_of.
  destruct (fsub (gen_p_mw g) (Some (gen_p_mw_original g))) as [d|];
    [|apply Qle_refl].
  destruct (Qltb 0 d) eqn:E; [|apply Qle_refl].
  apply Qltb_true in E. lra.
Qed.

Lemma total_excess_nonneg gens cg r : 0 <= total_excess gens cg r.
Proof.
  unfold total_excess, excess_generation. apply Qsum_nonneg.
  apply Forall_forall. intros x Hx. apply in_map_iff in Hx.
  destruct Hx as [g [<- _]]. apply excess_of_nonneg.
Qed.

Lemma clip_row_within v g :
  within_nameplate
    (set_gen_p_mw
       (fsub (gen_p_mw (set_gen_p_mw v g))
          (Some (excess_of (set_gen_p_mw v g))))
       (set_gen_p_mw v g)) = true.
Proof.
  unfold within_nameplate, excess_of.
  cbn [gen_p_mw gen_p_mw_original set_gen_p_mw].
  destruct v as [a|]; [|reflexivity].
  cbn [fsub flt].
  destruct (Qltb 0 (a - gen_p_mw_original g)) eqn:E;
    apply negb_true_iff, Qltb_false.
  - lra.
  - apply Qltb_false in E. lra.
Qed.

Lemma redistribute_row_within s g :
  s <= 1 -> available g = true -> within_nameplate (redistribute_row s g) = true.
Proof.
  intros Hs Ha. destruct (available_headroom _ Ha) as [p [Hp Hlt]].
  unfold within_nameplate, redistribute_row, headroom.
  cbn [gen_p_mw gen_p_mw_original set_gen_p_mw]. rewrite Hp.
  cbn [fsub fmul fadd flt]. apply negb_true_iff, Qltb_false.
  nra.
Qed.

Lemma clipped_gens_within gens cg r :
  all_within_nameplate gens ->
  all_within_nameplate (clipped_gens gens cg r).
Proof.
  unfold all_within_nameplate, clipped_gens, clip_to_nameplate,
    assign_initial, update_where.
  intro H. rewrite forallb_forall in *. intros g1 H1.
  rewrite map_map in H1. apply in_map_iff in H1. destruct H1 as [g [<- Hin]].
  destruct (in_tech r g) eqn:E.
  - rewrite in_tech_set_p_mw, E. apply clip_row_within.
  - rewrite E. apply H. exact Hin.
Qed.

Lemma redistribute_within E l :
  E <= total_available_capacity l ->
  all_within_nameplate l ->
  all_within_nameplate (redistribute E l).
Proof.
  unfold redistribute, all_within_nameplate. intros Hs H.
  destruct (filter available l) as [|x xs]; [exact H|].
  destruct (Qltb 0 (total_available_capacity l)) eqn:Ep; [|exact H].
  apply Qltb_true in Ep.
  rewrite forallb_forall in *. intros g1 H1.
  unfold update_where in H1. apply in_map_iff in H1.
  destruct H1 as [g [<- Hin]].
  destruct (available g) eqn:Ea; [|apply H; exact Hin].
  apply redistribute_row_within; [|exact Ea].
  apply Qle_shift_div_r; [exact Ep|]. lra.
Qed.

Lemma freeze_limits_within r l :
  all_within_nameplate l -> all_within_nameplate (freeze_limits r l).
Proof.
  unfold all_within_nameplate. intro H. rewrite forallb_forall in *.
  intros g' Hg'. destruct (freeze_limits_row _ _ _ Hg') as [g [Hin [Hp [Ho _]]]].
  unfold within_nameplate. rewrite Hp, Ho. apply (H g Hin).
Qed.




(** ** The capacity normaliser, row by row *)

Lemma set_gen_normed_same g : set_gen_normed_p_mw (gen_normed_p_mw g) g = g.
Proof. destruct g; reflexivity. Qed.

Lemma set_gen_country_same g : set_gen_country (gen_country g) g = g.
Proof. destruct g; reflexivity. Qed.

Lemma normalize_category_row country totals gens kv :
  normalize_category country totals gens kv
  = map (fun g =>
           if category_applies country totals kv g
           then set_gen_normed_p_mw (category_share totals kv g) g else g)
      gens.
Proof.
  unfold normalize_category, category_applies, update_where, category_share.
  destruct (Qltb 0 (totals_get (fst kv) totals)); cbn [andb].
  - reflexivity.
  - symmetry. apply map_id.
Qed.

Lemma fold_categories_row country totals cats : forall gens,
  fold_left (normalize_category country totals) cats gens
  = map (fun g =>
           set_gen_normed_p_mw
             (fold_left
                (fun v kv =>
                   if category_applies country totals kv g
                   then category_share totals kv g else v)
                cats (gen_normed_p_mw g)) g)
      gens.
Proof.
  induction cats as [|kv cats IH]; intro gens; cbn [fold_left].
  - rewrite <- (map_id gens) at 1. apply map_ext. intro g.
    symmetry. apply set_gen_normed_same.
  - rewrite IH, normalize_category_row, map_map. apply map_ext. intro g.
    destruct (category_applies country totals kv g) eqn:E.
    + reflexivity.
    + reflexivity.
Qed.

(** Rewriting the column [normed_p_mw] leaves every total as it is. *)
Lemma category_total_set_normed (f : gen -> float) gens country kv :
  category_total (map (fun g => set_gen_normed_p_mw (f g) g) gens) country kv
  = category_total gens country kv.
Proof.
  unfold category_total. f_equal.
  induction gens as [|g gens IH]; [reflexivity|].
  cbn [map filter].
  change (in_country country (set_gen_normed_p_mw (f g) g))
    with (in_country country g).
  destruct (in_country country g); [|exact IH].
  cbn [filter].
  change (in_category kv (set_gen_normed_p_mw (f g) g))
    with (in_category kv g).
  destruct (in_category kv g); [|exact IH].
  cbn [map]. f_equal. exact IH.
Qed.

Lemma compute_totals_set_normed (f : gen -> float) gens country :
  compute_totals (map (fun g => set_gen_normed_p_mw (f g) g) gens) country
  = compute_totals gens country.
Proof.
  unfold compute_totals. apply map_ext. intro kv.
  rewrite category_total_set_normed. reflexivity.
Qed.

Lemma fold_left_pointwise {A B} (f1 f2 : A -> B -> A) (l : list B) :
  (forall a b, f1 a b = f2 a b) ->
  forall a, fold_left f1 l a = fold_left f2 l a.
Proof.
  intro H. induction l as [|b l IH]; intro a; cbn [fold_left].
  - reflexivity.
  - rewrite H. apply IH.
Qed.

Lemma normalize_country_gens c0 w :
  net_gen (w_net (normalize_country c0 w))
  = map (fun g =>
           set_gen_normed_p_mw
             (row_share (uk_to_gb c0)
                (compute_totals (net_gen (w_net w)) (uk_to_gb c0)) g
                (gen_normed_p_mw g)) g)
      (net_gen (w_net w)).
Proof.
  unfold normalize_country. cbn [w_net net_gen set_net_gen].
  apply fold_categories_row.
Qed.

Lemma normalize_country_frame c0 w :
  net_bus (w_net (normalize_country c0 w)) = net_bus (w_net w)
  /\ net_bus_geodata (w_net (normalize_country c0 w))
     = net_bus_geodata (w_net w)
  /\ net_load (w_net (normalize_country c0 w)) = net_load (w_net w).
Proof. repeat split. Qed.

Lemma fold_countries_gens cs : forall w,
  net_gen (w_net (fold_left (fun acc c => normalize_country c acc) cs w))
  = map (fun g => set_gen_normed_p_mw (final_share cs (net_gen (w_net w)) g) g)
      (net_gen (w_net w)).
Proof.
  induction cs as [|c cs IH]; intro w; cbn [fold_left].
  - unfold final_share. cbn [fold_left].
    rewrite <- (map_id (net_gen (w_net w))) at 1. apply map_ext. intro g.
    symmetry. apply set_gen_normed_same.
  - rewrite IH, normalize_country_gens, map_map. apply map_ext. intro g.
    unfold final_share. cbn [fold_left].
    set (x := row_share _ _ g (gen_normed_p_mw g)).
    change (set_gen_normed_p_mw ?a (set_gen_normed_p_mw x g))
      with (set_gen_normed_p_mw a g).
    f_equal. change (gen_normed_p_mw (set_gen_normed_p_mw x g)) with x.
    apply fold_left_pointwise. intros v c'.
    rewrite compute_totals_set_normed. reflexivity.
Qed.

Lemma in_country_unique c1 c2 g :
  in_country c1 g = true -> in_country c2 g = true -> c1 = c2.
Proof.
  unfold in_country. destruct (gen_country g) as [c|]; [|discriminate].
  intros H1 H2. apply String.eqb_eq in H1, H2. congruence.
Qed.

Lemma row_share_other_country c T g v :
  in_country c g = false -> row_share c T g v = v.
Proof.
  intro H. unfold row_share, categories, category_applies.
  cbn [fold_left]. rewrite H, !andb_false_r. reflexivity.
Qed.

Lemma totals_get_compute gens c kv :
  In kv categories ->
  totals_get (fst kv) (compute_totals gens c) = category_total gens c kv.
Proof.
  unfold categories. cbn [In].
  intros [<-|[<-|[<-|[<-|[]]]]]; reflexivity.
Qed.

Lemma row_share_group c T g v kv :
  In kv categories ->
  in_country c g = true ->
  in_category kv g = true ->
  tech_keyed_elsewhere kv g = false ->
  0 < totals_get (fst kv) T ->
  row_share c T g v = category_share T kv g.
Proof.
  intros Hkv Hc Hcat Helse Hpos.
  apply Qltb_true in Hpos.
  unfold row_share, categories, category_applies. cbn [fold_left].
  rewrite Hc. cbn [andb].
  unfold categories in Hkv. cbn [In] in Hkv.
  unfold in_category, tech_keyed_elsewhere, str_in in *.
  cbn [fst snd gen_col existsb] in *.
  destruct Hkv as [<-|[<-|[<-|[<-|[]]]]];
    cbn [fst snd gen_col] in *; rewrite ?Hpos; cbn [andb].
  - apply orb_false_iff in Helse. destruct Helse as [H1 H2].
    apply orb_false_iff in H2. destruct H2 as [H2 _].
    rewrite H1, H2, !andb_false_r, Hcat.
    apply String.eqb_eq in Hcat. rewrite Hcat. cbn.
    rewrite andb_false_r. reflexivity.
  - apply orb_false_iff in Helse. destruct Helse as [H1 H2].
    apply orb_false_iff in H2. destruct H2 as [H2 _].
    rewrite H1, H2, Hcat, !andb_false_r. reflexivity.
  - rewrite Hcat. apply String.eqb_eq in Hcat. rewrite Hcat. cbn.
    rewrite andb_false_r. reflexivity.
  - rewrite Hcat. reflexivity.
Qed.

Lemma unique_In (x : string) (l : list string) : In x (unique l) <-> In x l.
Proof.
  induction l as [|y l IH]; cbn [unique In]; [tauto|].
  rewrite filter_In, IH, negb_true_iff.
  split.
  - intros [H|[H _]]; auto.
  - intros [H|H]; [auto|].
    destruct (String.eqb x y) eqn:E.
    + apply String.eqb_eq in E. auto.
    + auto.
Qed.

Lemma fold_categories_untouched c T g (cats : list (string * gen_column)) :
  (forall kv, In kv cats -> category_applies c T kv g = false) ->
  forall v,
    fold_left
      (fun v kv =>
         if category_applies c T kv g then category_share T kv g else v)
      cats v = v.
Proof.
  induction cats as [|kv cats IH]; intros Hno v; cbn [fold_left];
    [reflexivity|].
  rewrite (Hno kv) by (left; reflexivity).
  apply IH. intros kv2 H2. apply Hno. right. exact H2.
Qed.

Section FinalShare.
Variables (gens : list gen) (g : gen) (c : string).
Hypothesis Hc : in_country c g = true.

Let step (v : float) (c0 : string) : float :=
  row_share (uk_to_gb c0) (compute_totals gens (uk_to_gb c0)) g v.

Lemma step_other_country v c0 : uk_to_gb c0 <> c -> step v c0 = v.
Proof.
  intro Hne. apply row_share_other_country.
  destruct (in_country (uk_to_gb c0) g) eqn:E; [|reflexivity].
  exfalso. apply Hne. eapply in_country_unique; eauto.
Qed.

Lemma fold_step_fixed (X : float) (cs : list string) :
  (forall c0 v, uk_to_gb c0 = c -> step v c0 = X) ->
  fold_left step cs X = X.
Proof.
  intro HX. induction cs as [|c0 cs IH]; cbn [fold_left]; [reflexivity|].
  destruct (String.eqb (uk_to_gb c0) c) eqn:E.
  - apply String.eqb_eq in E. rewrite (HX _ _ E). exact IH.
  - apply String.eqb_neq in E. rewrite (step_other_country _ _ E). exact IH.
Qed.

Lemma fold_step_reached (X : float) (cs : list string) :
  (forall c0 v, uk_to_gb c0 = c -> step v c0 = X) ->
  In c (map uk_to_gb cs) ->
  forall v, fold_left step cs v = X.
Proof.
  intros HX. induction cs as [|c0 cs IH]; cbn [map In fold_left];
    [contradiction|].
  intros Hin v.
  destruct (String.eqb (uk_to_gb c0) c) eqn:E.
  - apply String.eqb_eq in E. rewrite (HX _ _ E).
    apply fold_step_fixed. exact HX.
  - apply String.eqb_neq in E. rewrite (step_other_country _ _ E).
    apply IH. destruct Hin as [H|H]; [contradiction|exact H].
Qed.

Lemma fold_step_untouched (cs : list string) :
  (forall c0 v, uk_to_gb c0 = c -> step v c0 = v) ->
  forall v, fold_left step cs v = v.
Proof.
  intros HX. induction cs as [|c0 cs IH]; cbn [fold_left]; intro v;
    [reflexivity|].
  destruct (String.eqb (uk_to_gb c0) c) eqn:E.
  - apply String.eqb_eq in E. rewrite (HX _ _ E). apply IH.
  - apply String.eqb_neq in E. rewrite (step_other_country _ _ E).
    apply IH.
Qed.

Lemma final_share_group cs kv :
  In c (map uk_to_gb cs) ->
  In kv categories ->
  in_category kv g = true ->
  tech_keyed_elsewhere kv g = false ->
  0 < category_total gens c kv ->
  final_share cs gens g
  = Some (gen_p_mw_original g / category_total gens c kv).
Proof.
  intros Hin Hkv Hcat Helse Hpos. unfold final_share.
  apply (fold_step_reached
           (Some (gen_p_mw_original g / category_total gens c kv)));
    [|exact Hin].
  intros c0 v <-. unfold step.
  rewrite (row_share_group _ _ _ _ kv); try assumption.
  - unfold category_share, fdiv. rewrite totals_get_compute by assumption.
    reflexivity.
  - rewrite totals_get_compute by assumption. exact Hpos.
Qed.

Lemma final_share_untouched cs kv :
  In kv categories ->
  ~ 0 < category_total gens c kv ->
  (forall kv2, In kv2 categories -> kv2 <> kv -> in_category kv2 g = false) ->
  final_share cs gens g = gen_normed_p_mw g.
Proof.
  intros Hkv Hzero Hother. unfold final_share.
  apply fold_step_untouched. intros c0 v <-. unfold step, row_share.
  assert (Hno : forall kv2, In kv2 categories ->
            category_applies (uk_to_gb c0)
              (compute_totals gens (uk_to_gb c0)) kv2 g = false).
  { intros kv2 H2. unfold category_applies.
    assert (Hdec : kv2 = kv \/ kv2 <> kv).
    { destruct kv as [k1 c1], kv2 as [k2 c2].
      destruct (String.eqb k2 k1) eqn:Ek.
      - apply String.eqb_eq in Ek. subst k2.
        destruct c1, c2; try (left; reflexivity); right; congruence.
      - apply String.eqb_neq in Ek. right. congruence. }
    destruct Hdec as [->|Hne].
    - rewrite totals_get_compute by assumption.
      destruct (Qltb 0 (category_total gens (uk_to_gb c0) kv)) eqn:E;
        [|reflexivity].
      apply Qltb_true in E. contradiction.
    - rewrite (Hother kv2 H2 Hne), !andb_false_r. reflexivity. }
  apply fold_categories_untouched. exact Hno.
Qed.
End FinalShare.

Lemma create_values_recompute regions force w :
  recomputes force w ->
  snd (create_values_per_country regions force w)
  = fold_left (fun acc country => normalize_country country acc)
      (countries_of regions)
      (set_w_cached_values (Some [])
         (set_w_net (map_gen_country (w_net w)) w)).
Proof.
  intro H. unfold create_values_per_country.
  cbn [w_cached_values set_w_net].
  destruct H as [-> | ->].
  - reflexivity.
  - destruct force; reflexivity.
Qed.

Lemma create_values_gens regions force w :
  recomputes force w ->
  net_gen (w_net (snd (create_values_per_country regions force w)))
  = map (fun g =>
           set_gen_normed_p_mw
             (final_share (countries_of regions) (mapped_gens w) g) g)
      (mapped_gens w).
Proof.
  intro H. rewrite (create_values_recompute _ _ _ H), fold_countries_gens.
  reflexivity.
Qed.

Lemma group_set_normed (f : gen -> float) gens country kv :
  group (map (fun g => set_gen_normed_p_mw (f g) g) gens) country kv
  = map (fun g => set_gen_normed_p_mw (f g) g) (group gens country kv).
Proof.
  unfold group.
  induction gens as [|g gens IH]; [reflexivity|].
  cbn [map filter].
  change (in_country country (set_gen_normed_p_mw (f g) g))
    with (in_country country g).
  destruct (in_country country g); [|exact IH].
  cbn [filter].
  change (in_category kv (set_gen_normed_p_mw (f g) g))
    with (in_category kv g).
  destruct (in_category kv g); [|exact IH].
  cbn [map]. f_equal. exact IH.
Qed.

Lemma group_In gens country kv g :
  In g (group gens country kv) <->
  In g gens /\ in_country country g = true /\ in_category kv g = true.
Proof. unfold group. rewrite !filter_In. tauto. Qed.

Lemma fsum_shares (T : Q) (l : list gen) :
  fsum (map (fun g => Some (gen_p_mw_original g / T)) l)
  == Qsum (map gen_p_mw_original l) / T.
Proof.
  induction l as [|g l IH]; cbn [map fsum Qsum].
  - unfold Qdiv. ring.
  - rewrite IH. unfold Qdiv. ring.
Qed.


Section RecomputedShares.
Variables (regions : list region) (force : bool) (w : world).
Variables (country : string) (kv : string * gen_column).
Hypothesis Hre : recomputes force w.
Hypothesis Hc : In country (map uk_to_gb (map region_country regions)).
Hypothesis Hkv : In kv categories.

Let gens' : list gen :=
  net_gen (w_net (snd (create_values_per_country regions force w))).

Let share (g : gen) : gen :=
  set_gen_normed_p_mw
    (final_share (countries_of regions) (mapped_gens w) g) g.

Lemma recomputed_total :
  category_total gens' country kv
  = category_total (mapped_gens w) country kv.
Proof.
  unfold gens'. rewrite (create_values_gens _ _ _ Hre).
  apply category_total_set_normed.
Qed.

Lemma recomputed_group :
  group gens' country kv = map share (group (mapped_gens w) country kv).
Proof.
  unfold gens'. rewrite (create_values_gens _ _ _ Hre).
  apply group_set_normed.
Qed.

Lemma country_is_processed :
  In country (map uk_to_gb (countries_of regions)).
Proof.
  unfold countries_of. rewrite in_map_iff in *.
  destruct Hc as [c0 [E H0]]. exists c0. split; [exact E|].
  apply unique_In. exact H0.
Qed.

(** A group with a positive total that no later category overwrites
    holds nameplate / total in every row, and its shares sum to 1. *)
Lemma group_shares_recomputed :
  0 < category_total gens' country kv ->
  (forall g, In g (group gens' country kv) ->
             tech_keyed_elsewhere kv g = false) ->
  (forall g, In g (group gens' country kv) ->
             gen_normed_p_mw g
             = Some (gen_p_mw_original g / category_total gens' country kv))
  /\ fsum (map gen_normed_p_mw (group gens' country kv)) == 1.
Proof.
  rewrite recomputed_total, recomputed_group.
  intros Hpos Helse.
  assert (Hshare : forall g0, In g0 (group (mapped_gens w) country kv) ->
            final_share (countries_of regions) (mapped_gens w) g0
            = Some (gen_p_mw_original g0
                    / category_total (mapped_gens w) country kv)).
  { intros g0 H0. pose proof H0 as H0'. apply group_In in H0'.
    destruct H0' as [_ [Hic Hig]].
    apply final_share_group; try assumption.
    - apply country_is_processed.
    - apply (Helse (share g0)).
      apply in_map_iff. exists g0. split; [reflexivity|exact H0]. }
  split.
  - intros g Hg. apply in_map_iff in Hg. destruct Hg as [g0 [<- H0]].
    cbn [share gen_normed_p_mw gen_p_mw_original set_gen_normed_p_mw].
    apply Hshare. exact H0.
  - rewrite map_map.
    erewrite map_ext_in;
      [|intros a Ha; cbn [share gen_normed_p_mw set_gen_normed_p_mw];
        apply Hshare; exact Ha].
    rewrite fsum_shares.
    unfold group, category_total in *. field. lra.
Qed.

(** A group whose total is not positive, and whose units are in no other
    category, keeps the shares it had. *)
Lemma group_shares_untouched :
  ~ 0 < category_total gens' country kv ->
  (forall g kv2, In g (group gens' country kv) ->
                 In kv2 categories -> kv2 <> kv ->
                 in_category kv2 g = false) ->
  map gen_normed_p_mw (group gens' country kv)
  = map gen_normed_p_mw (group (mapped_gens w) country kv).
Proof.
  rewrite recomputed_total, recomputed_group.
  intros Hzero Hother. rewrite map_map.
  apply map_ext_in. intros g0 H0.
  cbn [share gen_normed_p_mw set_gen_normed_p_mw].
  pose proof H0 as H0'. apply group_In in H0'.
  destruct H0' as [_ [Hic Hig]].
  apply (final_share_untouched _ _ country Hic _ kv); try assumption.
  intros kv2 H2 Hne.
  apply (Hother (share g0) kv2); try assumption.
  apply in_map_iff. exists g0. split; [reflexivity|exact H0].
Qed.
End RecomputedShares.

(** ** C4: the shares after a run of the normaliser *)

(** C4 (as amended).  After a run of [create_values_per_country] that
    recomputes (forced, or the first one), for every country of the regions
    and every category: if the group's total nameplate is positive and none
    of its units is also selected by a category keyed by [tech] that is
    written later (always so for onwind and offwind; for solar and wind when
    no unit has technology onwind or offwind), each unit's share is
    nameplate / group total and the group's shares sum to 1; if the total is
    not positive and the units are in no other category, the group's shares
    are the ones it had before the run. *)
Theorem create_values_per_country_shares
  (regions : list region) (force : bool) (w : world)
  (country : string) (kv : string * gen_column) :
  recomputes force w ->
  In country (map uk_to_gb (map region_country regions)) ->
  In kv categories ->
  let gens' :=
    net_gen (w_net (snd (create_values_per_country regions force w))) in
  (0 < category_total gens' country kv ->
   (forall g, In g (group gens' country kv) ->
              tech_keyed_elsewhere kv g = false) ->
   (forall g, In g (group gens' country kv) ->
              gen_normed_p_mw g
              = Some (gen_p_mw_original g / category_total gens' country kv))
   /\ fsum (map gen_normed_p_mw (group gens' country kv)) == 1)
  /\ (~ 0 < category_total gens' country kv ->
      (forall g kv2, In g (group gens' country kv) ->
                     In kv2 categories -> kv2 <> kv ->
                     in_category kv2 g = false) ->
      map gen_normed_p_mw (group gens' country kv)
      = map gen_normed_p_mw (group (mapped_gens w) country kv)).
Proof.
  intros Hre Hc Hkv gens'. split.
  - apply group_shares_recomputed; assumption.
  - apply group_shares_untouched; assumption.
Qed.

(** C4, witness: in [mixed_wind_net] the onshore group (100 MW) is
    normalised and its shares sum to 1; the solar group has total 0 and its
    unit is left without a share. *)
Lemma create_values_per_country_shares_witness :
  fsum (map gen_normed_p_mw (group mixed_wind_gens "AA" ("onwind", col_tech)))
  == 1
  /\ map gen_normed_p_mw (group mixed_wind_gens "AA" ("solar", col_type))
     = [None].
Proof.
  split.
  - refine (proj2 (proj1 (create_values_per_country_shares
                            mixed_wind_regions true
                            (mkWorld mixed_wind_net None)
                            "AA" ("onwind", col_tech) _ _ _) _ _)).
    + left. reflexivity.
    + left. reflexivity.
    + right. right. left. reflexivity.
    + vm_compute. reflexivity.
    + intros g _. reflexivity.
  - refine (proj2 (create_values_per_country_shares
                     mixed_wind_regions true
                     (mkWorld mixed_wind_net None)
                     "AA" ("solar", col_type) _ _ _) _ _).
    + left. reflexivity.
    + left. reflexivity.
    + left. reflexivity.
    + intro H. vm_compute in H. discriminate.
    + intros g kv2 Hg Hk Hne.
      vm_compute in Hg. destruct Hg as [<-|[]].
      unfold categories in Hk. cbn [In] in Hk.
      destruct Hk as [<-|[<-|[<-|[<-|[]]]]];
        try reflexivity; contradiction Hne; reflexivity.
Defined.

(** C4, counterexample to the claim as stated.  In [mixed_wind_net] both
    wind units have type "wind", so the group (AA, wind) has total 400 MW;
    the category turns for onwind and offwind run after the one for wind
    and overwrite the shares.  The onshore unit ends with share 100/100,
    not 100/400, and the shares of the group (AA, wind) sum to 2. *)
Lemma create_values_per_country_shares_counterexample :
  category_total mixed_wind_gens "AA" ("wind", col_type) == 400
  /\ map gen_p_mw_original (group mixed_wind_gens "AA" ("wind", col_type))
     = [100; 300]
  /\ map gen_normed_p_mw (group mixed_wind_gens "AA" ("wind", col_type))
     = [Some (100 # 100); Some (300 # 300)]
  /\ ~ fsum (map gen_normed_p_mw
               (group mixed_wind_gens "AA" ("wind", col_type))) == 1.
Proof.
  split; [vm_compute; reflexivity|].
  split; [vm_compute; reflexivity|].
  split; [vm_compute; reflexivity|].
  intro H. vm_compute in H. discriminate.
Qed.

(** ** The cache and the country column *)

Lemma fold_countries_frame cs : forall w,
  w_net (fold_left (fun acc c => normalize_country c acc) cs w)
  = set_net_gen
      (net_gen (w_net (fold_left (fun acc c => normalize_country c acc) cs w)))
      (w_net w).
Proof.
  induction cs as [|c cs IH]; intro w; cbn [fold_left].
  - destruct w as [[b bg gs ls] ca]. reflexivity.
  - rewrite IH. reflexivity.
Qed.

Lemma fold_countries_cache_some cs : forall w,
  w_cached_values w = Some (cache_of w) ->
  w_cached_values (fold_left (fun acc c => normalize_country c acc) cs w)
  = Some (cache_of (fold_left (fun acc c => normalize_country c acc) cs w)).
Proof.
  induction cs as [|c cs IH]; intro w; cbn [fold_left]; intro H.
  - exact H.
  - apply IH. reflexivity.
Qed.

Lemma map_gen_country_idem n :
  map_gen_country (map_gen_country n) = map_gen_country n.
Proof.
  unfold map_gen_country, set_net_gen. cbn [net_gen net_bus net_bus_geodata net_load].
  f_equal. rewrite map_map. apply map_ext. intro g. reflexivity.
Qed.

Lemma map_gen_country_set_normed (f : gen -> float) n :
  map_gen_country
    (set_net_gen
       (map (fun g => set_gen_normed_p_mw (f g) g)
          (net_gen (map_gen_country n)))
       (map_gen_country n))
  = set_net_gen
      (map (fun g => set_gen_normed_p_mw (f g) g)
         (net_gen (map_gen_country n)))
      (map_gen_country n).
Proof.
  unfold map_gen_country, set_net_gen.
  cbn [net_gen net_bus net_bus_geodata net_load].
  f_equal. rewrite !map_map. apply map_ext. intro g. reflexivity.
Qed.

Lemma create_values_recompute_pair regions force w :
  recomputes force w ->
  create_values_per_country regions force w
  = (inr (cache_of (recomputed_world regions w)), recomputed_world regions w).
Proof.
  intro H. unfold create_values_per_country.
  cbn [w_cached_values set_w_net].
  destruct H as [-> | ->].
  - reflexivity.
  - destruct force; reflexivity.
Qed.

Lemma recomputed_world_cache regions w :
  w_cached_values (recomputed_world regions w)
  = Some (cache_of (recomputed_world regions w)).
Proof.
  unfold recomputed_world. apply fold_countries_cache_some. reflexivity.
Qed.

Lemma recomputed_world_net regions w :
  w_net (recomputed_world regions w)
  = set_net_gen
      (map (fun g =>
              set_gen_normed_p_mw
                (final_share (countries_of regions) (mapped_gens w) g) g)
         (net_gen (map_gen_country (w_net w))))
      (map_gen_country (w_net w)).
Proof.
  unfold recomputed_world.
  rewrite fold_countries_frame, fold_countries_gens. reflexivity.
Qed.

Lemma set_w_net_same w : set_w_net (w_net w) w = w.
Proof. destruct w; reflexivity. Qed.

Lemma create_values_cached regions w c :
  w_cached_values w = Some c ->
  create_values_per_country regions false w
  = (inr c, set_w_net (map_gen_country (w_net w)) w).
Proof.
  intro H. unfold create_values_per_country.
  cbn [w_cached_values set_w_net]. rewrite H. reflexivity.
Qed.

Lemma create_values_idempotent regions regions2 force w :
  create_values_per_country regions2 false
    (snd (create_values_per_country regions force w))
  = create_values_per_country regions force w.
Proof.
  assert (Hcases : recomputes force w
                   \/ (force = false /\ exists c, w_cached_values w = Some c)).
  { unfold recomputes. destruct force; [left; left; reflexivity|].
    destruct (w_cached_values w) as [c|]; [right|left; right; reflexivity].
    split; [reflexivity|]. exists c. reflexivity. }
  destruct Hcases as [Hre|[-> [c Hc]]].
  - rewrite (create_values_recompute_pair _ _ _ Hre). cbn [snd].
    rewrite (create_values_cached _ _ _ (recomputed_world_cache regions w)).
    f_equal.
    rewrite recomputed_world_net at 1.
    rewrite map_gen_country_set_normed, <- recomputed_world_net.
    apply set_w_net_same.
  - rewrite (create_values_cached _ _ _ Hc). cbn [snd].
    rewrite (create_values_cached regions2 _ c) by exact Hc.
    cbn [w_net set_w_net w_cached_values].
    rewrite map_gen_country_idem. reflexivity.
Qed.

Lemma dict_get_set {V} (k k' : string) (v : V) (d : dict V) :
  dict_get k (dict_set k' v d)
  = if String.eqb k' k then Some v else dict_get k d.
Proof.
  induction d as [|[k0 v0] d IH]; cbn [dict_set dict_get].
  - reflexivity.
  - destruct (String.eqb k0 k') eqn:E0; cbn [dict_get].
    + apply String.eqb_eq in E0. subst k0.
      destruct (String.eqb k' k); reflexivity.
    + destruct (String.eqb k0 k) eqn:E1.
      * destruct (String.eqb k' k) eqn:E2; [|reflexivity].
        apply String.eqb_eq in E1, E2. subst.
        rewrite String.eqb_refl in E0. discriminate.
      * exact IH.
Qed.

Section DictFold.
Context {V : Type} (f : string -> V) (k : string).

Let write (d : dict V) (c0 : string) : dict V :=
  dict_set (uk_to_gb c0) (f (uk_to_gb c0)) d.

Lemma dict_fold_keeps cs : forall d,
  dict_get k d = Some (f k) ->
  dict_get k (fold_left write cs d) = Some (f k).
Proof.
  induction cs as [|c0 cs IH]; intros d H; cbn [fold_left]; [exact H|].
  apply IH. unfold write. rewrite dict_get_set.
  destruct (String.eqb (uk_to_gb c0) k) eqn:E; [|exact H].
  apply String.eqb_eq in E. rewrite E. reflexivity.
Qed.

Lemma dict_fold_written cs : forall d,
  In k (map uk_to_gb cs) ->
  dict_get k (fold_left write cs d) = Some (f k).
Proof.
  induction cs as [|c0 cs IH]; intros d H; cbn [fold_left map In] in *;
    [contradiction|].
  destruct (String.eqb (uk_to_gb c0) k) eqn:E.
  - apply dict_fold_keeps. unfold write. rewrite dict_get_set, E.
    apply String.eqb_eq in E. rewrite E. reflexivity.
  - apply IH. destruct H as [H|H]; [|exact H].
    apply String.eqb_neq in E. contradiction.
Qed.
End DictFold.

Lemma fold_countries_cache cs : forall w,
  cache_of (fold_left (fun acc c => normalize_country c acc) cs w)
  = fold_left
      (fun d c0 =>
         dict_set (uk_to_gb c0)
           (compute_totals (net_gen (w_net w)) (uk_to_gb c0)) d)
      cs (cache_of w).
Proof.
  induction cs as [|c cs IH]; intro w; cbn [fold_left]; [reflexivity|].
  rewrite IH.
  change (cache_of (normalize_country c w))
    with (dict_set (uk_to_gb c)
            (compute_totals (net_gen (w_net w)) (uk_to_gb c)) (cache_of w)).
  apply fold_left_pointwise. intros d c0.
  rewrite normalize_country_gens, compute_totals_set_normed. reflexivity.
Qed.

Lemma recomputed_totals regions w c0 :
  In c0 (map region_country regions) ->
  dict_get (uk_to_gb c0) (cache_of (recomputed_world regions w))
  = Some (compute_totals (mapped_gens w) (uk_to_gb c0)).
Proof.
  intro H. unfold recomputed_world. rewrite fold_countries_cache.
  apply (dict_fold_written (fun c => compute_totals (mapped_gens w) c)).
  apply in_map. apply unique_In. exact H.
Qed.

(** ** C9: the cache of the normaliser *)


(** C9 on a run: shares 1/2 and 1/2 after the first call; after the second
    nameplate is raised to 300 MW a call without force keeps them, a forced
    call rewrites them to 100/400 and 300/400. *)
Example create_values_per_country_cache_run :
  let w1 := snd (create_values_per_country mixed_wind_regions true
                   (mkWorld equal_units_net None)) in
  let w2 := raise_second_nameplate w1 in
  map gen_normed_p_mw (net_gen (w_net w1))
    = [Some (100 # 200); Some (100 # 200)]
  /\ map gen_normed_p_mw
       (net_gen (w_net (snd (create_values_per_country mixed_wind_regions
                               false w2))))
     = [Some (100 # 200); Some (100 # 200)]
  /\ map gen_normed_p_mw
       (net_gen (w_net (snd (create_values_per_country mixed_wind_regions
                               true w2))))
     = [Some (100 # 400); Some (300 # 400)].
Proof. vm_compute. repeat split. Qed.

(** ** The resolver *)

Lemma bind_ok {S A B} (c : M S A) (k : A -> M S B) s a s' :
  c s = (inr a, s') -> bind c k s = k a s'.
Proof. unfold bind. intros ->. reflexivity. Qed.

Lemma bind_raise {S A B} (c : M S A) (k : A -> M S B) s e s' :
  c s = (inl e, s') -> bind c k s = (inl e, s').
Proof. unfold bind. intros ->. reflexivity. Qed.

Section ResolverFacts.
Variable geometry : Type.
Variable within : Q * Q -> geometry -> bool.
Variable centroid : geometry -> Q * Q.


Lemma no_candidate_geodata net (e : element geometry) :
  real_country_buses net e = [] -> real_country_buses_geodata net e = [].
Proof.
  intro H. unfold real_country_buses_geodata. rewrite H.
  cbn [map isin existsb].
  induction (net_bus_geodata net) as [|g l IH]; [reflexivity|exact IH].
Qed.

Lemma closest_bus_no_candidate net (e : element geometry) s :
  real_country_buses net e = [] ->
  closest_bus within centroid net e s
  = (inl IndexError, mkRstate (rs_net s) (rs_kdtrees s ++ [[]])).
Proof.
  intro H. unfold closest_bus, buses_within_polygon.
  rewrite (no_candidate_geodata _ _ H), H. reflexivity.
Qed.

Lemma resolve_element_no_candidate T dg dl (e : element geometry) s :
  real_country_buses (rs_net s) e = [] ->
  resolve_element within centroid T dg dl e s
  = (inl IndexError, mkRstate (rs_net s) (rs_kdtrees s ++ [[]])).
Proof.
  intro H. unfold resolve_element.
  unfold bind at 1. unfold get.
  apply bind_raise. apply closest_bus_no_candidate. exact H.
Qed.

(** With an element type "gen" or "load", a turn that does not raise
    asks for the next one. *)
Lemma resolve_element_goes_on T dg dl (e : element geometry) s b s' :
  T = "gen" \/ T = "load" ->
  resolve_element within centroid T dg dl e s = (inr b, s') -> b = true.
Proof.
  intros HT. unfold resolve_element.
  unfold bind at 1. unfold get.
  unfold bind at 1.
  destruct (closest_bus within centroid (rs_net s) e s) as [[ex|c] s1]; [discriminate|].
  destruct HT as [-> | ->]; cbn [String.eqb Ascii.eqb Bool.eqb andb].
  - unfold bind.
    destruct (create_gen_branch centroid dg (rs_net s) e c s1)
      as [[ex|[]] s2]; [discriminate|].
    unfold ret. congruence.
  - unfold bind.
    destruct (create_load_branch within dl (rs_net s) e c s1)
      as [[ex|[]] s2]; [discriminate|].
    unfold ret. congruence.
Qed.

Lemma resolve_all_app T dg dl (pre rest : list (element geometry)) : forall s0 s,
  T = "gen" \/ T = "load" ->
  resolve_all within centroid T dg dl pre s0 = (inr tt, s) ->
  resolve_all within centroid T dg dl (pre ++ rest) s0 = resolve_all within centroid T dg dl rest s.
Proof.
  induction pre as [|e pre IH]; intros s0 s HT H.
  - cbn in H. injection H as <-. reflexivity.
  - cbn [app resolve_all] in *.
    unfold bind in *.
    destruct (resolve_element within centroid T dg dl e s0) as [[ex|b] s1] eqn:E;
      [discriminate|].
    rewrite (resolve_element_goes_on _ _ _ _ _ _ _ HT E) in *.
    apply IH; assumption.
Qed.

(** C3 (as amended).  When the zone of an asset has no in-service bus
    whose name marks a real substation, the resolver builds the
    nearest-neighbour index over the empty candidate set, queries it, and
    the positional lookup of the returned position raises [IndexError];
    nothing guards the empty set and no dedicated error exists.  The
    exception leaves [create_gen_or_load]: no row is created for that
    asset, the assets after it are not processed, and the rows created
    for the assets before it remain. *)
Theorem create_gen_or_load_no_candidate
  (pre rest : list (element geometry)) (e : element geometry) T dg dl s0 s :
  T = "gen" \/ T = "load" ->
  create_gen_or_load within centroid pre T dg dl s0 = (inr tt, s) ->
  real_country_buses (rs_net s) e = [] ->
  create_gen_or_load within centroid (pre ++ e :: rest) T dg dl s0
  = (inl IndexError, mkRstate (rs_net s) (rs_kdtrees s ++ [[]])).
Proof.
  unfold create_gen_or_load. intros HT Hpre Hnone.
  rewrite (resolve_all_app _ _ _ _ _ _ _ HT Hpre).
  cbn [resolve_all].
  apply bind_raise. apply resolve_element_no_candidate. exact Hnone.
Qed.
End ResolverFacts.

(** C3, witness: [idle_coal_plant] resolves in zone AA, then
    [stranded_plant] finds no real substation in zone BB. *)
Lemma create_gen_or_load_no_candidate_witness :
  create_gen_or_load ex_within ex_centroid
    ([idle_coal_plant] ++ stranded_plant :: [idle_coal_plant]) "gen" false
    false resolver_start
  = (inl IndexError,
     mkRstate
       (rs_net (snd (create_gen_or_load ex_within ex_centroid
                       [idle_coal_plant] "gen" false false resolver_start)))
       (rs_kdtrees
          (snd (create_gen_or_load ex_within ex_centroid
                  [idle_coal_plant] "gen" false false resolver_start))
        ++ [[]])).
Proof.
  apply (create_gen_or_load_no_candidate ex_geometry ex_within ex_centroid
           [idle_coal_plant] [idle_coal_plant] stranded_plant "gen" false
           false resolver_start).
  - left. reflexivity.
  - vm_compute. reflexivity.
  - vm_compute. reflexivity.
Defined.

(** C3, counterexample to the claim as stated: for [stranded_plant] the
    resolver does build a nearest-neighbour index over the empty candidate
    set (the only entry of the record of built indexes is the empty point
    set), queries it (the answer is position 0 of 0 points) and ends with
    [IndexError] from the lookup of that position. *)
Lemma create_gen_or_load_empty_index_counterexample :
  real_country_buses resolver_net stranded_plant = []
  /\ KDTree_query [] (ex_centroid (el_geometry stranded_plant))
     = 0%nat
  /\ create_gen_or_load ex_within ex_centroid [stranded_plant]
       "gen" false false resolver_start
     = (inl IndexError, mkRstate resolver_net [[]]).
Proof. repeat split. Qed.


(** *** Nearest neighbour *)

Lemma nearest_from_spec x : forall data pre best p,
  nth_error pre best = Some p ->
  (forall q, In q pre -> sq_dist p x <= sq_dist q x) ->
  exists p',
    nth_error (pre ++ data)
      (nearest_from best (sq_dist p x) (List.length pre) data x) = Some p'
    /\ forall q, In q (pre ++ data) -> sq_dist p' x <= sq_dist q x.
Proof.
  induction data as [|q0 r IH]; intros pre best p Hb Hmin.
  - cbn [nearest_from]. rewrite app_nil_r. exists p. split; assumption.
  - cbn [nearest_from].
    replace (pre ++ q0 :: r)%list with ((pre ++ [q0]) ++ r)%list
      by (rewrite <- app_assoc; reflexivity).
    replace (S (List.length pre)) with (List.length (pre ++ [q0])%list)
      by (rewrite length_app; cbn; lia).
    destruct (Qltb (sq_dist q0 x) (sq_dist p x)) eqn:E.
    + apply Qltb_true in E. apply IH.
      * rewrite nth_error_app2 by lia. rewrite Nat.sub_diag. reflexivity.
      * intros q Hq. apply in_app_or in Hq. destruct Hq as [Hq|[<-|[]]].
        -- specialize (Hmin q Hq). lra.
        -- apply Qle_refl.
    + apply Qltb_false in E. apply IH.
      * rewrite nth_error_app1; [exact Hb|].
        apply nth_error_Some. congruence.
      * intros q Hq. apply in_app_or in Hq. destruct Hq as [Hq|[<-|[]]].
        -- apply Hmin. exact Hq.
        -- exact E.
Qed.

Lemma KDTree_query_nearest data x :
  data <> [] ->
  exists p,
    nth_error data (KDTree_query data x) = Some p
    /\ forall q, In q data -> sq_dist p x <= sq_dist q x.
Proof.
  destruct data as [|p r]; [congruence|]. intros _.
  unfold KDTree_query.
  apply (nearest_from_spec x r [p] 0%nat p).
  - reflexivity.
  - intros q [<-|[]]. apply Qle_refl.
Qed.

Lemma KDTree_query_lt data x :
  data <> [] -> (KDTree_query data x < List.length data)%nat.
Proof.
  intro H. destruct (KDTree_query_nearest data x H) as [p [Hp _]].
  apply nth_error_Some. congruence.
Qed.

(** *** Label lookups *)

Lemma isin_In i labels : isin i labels = true <-> In i labels.
Proof.
  unfold isin. rewrite existsb_exists. split.
  - intros [j [Hj E]]. apply Nat.eqb_eq in E. subst. exact Hj.
  - intro H. exists i. split; [exact H|apply Nat.eqb_refl].
Qed.

Lemma find_label {A} (label_of : A -> nat) rows i :
  In i (map label_of rows) ->
  exists a, find (fun a => Nat.eqb (label_of a) i) rows = Some a
            /\ In a rows /\ label_of a = i.
Proof.
  induction rows as [|a rows IH]; cbn [map In find]; [contradiction|].
  intro H. destruct (Nat.eqb (label_of a) i) eqn:E.
  - apply Nat.eqb_eq in E. exists a. auto.
  - destruct H as [H|H]; [apply Nat.eqb_neq in E; contradiction|].
    destruct (IH H) as [b [Hf [Hin Hl]]]. exists b. auto.
Qed.

Lemma loc_rows_some {A} (label_of : A -> nat) rows labels :
  (forall i, In i labels -> In i (map label_of rows)) ->
  exists l, loc_rows label_of rows labels = Some l
            /\ map label_of l = labels
            /\ forall a, In a l -> In a rows.
Proof.
  induction labels as [|i labels IH]; intro H; cbn [loc_rows].
  - exists []. repeat split. intros a [].
  - destruct (find_label label_of rows i (H i (or_introl eq_refl)))
      as [a [Hf [Hin Hl]]].
    destruct IH as [l [El [Hm Hall]]].
    { intros j Hj. apply H. right. exact Hj. }
    rewrite Hf, El. exists (a :: l). cbn [map]. repeat split.
    + congruence.
    + intros b [<-|Hb]; auto.
Qed.

Lemma Qmin_list_attained x l : In (Qmin_list x l) (x :: l).
Proof.
  revert x. induction l as [|y l IH]; intro x; cbn [Qmin_list].
  - left. reflexivity.
  - destruct (IH (if Qltb y x then y else x)) as [H|H].
    + rewrite <- H. destruct (Qltb y x); [right; left|left]; reflexivity.
    + right. right. exact H.
Qed.

Section ResolverMore.
Variable geometry : Type.
Variable within : Q * Q -> geometry -> bool.
Variable centroid : geometry -> Q * Q.

Lemma real_geodata_label net (e : element geometry) g :
  In g (real_country_buses_geodata net e) ->
  In (geo_idx g) (map bus_idx (real_country_buses net e)).
Proof.
  unfold real_country_buses_geodata. rewrite filter_In.
  intros [_ H]. apply isin_In. exact H.
Qed.

Lemma real_buses_incl net (e : element geometry) b :
  In b (real_country_buses net e) -> In b (net_bus net).
Proof.
  unfold real_country_buses, country_buses. rewrite !filter_In. tauto.
Qed.

Lemma within_incl net (e : element geometry) g :
  In g (buses_within_polygon within net e) ->
  In g (real_country_buses_geodata net e).
Proof. unfold buses_within_polygon. rewrite filter_In. tauto. Qed.

(** When some real substation lies within the geometry, the lookups of the
    lowest-voltage branch all succeed. *)
Lemma closest_bus_within_ok net (e : element geometry) s :
  buses_within_polygon within net e <> [] ->
  exists b kd,
    closest_bus within centroid net e s = (inr b, mkRstate (rs_net s) kd).
Proof.
  intro Hne. unfold closest_bus.
  unfold bind at 1. unfold KDTree at 1.
  destruct (buses_within_polygon within net e) as [|g0 W0] eqn:EW;
    [congruence|].
  rewrite <- EW. clear Hne.
  destruct (loc_rows_some bus_idx (net_bus net)
              (map geo_idx (buses_within_polygon within net e)))
    as [L [EL [HLm HLin]]].
  { intros i Hi. apply in_map_iff in Hi. destruct Hi as [g [<- Hg]].
    apply within_incl, real_geodata_label in Hg.
    apply in_map_iff in Hg. destruct Hg as [b [Eb Hb]].
    apply in_map_iff. exists b. split; [exact Eb|].
    apply real_buses_incl with (e := e). exact Hb. }
  unfold bind at 1. unfold loc at 1. rewrite EL. unfold ret at 1.
  set (min_voltage := match map bus_vn_kv L with
                      | [] => 0 | v :: r => Qmin_list v r end).
  set (lowest := filter (fun b => Qeq_bool (bus_vn_kv b) min_voltage) L).
  assert (Hlow : lowest <> []).
  { destruct L as [|b0 L0].
    - rewrite EW in HLm. discriminate.
    - subst min_voltage. cbn [map] in *.
      pose proof (Qmin_list_attained (bus_vn_kv b0) (map bus_vn_kv L0)) as Hin.
      change (bus_vn_kv b0 :: map bus_vn_kv L0)
        with (map bus_vn_kv (b0 :: L0)) in Hin.
      apply in_map_iff in Hin. destruct Hin as [b [Eb Hb]].
      intro Hnil.
      assert (Hb' : In b lowest).
      { apply filter_In. split; [exact Hb|].
        apply Qeq_bool_iff. rewrite Eb. apply Qeq_refl. }
      rewrite Hnil in Hb'. exact Hb'. }
  destruct (loc_rows_some geo_idx (real_country_buses_geodata net e)
              (map bus_idx lowest))
    as [C [EC [HCm HCin]]].
  { intros i Hi. apply in_map_iff in Hi. destruct Hi as [b [<- Hb]].
    apply filter_In in Hb. destruct Hb as [Hb _].
    assert (Hlab : In (bus_idx b) (map bus_idx L))
      by (apply in_map; exact Hb).
    rewrite HLm in Hlab. apply in_map_iff in Hlab.
    destruct Hlab as [g [Eg Hg]]. apply in_map_iff.
    exists g. split; [exact Eg|]. apply within_incl. exact Hg. }
  unfold bind at 1. unfold loc at 1. rewrite EC. unfold ret at 1.
  unfold bind at 1. unfold KDTree at 1.
  assert (Hlen : (KDTree_query (map geo_xy C) (centroid (el_geometry e))
                  < List.length (map bus_idx lowest))%nat).
  { rewrite <- HCm, length_map, <- (length_map geo_xy).
    apply KDTree_query_lt.
    destruct C; [|discriminate].
    cbn in HCm. destruct lowest; [congruence|discriminate]. }
  unfold index_at.
  destruct (nth_error (map bus_idx lowest)
              (KDTree_query (map geo_xy C) (centroid (el_geometry e))))
    as [b|] eqn:En.
  - eexists. eexists. reflexivity.
  - apply nth_error_None in En. lia.
Qed.

Lemma for_each_create_load (mk : bus_geo -> load) rows : forall s,
  for_each rows (fun row => create_load (mk row)) s
  = (inr tt,
     mkRstate
       (set_net_load (net_load (rs_net s) ++ map mk rows) (rs_net s))
       (rs_kdtrees s)).
Proof.
  induction rows as [|row rows IH]; intro s; cbn [for_each map].
  - unfold ret. rewrite app_nil_r. destruct s as [[b bg g l] k]. reflexivity.
  - unfold bind. unfold create_load at 1. unfold update_net.
    rewrite IH. cbn [rs_net rs_kdtrees set_net_load net_load net_bus
                      net_bus_geodata net_gen].
    rewrite <- app_assoc. reflexivity.
Qed.
End ResolverMore.

Lemma filter_filter {A} (f g : A -> bool) (l : list A) :
  filter f (filter g l) = filter (fun x => g x && f x) l.
Proof.
  induction l as [|a l IH]; [reflexivity|].
  cbn [filter]. destruct (g a); cbn [andb filter].
  - destruct (f a); [f_equal|]; exact IH.
  - exact IH.
Qed.

Lemma filter_by_labels (P : bus -> bool) (S : list nat) :
  forall (buses : list bus) (geos : list bus_geo),
  map geo_idx geos = map bus_idx buses ->
  (forall b, In b buses -> isin (bus_idx b) S = P b) ->
  map geo_idx (filter (fun g => isin (geo_idx g) S) geos)
  = map bus_idx (filter P buses).
Proof.
  induction buses as [|b buses IH]; intros geos Hm HS.
  - destruct geos; [reflexivity|discriminate].
  - destruct geos as [|g geos]; [discriminate|].
    cbn [map] in Hm. injection Hm as Hg Hm.
    cbn [filter]. rewrite Hg, (HS b (or_introl eq_refl)).
    destruct (P b); cbn [map]; [rewrite Hg; f_equal|];
      apply IH; auto; intros b' Hb'; apply HS; right; exact Hb'.
Qed.

Lemma NoDup_label_inj (l : list bus) b1 b2 :
  NoDup (map bus_idx l) -> In b1 l -> In b2 l ->
  bus_idx b1 = bus_idx b2 -> b1 = b2.
Proof.
  induction l as [|a l IH]; cbn [map In]; [contradiction|].
  intros Hnd H1 H2 E. inversion Hnd as [|x xs Hx Hnd']. subst.
  destruct H1 as [<-|H1], H2 as [<-|H2].
  - reflexivity.
  - exfalso. apply Hx. rewrite E. apply in_map. exact H2.
  - exfalso. apply Hx. rewrite <- E. apply in_map. exact H1.
  - apply IH; assumption.
Qed.

Lemma aligned_candidates {geometry} net (e : element geometry) :
  aligned net ->
  map geo_idx (real_country_buses_geodata net e)
  = map bus_idx (real_country_buses net e).
Proof.
  intros [Hm Hnd].
  unfold real_country_buses_geodata, real_country_buses, country_buses.
  rewrite filter_filter.
  match goal with
  | |- context [filter ?Q (net_bus net)] => set (P := Q)
  end.
  apply (filter_by_labels P); [exact Hm|].
  intros b Hb. destruct (P b) eqn:E.
  - apply isin_In. apply in_map. apply filter_In. split; assumption.
  - destruct (isin (bus_idx b) _) eqn:Ei; [|reflexivity].
    apply isin_In, in_map_iff in Ei. destruct Ei as [b' [Eb Hb']].
    apply filter_In in Hb'. destruct Hb' as [Hin' HP'].
    assert (b' = b) by (eapply NoDup_label_inj; eauto).
    subst b'. congruence.
Qed.

Lemma fsum_const {A} (x : Q) (l : list A) :
  fsum (map (fun _ => Some x) l) == inject_Z (Z.of_nat (List.length l)) * x.
Proof.
  induction l as [|a l IH].
  - cbn. ring.
  - cbn [map fsum List.length]. rewrite IH, Nat2Z.inj_succ.
    unfold Z.succ. rewrite inject_Z_plus. ring.
Qed.

Lemma inject_nat_pos (n : nat) : (0 < n)%nat -> 0 < inject_Z (Z.of_nat n).
Proof.
  intro H. change 0 with (inject_Z 0). rewrite <- Zlt_Qlt. lia.
Qed.

Section EvenDistribution.
Variable geometry : Type.
Variable within : Q * Q -> geometry -> bool.
Variable centroid : geometry -> Q * Q.

End EvenDistribution.

Lemma limits_check (lo hi : Q) :
  (if Qltb lo 0 || Qle_bool hi lo then None else Some (lo, hi)) = None
  <-> lo < 0 \/ hi <= lo.
Proof.
  destruct (Qltb lo 0) eqn:E1; cbn [orb].
  - apply Qltb_true in E1. tauto.
  - apply Qltb_false in E1.
    destruct (Qle_bool hi lo) eqn:E2.
    + apply Qle_bool_iff in E2. tauto.
    + split; [discriminate|]. intros [H|H]; [lra|].
      apply Qle_bool_iff in H. congruence.
Qed.

(** The range is invalid exactly when the nameplate is not positive. *)
Lemma calculate_power_limits_none fueltype (P_nom : Q) :
  calculate_power_limits fueltype P_nom = None <-> P_nom <= 0.
Proof.
  unfold calculate_power_limits.
  repeat match goal with
         | |- context [if ?c then (_, _) else _] => destruct c
         end;
    rewrite limits_check; split; intro H; try lra;
    try (destruct H; lra);
    try (destruct (Qlt_le_dec P_nom 0); [left|right]; lra).
Qed.

(** For a positive nameplate the range is the table's fraction of the
    nameplate up to the nameplate. *)
Lemma calculate_power_limits_table fueltype (P_nom : Q) :
  0 < P_nom ->
  exists lo hi,
    calculate_power_limits fueltype P_nom = Some (lo, hi)
    /\ hi == P_nom
    /\ lo == P_nom *
             (if String.eqb fueltype "nuclear" then 0.5
              else if str_in fueltype ["coal"; "lignite"; "CCGT"; "OCGT"]
                   then 0.4
              else if str_in fueltype ["biomass"; "waste"; "oil"] then 0.3
              else if str_in fueltype ["hydro"; "PHS"; "ror"] then 0.1
              else if str_in fueltype ["wind"; "solar"] then 0
              else if String.eqb fueltype "geothermal" then 0.6
              else 0.2).
Proof.
  intro Hpos.
  destruct (calculate_power_limits fueltype P_nom) as [[lo hi]|] eqn:E.
  2:{ apply calculate_power_limits_none in E. lra. }
  exists lo, hi. split; [reflexivity|].
  revert E. unfold calculate_power_limits, str_in. cbn [existsb].
  destruct (String.eqb fueltype "nuclear");
    [|destruct (String.eqb fueltype "coal");
      [|destruct (String.eqb fueltype "lignite");
        [|destruct (String.eqb fueltype "CCGT");
          [|destruct (String.eqb fueltype "OCGT");
            [|destruct (String.eqb fueltype "biomass");
              [|destruct (String.eqb fueltype "waste");
                [|destruct (String.eqb fueltype "oil");
                  [|destruct (String.eqb fueltype "hydro");
                    [|destruct (String.eqb fueltype "PHS");
                      [|destruct (String.eqb fueltype "ror");
                        [|destruct (String.eqb fueltype "wind");
                          [|destruct (String.eqb fueltype "solar");
                            [|destruct (String.eqb fueltype "geothermal")
    ]]]]]]]]]]]]];
    cbn [orb];
    match goal with
    | |- (if ?c then _ else _) = _ -> _ => destruct c; [discriminate|]
    end;
    intro E; injection E as <- <-; split; ring.
Qed.

(** C5 (the code at every failing input).  For a generator asset whose
    computed range is invalid, [create_gen_or_load] adds a row bound to the
    resolved bus with [min_p_mw = max_p_mw = 0]; the row is created with
    [controllable = True] and with the asset's marginal cost, like every
    other generator: nothing marks it as non-dispatchable. *)
Theorem create_gen_invalid_range {geometry} (centroid : geometry -> Q * Q)
  (net : network)
  (e : element geometry) (closest : nat) (s : rstate) :
  calculate_power_limits (el_fueltype e) (el_capacity e) = None ->
  exists g,
    create_gen_branch centroid false net e closest s
    = (inr tt,
       mkRstate (set_net_gen (net_gen (rs_net s) ++ [g]) (rs_net s))
         (rs_kdtrees s))
    /\ gen_bus g = closest
    /\ gen_min_p_mw g = Some 0
    /\ gen_max_p_mw g = Some 0
    /\ gen_controllable g = true
    /\ gen_cost_per_mw g
       = match el_adjusted_marginal_price e with Some c => c | None => 0 end.
Proof.
  intro H. unfold create_gen_branch. rewrite H.
  eexists. split; [reflexivity|]. repeat split.
Qed.

(** C5, witness: a coal plant of capacity 0. *)
Lemma create_gen_invalid_range_witness :
  exists g,
    create_gen_branch ex_centroid false resolver_net idle_coal_plant 0
      resolver_start
    = (inr tt,
       mkRstate
         (set_net_gen (net_gen (rs_net resolver_start) ++ [g])
            (rs_net resolver_start))
         (rs_kdtrees resolver_start))
    /\ gen_bus g = 0%nat
    /\ gen_min_p_mw g = Some 0
    /\ gen_max_p_mw g = Some 0
    /\ gen_controllable g = true
    /\ gen_cost_per_mw g
       = match el_adjusted_marginal_price idle_coal_plant with
         | Some c => c
         | None => 0
         end.
Proof.
  apply (create_gen_invalid_range ex_centroid resolver_net idle_coal_plant
           0%nat resolver_start).
  vm_compute. reflexivity.
Defined.

(** C5 on a run: the whole resolver on [idle_coal_plant]. *)
Example create_gen_or_load_idle_plant :
  map (fun g => (gen_bus g, gen_min_p_mw g, gen_max_p_mw g,
                 gen_controllable g, gen_cost_per_mw g))
    (net_gen (rs_net (snd (create_gen_or_load ex_within ex_centroid
                             [idle_coal_plant] "gen" false false
                             resolver_start))))
  = [(0%nat, Some 0, Some 0, true, 30)].
Proof. vm_compute. reflexivity. Qed.


(** C6 on a run: the loads the resolver creates for the two regions. *)
Example create_gen_or_load_regions :
  map (fun l => (load_bus l, load_p_mw l, load_num l))
    (net_load (rs_net (snd (create_gen_or_load ex_within ex_centroid
                              [square_region; empty_region] "load" false
                              true resolver_start))))
  = [(0%nat, Some (9 # 2), Some 2); (1%nat, Some (9 # 2), Some 2);
     (2%nat, Some 9, Some 1)].
Proof. vm_compute. reflexivity. Qed.

(** ** The scenario driver *)

Section DriverFacts.
Variable pp : solver_call -> network -> exn + res_summary.

(** When the loop over the time steps returns, it has added one row per
    time step, in the order of the index. *)
Lemma pf_steps_rows calculation ts regions variable steps :
  forall first results_list d rows d',
    pf_steps pp calculation ts regions variable first steps results_list d
    = (inr rows, d') ->
    exists new_rows,
      rows = (results_list ++ new_rows)%list
      /\ map row_time_step new_rows = steps.
Proof.
  induction steps as [|t steps IH]; intros first acc d rows d' H.
  - cbn in H. injection H as <- <-. exists []. split.
    + rewrite app_nil_r. reflexivity.
    + reflexivity.
  - cbn [pf_steps] in H. unfold bind at 1 in H.
    destruct (pf_step pp calculation ts regions variable first t d)
      as [[e|row] d1] eqn:E; [discriminate|].
    destruct (IH _ _ _ _ _ H) as [new_rows [-> Hsteps]].
    exists (row :: new_rows). split.
    + rewrite <- app_assoc. reflexivity.
    + cbn [map]. f_equal; [|exact Hsteps].
      revert E. unfold pf_step, bind, get, ret.
      destruct (on_world _ d) as [[e1|[]] d2]; [discriminate|].
      destruct (on_world _ d2) as [[e2|[]] d3]; [discriminate|].
      destruct (run_calculation pp calculation d3) as [[e3|[]] d4];
        [discriminate|].
      intro E. injection E as <- _. reflexivity.
Qed.

Lemma time_series_pf_results_rows calculation ts regions force variable d
  rows d' :
  time_series_pf_results pp calculation ts regions force variable d
  = (inr rows, d') ->
  map row_time_step rows = ts_index ts.
Proof.
  unfold time_series_pf_results. intro H.
  destruct (pf_steps_rows _ _ _ _ _ _ _ _ _ _ H) as [new_rows [-> Hs]].
  exact Hs.
Qed.
End DriverFacts.

(** C8 (the code at the failing input).  [offshore_net] has an offshore
    wind unit and the series has no wind column at all.  The prefixes for
    onshore and offshore wind stay unset, the prefix for the combined wind
    column is set, its list of matching columns is empty but not [None],
    and [matching_columns_wind[0]] raises [IndexError]: [update_loads]
    does not skip the allocation, and the driver returns no summary row.
    On [coal_net], where no wind column is expected, the same series gives
    one row per time step. *)
Theorem update_loads_missing_wind_column :
  fst (update_loads load_only_series de_regions 0 true false
         (mkWorld offshore_net None)) = inl IndexError
  /\ fst (time_series_pf_results converging_solver "dc_opf"
            load_only_series de_regions true false (start_of offshore_net))
     = inl IndexError
  /\ (exists rows,
        fst (time_series_pf_results converging_solver "dc_opf"
               load_only_series de_regions true false (start_of coal_net))
        = inr rows
        /\ map row_time_step rows = [0; 1; 2]%nat).
Proof.
  split; [vm_compute; reflexivity|].
  split; [vm_compute; reflexivity|].
  eexists. split; [vm_compute; reflexivity|reflexivity].
Qed.

(** ** The fallback protocol *)

Section FallbackFacts.
Variable pp : solver_call -> network -> exn + res_summary.
Variable time_series_short : time_series.
Variable processed_regions : list region.

(** The five shapes of the record of the fallback protocol. *)
Lemma fallback_protocol_shape d0 :
  exists o1,
    let '(converged, _, log) :=
      fallback_protocol pp time_series_short processed_regions d0 in
    (converged = true /\ log = [stage1 o1; stage2 true])
    \/ (converged = true
        /\ log = [stage1 o1; stage2 false; ev_relax_conventional;
                  stage3 true])
    \/ (converged = true
        /\ log = [stage1 o1; stage2 false; ev_relax_conventional;
                  stage3 false; ev_relax_controllable; stage4 true])
    \/ (converged = true
        /\ log = [stage1 o1; stage2 false; ev_relax_conventional;
                  stage3 false; ev_relax_controllable; stage4 false;
                  ev_curtail_loads; stage5 true])
    \/ (converged = false
        /\ log = [stage1 o1; stage2 false; ev_relax_conventional;
                  stage3 false; ev_relax_controllable; stage4 false;
                  ev_curtail_loads; stage5 false; ev_diagnostic]).
Proof.
  unfold fallback_protocol. cbn [negb].
  destruct (handle_pf_results pp time_series_short processed_regions
              "ac_pf" false d0) as [o1 d1].
  exists o1.
  destruct (handle_pf_results pp time_series_short processed_regions
              "dc_opf" false d1) as [[|] d2].
  { left. split; reflexivity. }
  destruct (handle_pf_results pp time_series_short processed_regions
              "dc_opf" false _) as [[|] d3].
  { right. left. split; reflexivity. }
  destruct (handle_pf_results pp time_series_short processed_regions
              "dc_opf" true _) as [[|] d4].
  { right. right. left. split; reflexivity. }
  destruct (handle_pf_results pp time_series_short processed_regions
              "dc_opf" true _) as [[|] d5].
  { right. right. right. left. split; reflexivity. }
  right. right. right. right. split; reflexivity.
Qed.

(** Whatever the first call returns, the second event is the first DC OPF
    attempt. *)
Lemma fallback_protocol_always_runs_dc_opf d0 :
  exists o1 o2 rest,
    snd (fallback_protocol pp time_series_short processed_regions d0)
    = stage1 o1 :: stage2 o2 :: rest.
Proof.
  destruct (fallback_protocol_shape d0) as [o1 H].
  destruct (fallback_protocol pp time_series_short processed_regions d0)
    as [[c d] log].
  cbn [snd].
  destruct H as [[_ ->]|[[_ ->]|[[_ ->]|[[_ ->]|[_ ->]]]]];
    exists o1; eexists; eexists; reflexivity.
Qed.

(** C7 (as amended).  If stage 5 fails, the record of the run is exactly:
    the five attempts with the three relaxations in between, the
    diagnostic output, and then one further step that the five stages do
    not include: every generator's [scaling] is set to the ratio of load to
    generation and the AC power flow is run once more over the time series,
    any exception of that run being caught.  Nothing follows it. *)
Theorem power_flow_with_fallback_exhausted d0 :
  In (stage5 false)
    (snd (power_flow_with_fallback pp time_series_short processed_regions
            d0)) ->
  exists o1 scaling_factor raised,
    snd (power_flow_with_fallback pp time_series_short processed_regions d0)
    = [stage1 o1; stage2 false; ev_relax_conventional; stage3 false;
       ev_relax_controllable; stage4 false; ev_curtail_loads; stage5 false;
       ev_diagnostic; ev_scaling scaling_factor; ev_retry "ac_pf" raised].
Proof.
  unfold power_flow_with_fallback.
  destruct (fallback_protocol_shape d0) as [o1 H].
  destruct (fallback_protocol pp time_series_short processed_regions d0)
    as [[c d] log].
  destruct H as [[-> ->]|[[-> ->]|[[-> ->]|[[-> ->]|[-> ->]]]]];
    cbn [negb snd].
  1-4: intro Hin; cbn [In] in Hin; exfalso;
    repeat (destruct Hin as [Hin|Hin]; [discriminate Hin|]); exact Hin.
  intros _. unfold scaling_retry.
  destruct (time_series_pf_results pp "ac_pf" time_series_short
              processed_regions true false _) as [[e|rows] d''];
    cbn [snd app]; exists o1; eexists; eexists; reflexivity.
Qed.
End FallbackFacts.

(** C7, witness: the solver never converges. *)
Lemma power_flow_with_fallback_exhausted_witness :
  exists o1 scaling_factor raised,
    snd (power_flow_with_fallback failing_solver load_only_series de_regions
           (start_of coal_net))
    = [stage1 o1; stage2 false; ev_relax_conventional; stage3 false;
       ev_relax_controllable; stage4 false; ev_curtail_loads; stage5 false;
       ev_diagnostic; ev_scaling scaling_factor; ev_retry "ac_pf" raised].
Proof.
  apply (power_flow_with_fallback_exhausted failing_solver load_only_series
           de_regions (start_of coal_net)).
  vm_compute. do 7 right. left. reflexivity.
Defined.

(** C7, counterexample to the claim as stated: with a solver that never
    converges, the events after the failure of stage 5 and the diagnostic
    output are a further change of the network (the generators' scaling is
    set to 1/2) and a further solve attempt (AC power flow, which
    raises). *)
Lemma power_flow_with_fallback_counterexample :
  snd (power_flow_with_fallback failing_solver load_only_series de_regions
         (start_of coal_net))
  = [stage1 false; stage2 false; ev_relax_conventional; stage3 false;
     ev_relax_controllable; stage4 false; ev_curtail_loads; stage5 false;
     ev_diagnostic; ev_scaling 0.50; ev_retry "ac_pf" true]
  /\ map gen_scaling
       (net_gen (w_net (dr_world
          (fst (power_flow_with_fallback failing_solver load_only_series
                  de_regions (start_of coal_net))))))
     = [0.50].
Proof. split; vm_compute; reflexivity. Qed.

(** C2 (the code at the failing input).  With a solver that always
    converges, stage 1 (plain AC power flow) succeeds, and the protocol
    still runs the first DC OPF stage. *)
Theorem fallback_protocol_discards_stage1 :
  snd (power_flow_with_fallback converging_solver load_only_series
         de_regions (start_of coal_net))
  = [ev_attempt 1 "ac_pf" false true; ev_attempt 2 "dc_opf" false true].
Proof. vm_compute. reflexivity. Qed.

(** * Further properties of the embedded code *)

(** ** [allocate_renewable_generation]: what a call keeps and what it
    writes *)

Lemma Forall2_map_r {A B} (R : A -> B -> Prop) (f : A -> B) (l : list A) :
  (forall a, In a l -> R a (f a)) -> Forall2 R l (map f l).
Proof.
  induction l as [|a l IH]; intro H; cbn [map]; constructor.
  - apply H. left. reflexivity.
  - apply IH. intros b Hb. apply H. right. exact Hb.
Qed.

Lemma feq_refl a : feq a a.
Proof. destruct a; cbn; [apply Qeq_refl|exact I]. Qed.

(** The generator table after the call, as one rewrite of every row. *)
Lemma allocate_gens_rows gens cg r :
  exists s : option Q,
    allocate_gens gens cg r
    = map (fun g =>
             let g1 := if in_tech r g
                       then set_gen_p_mw
                              (fmul (gen_normed_p_mw g)
                                 (capped_generation gens cg r)) g
                       else g in
             let g2 := if in_tech r g1
                       then set_gen_p_mw
                              (fsub (gen_p_mw g1) (Some (excess_of g1))) g1
                       else g1 in
             let g3 := match s with
                       | Some sf =>
                           if available g2 then redistribute_row sf g2 else g2
                       | None => g2
                       end in
             let g4 := if in_tech r g3
                       then set_gen_min_p_mw (gen_p_mw g3) g3 else g3 in
             if in_tech r g4 then set_gen_max_p_mw (gen_p_mw g4) g4 else g4)
        gens
    /\ (forall sf, s = Some sf ->
          sf == total_excess gens cg r
                / total_available_capacity (clipped_gens gens cg r)).
Proof.
  unfold allocate_gens, redistribute.
  destruct (filter available (clipped_gens gens cg r)) as [|x xs].
  - exists None. split; [|discriminate].
    unfold freeze_limits, clipped_gens, clip_to_nameplate, assign_initial,
      update_where.
    rewrite !map_map. reflexivity.
  - destruct (Qltb 0 (total_available_capacity (clipped_gens gens cg r))).
    + exists (Some (total_excess gens cg r
                    / total_available_capacity (clipped_gens gens cg r))).
      split.
      * unfold freeze_limits, clipped_gens, clip_to_nameplate,
          assign_initial, update_where.
        rewrite !map_map. reflexivity.
      * intros sf H. injection H as <-. apply Qeq_refl.
    + exists None. split; [|discriminate].
      unfold freeze_limits, clipped_gens, clip_to_nameplate, assign_initial,
        update_where.
      rewrite !map_map. reflexivity.
Qed.

Ltac gen_fields :=
  cbn [gen_tech set_gen_p_mw gen_p_mw gen_idx gen_bus gen_name gen_vm_pu
       gen_slack gen_scaling gen_controllable gen_min_p_mw gen_max_p_mw
       gen_cost_per_mw gen_type gen_p_mw_original gen_normed_p_mw
       gen_country gen_in_service set_gen_min_p_mw set_gen_max_p_mw
       set_gen_tech set_gen_normed_p_mw set_gen_country set_gen_scaling].

(** X1.  A call of [allocate_renewable_generation] keeps the rows of the
    generator table and their order, and writes no column other than
    [p_mw], [min_p_mw] and [max_p_mw].  Every unit of the technology leaves
    with both limits equal to its dispatch; every other unit leaves with
    the limits it had (its dispatch may have received a share of the
    excess). *)
Theorem allocate_renewable_generation_frame
  (country_generation : float) (renewable : string) (gens : list gen) :
  Forall2 (allocated_unit renewable) gens
    (allocate_gens gens country_generation renewable).
Proof.
  destruct (allocate_gens_rows gens country_generation renewable)
    as [s [-> _]].
  apply Forall2_map_r. intros g _.
  unfold allocated_unit, same_unit, in_tech.
  destruct g as [idx bus name p vm sl sc co mn mx cost ty te orig nm cy ins].
  gen_fields.
  destruct (String.eqb te renewable) eqn:E;
    repeat (progress gen_fields || rewrite E);
    destruct s as [sf|];
    try match goal with
        | |- context [available ?g] => destruct (available g)
        end;
    unfold redistribute_row;
    repeat (progress gen_fields || rewrite E);
    (split; [reflexivity|split; intro; try discriminate; split; reflexivity]).
Qed.

(** *** A missing observation *)

Lemma capped_generation_missing gens r : capped_generation gens None r = None.
Proof. reflexivity. Qed.

Lemma fmul_missing a : fmul a None = None.
Proof. destruct a; reflexivity. Qed.

Lemma total_excess_missing gens r : total_excess gens None r == 0.
Proof.
  unfold total_excess, excess_generation, assign_initial, update_where.
  rewrite capped_generation_missing.
  induction gens as [|g gens IH]; [reflexivity|].
  cbn [map filter].
  destruct (in_tech r g) eqn:E.
  - rewrite in_tech_set_p_mw, E. cbn [map Qsum].
    unfold excess_of at 1. cbn [gen_p_mw set_gen_p_mw].
    rewrite fmul_missing. cbn [fsub]. rewrite IH. reflexivity.
  - rewrite E. exact IH.
Qed.

Lemma Qdiv_0_l (a b : Q) : a == 0 -> a / b == 0.
Proof. intro H. unfold Qdiv. rewrite H. apply Qmult_0_l. Qed.

(** A row with headroom that receives a share of an excess of 0 keeps the
    value of its dispatch. *)
Lemma redistribute_row_nothing sf g :
  sf == 0 -> available g = true -> same_dispatch g (redistribute_row sf g).
Proof.
  intros Hsf Ha. destruct (available_headroom _ Ha) as [p [Hp _]].
  unfold same_dispatch, same_unit, redistribute_row, headroom.
  destruct g as [idx bus name p0 vm sl sc co mn mx cost ty te orig nm cy ins].
  gen_fields. cbn [gen_p_mw] in Hp. subst p0.
  repeat split. cbn [fsub fmul fadd feq]. rewrite Hsf. ring.
Qed.

Lemma same_dispatch_refl g : same_dispatch g g.
Proof.
  unfold same_dispatch, same_unit.
  destruct g as [idx bus name p vm sl sc co mn mx cost ty te orig nm cy ins].
  gen_fields. repeat split. apply feq_refl.
Qed.

(** X2.  With a missing observation (NaN in the time series) the call sets
    the dispatch and both limits of every unit of the technology to
    missing, and keeps the dispatch value and the limits of every other
    unit; after the [fillna(0)] of [time_series_pf_results] the units of
    the technology are at 0 with both limits 0. *)
Theorem allocate_renewable_generation_missing_observation
  (renewable : string) (network : network) :
  let gens := net_gen network in
  let gens' := allocate_gens gens None renewable in
  Forall2 (switched_off_unit renewable) gens gens'
  /\ Forall2
       (fun g g' =>
          in_tech renewable g = true ->
          gen_p_mw g' = Some 0 /\ gen_min_p_mw g' = Some 0
          /\ gen_max_p_mw g' = Some 0)
       gens
       (net_gen (fill_missing_dispatch (set_net_gen gens' network))).
Proof.
  intros gens gens'.
  assert (H : Forall2 (switched_off_unit renewable) gens gens').
  { subst gens'.
    destruct (allocate_gens_rows gens None renewable) as [s [-> Hs]].
    apply Forall2_map_r. intros g _.
    assert (Hz : forall sf, s = Some sf -> sf == 0).
    { intros sf Hsf. rewrite (Hs sf Hsf).
      apply Qdiv_0_l. apply total_excess_missing. }
    clear Hs. rewrite capped_generation_missing.
    unfold switched_off_unit.
    destruct (in_tech renewable g) eqn:E.
    - rewrite fmul_missing.
      cbv zeta. rewrite !in_tech_set_p_mw, E.
      cbn [gen_p_mw set_gen_p_mw fsub].
      assert (Ha : forall v, available (set_gen_p_mw None v) = false)
        by reflexivity.
      rewrite !Ha.
      destruct g as [idx bus name p vm sl sc co mn mx cost ty te orig nm cy ins].
      unfold in_tech in *. cbn [gen_tech] in E.
      destruct s as [sf|]; repeat (progress gen_fields || rewrite E);
        repeat split.
    - cbv zeta. rewrite E.
      destruct s as [sf|].
      + destruct (available g) eqn:Ea.
        * change (in_tech renewable (redistribute_row sf g))
            with (in_tech renewable g).
          rewrite E.
          change (in_tech renewable (redistribute_row sf g))
            with (in_tech renewable g).
          rewrite E. apply redistribute_row_nothing; [|exact Ea].
          apply Hz. reflexivity.
        * rewrite E, E. apply same_dispatch_refl.
      + rewrite E, E. apply same_dispatch_refl. }
  split; [exact H|].
  unfold fill_missing_dispatch. cbn [net_gen set_net_gen].
  induction H as [|g g' l l' Hg _ IH]; cbn [map]; constructor; [|exact IH].
  intro E. unfold switched_off_unit in Hg. rewrite E in Hg.
  destruct Hg as [Hp [Hmin Hmax]].
  destruct g' as [idx bus name p vm sl sc co mn mx cost ty te orig nm cy ins].
  cbn in *. subst. repeat split.
Qed.

(** *** A technology without units *)

Lemma update_where_nowhere {A} (mask : A -> bool) f (l : list A) :
  forallb (fun a => negb (mask a)) l = true -> update_where mask f l = l.
Proof.
  unfold update_where. induction l as [|a l IH]; [reflexivity|].
  cbn [forallb map]. intro H. apply andb_true_iff in H. destruct H as [Ha Hl].
  apply negb_true_iff in Ha. rewrite Ha, (IH Hl). reflexivity.
Qed.

Lemma filter_nowhere {A} (mask : A -> bool) (l : list A) :
  forallb (fun a => negb (mask a)) l = true -> filter mask l = [].
Proof.
  induction l as [|a l IH]; [reflexivity|].
  cbn [forallb filter]. intro H. apply andb_true_iff in H.
  destruct H as [Ha Hl]. apply negb_true_iff in Ha. rewrite Ha. exact (IH Hl).
Qed.

(** When no unit has the technology, the call changes the value of no
    dispatch and no limit. *)
Lemma allocate_gens_no_unit gens cg r :
  no_unit_of r gens -> Forall2 same_dispatch gens (allocate_gens gens cg r).
Proof.
  unfold no_unit_of. intro Hno.
  assert (HE : total_excess gens cg r == 0).
  { unfold total_excess, excess_generation, assign_initial.
    rewrite (update_where_nowhere _ _ _ Hno), (filter_nowhere _ _ Hno).
    reflexivity. }
  destruct (allocate_gens_rows gens cg r) as [s [-> Hs]].
  apply Forall2_map_r. intros g Hg.
  assert (E : in_tech r g = false).
  { rewrite forallb_forall in Hno. apply negb_true_iff. exact (Hno g Hg). }
  cbv zeta. rewrite E. rewrite E.
  destruct s as [sf|].
  - destruct (available g) eqn:Ea.
    + change (in_tech r (redistribute_row sf g)) with (in_tech r g).
      rewrite E.
      change (in_tech r (redistribute_row sf g)) with (in_tech r g).
      rewrite E. apply redistribute_row_nothing; [|exact Ea].
      rewrite (Hs sf eq_refl). apply Qdiv_0_l. exact HE.
    + rewrite E, E. apply same_dispatch_refl.
  - rewrite E, E. apply same_dispatch_refl.
Qed.

Lemma mark_solar_no_unit gens :
  solar_spelled_on_solar_only gens -> no_unit_of "Solar" (mark_solar gens).
Proof.
  unfold solar_spelled_on_solar_only, no_unit_of, mark_solar, update_where.
  intro H. rewrite forallb_forall in *. intros g' Hg'.
  apply in_map_iff in Hg'. destruct Hg' as [g [<- Hin]].
  specialize (H g Hin). unfold in_tech.
  destruct (String.eqb (gen_type g) "solar") eqn:Et.
  - reflexivity.
  - destruct (String.eqb (gen_tech g) "Solar"); [discriminate|reflexivity].
Qed.

(** [update_loads] with its line 230 named. *)
Lemma update_loads_marks_solar ts regions time_step force_update variable :
  update_loads ts regions time_step force_update variable
  = (create_values_per_country regions force_update ;;;
     modify (fun w =>
       set_w_net (set_net_gen (mark_solar (net_gen (w_net w))) (w_net w)) w)
     ;;;
     update_regions ts time_step variable
       (mkWindColumns None None None None None None) regions).
Proof. reflexivity. Qed.

(** X3.  [update_loads] renames the technology of every unit of type
    "solar" to "solar" (line 230) and allocates the solar observation to
    the technology "Solar" (line 369).  If the only units spelled "Solar"
    are units of type "solar", no unit has the technology "Solar" after the
    renaming, and the allocation changes the value of no dispatch and no
    limit, whatever the observation. *)
Theorem solar_allocation_changes_nothing
  (gens : list gen) (country_generation : float) :
  solar_spelled_on_solar_only gens ->
  no_unit_of "Solar" (mark_solar gens)
  /\ Forall2 same_dispatch (mark_solar gens)
       (allocate_gens (mark_solar gens) country_generation "Solar").
Proof.
  intro H. pose proof (mark_solar_no_unit gens H) as Hno.
  split; [exact Hno|]. apply allocate_gens_no_unit. exact Hno.
Qed.

(** X3, witness: the photovoltaic park and the coal unit, with an
    observation of 80 MW. *)
Lemma solar_allocation_changes_nothing_witness :
  no_unit_of "Solar" (mark_solar solar_park_gens)
  /\ Forall2 same_dispatch (mark_solar solar_park_gens)
       (allocate_gens (mark_solar solar_park_gens) (Some 80) "Solar").
Proof.
  apply (solar_allocation_changes_nothing solar_park_gens (Some 80)).
  reflexivity.
Defined.

(** ** The resolver: where rows go and what they carry *)

Lemma fsum_app (l1 l2 : list float) : fsum (l1 ++ l2) == fsum l1 + fsum l2.
Proof.
  induction l1 as [|[x|] l1 IH]; cbn [app fsum].
  - ring.
  - rewrite IH. ring.
  - exact IH.
Qed.

(** A range that [calculate_power_limits] returns is a range below the
    nameplate. *)
Lemma calculate_power_limits_range fueltype (P_nom lo hi : Q) :
  calculate_power_limits fueltype P_nom = Some (lo, hi) ->
  0 <= lo /\ lo < hi /\ hi == P_nom.
Proof.
  unfold calculate_power_limits.
  repeat match goal with
         | |- context [if ?c then (_, _) else _] => destruct c
         end;
    match goal with
    | |- (if Qltb ?a 0 || Qle_bool ?b ?a then _ else _) = _ -> _ =>
        destruct (Qltb a 0) eqn:E1; [discriminate|];
        destruct (Qle_bool b a) eqn:E2; [discriminate|]
    end;
    cbn [orb]; intro H; injection H as <- <-;
    apply Qltb_false in E1;
    match type of E2 with
    | Qle_bool ?b ?a = false =>
        assert (E3 : ~ b <= a)
          by (intro L; apply Qle_bool_iff in L; congruence)
    end;
    repeat split; try lra; try ring.
Qed.

Section ResolverRows.
Variable geometry : Type.
Variable within : Q * Q -> geometry -> bool.
Variable centroid : geometry -> Q * Q.

(** Looking for the bus of an asset never writes to the network. *)
Lemma closest_bus_net net (e : element geometry) s :
  rs_net (snd (closest_bus within centroid net e s)) = rs_net s.
Proof.
  unfold closest_bus, bind, KDTree, loc, index_at, ret, raise.
  destruct (buses_within_polygon within net e) as [|g0 W].
  - destruct (nth_error _ _); reflexivity.
  - destruct (loc_rows bus_idx _ _) as [L|]; [|reflexivity].
    destruct (loc_rows geo_idx _ _) as [C|]; [|reflexivity].
    destruct (nth_error _ _); reflexivity.
Qed.

Lemma closest_bus_net_eq net (e : element geometry) s r s' :
  closest_bus within centroid net e s = (r, s') -> rs_net s' = rs_net s.
Proof.
  intro H. rewrite <- (closest_bus_net net e s), H. reflexivity.
Qed.

(** A turn for a load adds rows that carry the demand of the region. *)
Lemma resolve_element_load dg dl (e : element geometry) s b s' :
  resolve_element within centroid "load" dg dl e s = (inr b, s') ->
  exists new,
    rs_net s' = set_net_load (net_load (rs_net s) ++ new) (rs_net s)
    /\ fsum (map load_p_mw new) == el_load_factor e
    /\ Forall (fun l => load_name l = el_id e) new.
Proof.
  unfold resolve_element. unfold bind at 1. unfold get.
  unfold bind at 1.
  destruct (closest_bus within centroid (rs_net s) e s) as [[ex|c] s1] eqn:Ec;
    [discriminate|].
  apply closest_bus_net_eq in Ec.
  cbn [String.eqb Ascii.eqb Bool.eqb andb].
  unfold bind. unfold create_load_branch.
  destruct dl; cbn [negb].
  - remember (buses_within_polygon within (rs_net s) e) as rows eqn:EW.
    destruct rows as [|g0 W].
    + unfold create_load, update_net, ret. intro H. injection H as _ <-.
      eexists. cbn [rs_net]. rewrite Ec. split; [reflexivity|].
      split; [cbn; ring|]. repeat constructor.
    + set (rows := (g0 :: W)%list).
      assert (Hpos : 0 < inject_Z (Z.of_nat (List.length rows)))
        by (apply inject_nat_pos; cbn; lia).
      clearbody rows.
      rewrite for_each_create_load. unfold ret. intro H.
      injection H as _ <-.
      exists (even_loads e rows). cbn [rs_net]. rewrite Ec.
      split; [reflexivity|]. split.
      * unfold even_loads. rewrite map_map. cbn [load_p_mw].
        rewrite fsum_const. field. lra.
      * apply Forall_forall. intros l Hl. apply in_map_iff in Hl.
        destruct Hl as [row [<- _]]. reflexivity.
  - unfold create_load, update_net, ret. intro H. injection H as _ <-.
    eexists. cbn [rs_net]. rewrite Ec. split; [reflexivity|].
    split; [cbn; ring|]. repeat constructor.
Qed.

(** X7.  On success, [create_gen_or_load] with element type "load" only
    appends rows to the load table, and the rows it appends carry, in
    total, the sum of the regions' demands: this holds with and without
    even distribution. *)
Theorem create_load_conserves_demand (gdf : list (element geometry))
  (dg dl : bool) (s s' : rstate) :
  create_gen_or_load within centroid gdf "load" dg dl s = (inr tt, s') ->
  exists new,
    rs_net s' = set_net_load (net_load (rs_net s) ++ new) (rs_net s)
    /\ fsum (map load_p_mw new) == Qsum (map el_load_factor gdf)
    /\ Forall (fun l => In (load_name l) (map el_id gdf)) new.
Proof.
  unfold create_gen_or_load. revert s s'.
  induction gdf as [|e gdf IH]; intros s s' H.
  - cbn in H. injection H as <-. exists []. rewrite app_nil_r.
    split; [destruct s as [[bs bg gs ls] k]; reflexivity|].
    split; [reflexivity|constructor].
  - cbn [resolve_all] in H. unfold bind in H.
    destruct (resolve_element within centroid "load" dg dl e s)
      as [[ex|b] s1] eqn:E; [discriminate|].
    assert (b = true).
    { eapply resolve_element_goes_on; [right; reflexivity|exact E]. }
    subst b.
    destruct (resolve_element_load _ _ _ _ _ _ E) as [new1 [H1 [Hs1 Hn1]]].
    destruct (IH _ _ H) as [new2 [H2 [Hs2 Hn2]]].
    exists (new1 ++ new2)%list. split; [|split].
    + rewrite H2, H1. cbn [net_load set_net_load net_bus net_bus_geodata net_gen].
      rewrite <- app_assoc. reflexivity.
    + rewrite map_app, fsum_app, Hs1, Hs2. cbn [map Qsum]. ring.
    + apply Forall_app. split.
      * eapply Forall_impl; [|exact Hn1]. intros l Hl. left.
        symmetry. exact Hl.
      * eapply Forall_impl; [|exact Hn2]. intros l Hl. right. exact Hl.
Qed.

Lemma resolve_element_unknown_type (T : string) dg dl (e : element geometry) s :
  T <> "gen" -> T <> "load" ->
  resolve_element within centroid T dg dl e s
  = match closest_bus within centroid (rs_net s) e s with
    | (inl ex, s1) => (inl ex, s1)
    | (inr _, s1) => (inr false, s1)
    end.
Proof.
  intros Hg Hl. apply String.eqb_neq in Hg, Hl.
  unfold resolve_element, bind, get. rewrite Hg, Hl. reflexivity.
Qed.

(** X8.  With an element type other than "gen" and "load" the function
    looks at the first asset only and leaves the network as it was. *)
Theorem create_gen_or_load_unknown_type (gdf : list (element geometry))
  (T : string) (dg dl : bool) (s : rstate) :
  T <> "gen" -> T <> "load" ->
  rs_net (snd (create_gen_or_load within centroid gdf T dg dl s)) = rs_net s
  /\ create_gen_or_load within centroid gdf T dg dl s
     = create_gen_or_load within centroid (firstn 1 gdf) T dg dl s.
Proof.
  intros Hg Hl.
  unfold create_gen_or_load. destruct gdf as [|e gdf]; [split; reflexivity|].
  cbn [firstn resolve_all]. unfold bind.
  rewrite (resolve_element_unknown_type T dg dl e s Hg Hl).
  pose proof (closest_bus_net (rs_net s) e s) as Hn.
  destruct (closest_bus within centroid (rs_net s) e s) as [[ex|c] s1];
    split; solve [exact Hn | reflexivity].
Qed.

(** The generator branch, when it returns, has added one row written from
    the plant. *)
Lemma create_gen_branch_row dg net (e : element geometry) closest s1 s2 :
  create_gen_branch centroid dg net e closest s1 = (inr tt, s2) ->
  exists g,
    rs_net s2 = set_net_gen (net_gen (rs_net s1) ++ [g]) (rs_net s1)
    /\ created_from e g.
Proof.
  unfold create_gen_branch.
  assert (Hlim :
    exists lo hi,
      (match calculate_power_limits (el_fueltype e) (el_capacity e) with
       | Some (lo, hi) => (lo, hi)
       | None => (0, 0)
       end) = (lo, hi)
      /\ 0 <= lo /\ lo <= hi
      /\ (0 < el_capacity e -> lo < hi /\ hi == el_capacity e)
      /\ (el_capacity e <= 0 -> lo == 0 /\ hi == 0)).
  { destruct (calculate_power_limits (el_fueltype e) (el_capacity e))
      as [[lo hi]|] eqn:El.
    - destruct (calculate_power_limits_range _ _ _ _ El) as [H0 [Hlt Hhi]].
      exists lo, hi. repeat split; lra.
    - apply calculate_power_limits_none in El.
      exists 0, 0. repeat split; lra. }
  destruct Hlim as [lo [hi [-> Hrange]]].
  unfold bind at 1.
  match goal with
  | |- context [(if dg then ?a else ?b) s1] =>
      assert (Hb : forall r s', (if dg then a else b) s1 = (r, s') ->
                                rs_net s' = rs_net s1)
  end.
  { intros r s'. destruct dg.
    - unfold bind, KDTree, index_at, ret, raise.
      destruct (nth_error _ _); intro H; injection H as _ <-; reflexivity.
    - unfold ret. intro H. injection H as _ <-. reflexivity. }
  match goal with
  | |- context [(if dg then ?a else ?b) s1] =>
      destruct ((if dg then a else b) s1) as [[ex|c] s1'] eqn:Ec
  end; [discriminate|].
  specialize (Hb _ _ eq_refl).
  unfold create_gen, update_net. intro H. injection H as <-.
  eexists. cbn [rs_net]. rewrite Hb. split; [reflexivity|].
  unfold created_from. cbn.
  repeat (split; [reflexivity|]).
  exists lo, hi. split; [reflexivity|]. split; [reflexivity|]. exact Hrange.
Qed.

(** A turn for a plant adds one generator row. *)
Lemma resolve_element_gen dg dl (e : element geometry) s b s' :
  resolve_element within centroid "gen" dg dl e s = (inr b, s') ->
  exists g,
    rs_net s' = set_net_gen (net_gen (rs_net s) ++ [g]) (rs_net s)
    /\ created_from e g.
Proof.
  unfold resolve_element. unfold bind at 1. unfold get.
  unfold bind at 1.
  destruct (closest_bus within centroid (rs_net s) e s) as [[ex|c] s1] eqn:Ec;
    [discriminate|].
  apply closest_bus_net_eq in Ec.
  cbn [String.eqb Ascii.eqb Bool.eqb andb].
  unfold bind.
  destruct (create_gen_branch centroid dg (rs_net s) e c s1)
    as [[ex|[]] s2] eqn:Eg; [discriminate|].
  unfold ret. intro H. injection H as _ <-.
  destruct (create_gen_branch_row _ _ _ _ _ _ Eg) as [g [Hn Hc]].
  exists g. rewrite Hn, Ec. split; [reflexivity|exact Hc].
Qed.


End ResolverRows.

Lemma NoDup_map_inj {A} (f : A -> nat) (l : list A) a1 a2 :
  NoDup (map f l) -> In a1 l -> In a2 l -> f a1 = f a2 -> a1 = a2.
Proof.
  induction l as [|a l IH]; cbn [map In]; [contradiction|].
  intros Hnd H1 H2 E. inversion Hnd as [|x xs Hx Hnd']. subst.
  destruct H1 as [<-|H1], H2 as [<-|H2].
  - reflexivity.
  - exfalso. apply Hx. rewrite E. apply in_map. exact H2.
  - exfalso. apply Hx. rewrite <- E. apply in_map. exact H1.
  - apply IH; assumption.
Qed.

Lemma Qmin_list_le_head x l : Qmin_list x l <= x.
Proof.
  revert x. induction l as [|y l IH]; intro x; cbn [Qmin_list].
  - apply Qle_refl.
  - eapply Qle_trans; [apply IH|].
    destruct (Qltb y x) eqn:E; [|apply Qle_refl].
    apply Qltb_true in E. lra.
Qed.

Lemma Qmin_list_le x l y : In y (x :: l) -> Qmin_list x l <= y.
Proof.
  revert x. induction l as [|z l IH]; intros x H; cbn [Qmin_list].
  - destruct H as [<-|[]]. apply Qle_refl.
  - destruct H as [<-|[<-|H]].
    + eapply Qle_trans; [apply Qmin_list_le_head|].
      destruct (Qltb z x) eqn:E; [|apply Qle_refl].
      apply Qltb_true in E. lra.
    + eapply Qle_trans; [apply Qmin_list_le_head|].
      destruct (Qltb z x) eqn:E; [apply Qle_refl|].
      apply Qltb_false in E. exact E.
    + apply IH. right. exact H.
Qed.

Lemma nth_error_map_inv {A B} (f : A -> B) (l : list A) k y :
  nth_error (map f l) k = Some y ->
  exists a, nth_error l k = Some a /\ f a = y.
Proof.
  rewrite nth_error_map. destruct (nth_error l k) as [a|]; [|discriminate].
  cbn. intro H. injection H as <-. exists a. split; reflexivity.
Qed.

(** *** The bus an asset is bound to *)

Section LowestVoltage.
Variable geometry : Type.
Variable within : Q * Q -> geometry -> bool.
Variable centroid : geometry -> Q * Q.

(** X4.  On a network whose bus table has distinct index labels and
    geodata in the same order: when real substations of the asset's zone
    lie within the asset's geometry, the resolver returns one of them, its
    nominal voltage is the lowest among those within the geometry, and
    among those of that voltage none is nearer to the centroid. *)
Theorem closest_bus_lowest_voltage (net : network) (e : element geometry)
  (s : rstate) :
  aligned net ->
  buses_within_polygon within net e <> [] ->
  exists b g kd,
    closest_bus within centroid net e s
    = (inr (bus_idx b), mkRstate (rs_net s) kd)
    /\ In b (real_country_buses net e)
    /\ In g (buses_within_polygon within net e)
    /\ geo_idx g = bus_idx b
    /\ forall b' g',
         In b' (net_bus net) ->
         In g' (buses_within_polygon within net e) ->
         geo_idx g' = bus_idx b' ->
         bus_vn_kv b <= bus_vn_kv b'
         /\ (bus_vn_kv b' == bus_vn_kv b ->
             sq_dist (geo_xy g) (centroid (el_geometry e))
             <= sq_dist (geo_xy g') (centroid (el_geometry e))).
Proof.
  intros [Hal Hnd] Hne.
  assert (Hndg : NoDup (map geo_idx (net_bus_geodata net)))
    by (rewrite Hal; exact Hnd).
  assert (Hgeo_in : forall g, In g (real_country_buses_geodata net e) ->
                              In g (net_bus_geodata net)).
  { intros g Hg. unfold real_country_buses_geodata in Hg.
    apply filter_In in Hg. tauto. }
  unfold closest_bus.
  unfold bind at 1. unfold KDTree at 1.
  destruct (buses_within_polygon within net e) as [|g0 W0] eqn:EW;
    [congruence|].
  rewrite <- EW. clear Hne.
  set (W := buses_within_polygon within net e) in *.
  destruct (loc_rows_some bus_idx (net_bus net) (map geo_idx W))
    as [L [EL [HLm HLin]]].
  { intros i Hi. apply in_map_iff in Hi. destruct Hi as [g [<- Hg]].
    apply (within_incl geometry within), real_geodata_label in Hg.
    apply in_map_iff in Hg. destruct Hg as [b [Eb Hb]].
    apply in_map_iff. exists b. split; [exact Eb|].
    apply (real_buses_incl geometry within net e). exact Hb. }
  unfold bind at 1. unfold loc at 1. rewrite EL. unfold ret at 1.
  set (min_voltage := match map bus_vn_kv L with
                      | [] => 0 | v :: r => Qmin_list v r end).
  set (lowest := filter (fun b => Qeq_bool (bus_vn_kv b) min_voltage) L).
  assert (Hmin : forall b, In b L -> min_voltage <= bus_vn_kv b).
  { intros b Hb. subst min_voltage.
    destruct L as [|b0 L0]; [contradiction|].
    cbn [map]. apply Qmin_list_le.
    change (bus_vn_kv b0 :: map bus_vn_kv L0) with (map bus_vn_kv (b0 :: L0)).
    apply in_map. exact Hb. }
  assert (Hlow : lowest <> []).
  { destruct L as [|b0 L0].
    - rewrite EW in HLm. discriminate.
    - subst min_voltage. cbn [map] in *.
      pose proof (Qmin_list_attained (bus_vn_kv b0) (map bus_vn_kv L0)) as Hin.
      change (bus_vn_kv b0 :: map bus_vn_kv L0)
        with (map bus_vn_kv (b0 :: L0)) in Hin.
      apply in_map_iff in Hin. destruct Hin as [b [Eb Hb]].
      intro Hnil.
      assert (Hb' : In b lowest).
      { apply filter_In. split; [exact Hb|].
        apply Qeq_bool_iff. rewrite Eb. apply Qeq_refl. }
      rewrite Hnil in Hb'. exact Hb'. }
  destruct (loc_rows_some geo_idx (real_country_buses_geodata net e)
              (map bus_idx lowest))
    as [C [EC [HCm HCin]]].
  { intros i Hi. apply in_map_iff in Hi. destruct Hi as [b [<- Hb]].
    apply filter_In in Hb. destruct Hb as [Hb _].
    assert (Hlab : In (bus_idx b) (map bus_idx L))
      by (apply in_map; exact Hb).
    rewrite HLm in Hlab. apply in_map_iff in Hlab.
    destruct Hlab as [g [Eg Hg]]. apply in_map_iff.
    exists g. split; [exact Eg|]. apply (within_incl geometry within). exact Hg. }
  unfold bind at 1. unfold loc at 1. rewrite EC. unfold ret at 1.
  unfold bind at 1. unfold KDTree at 1.
  assert (HCne : map geo_xy C <> []).
  { destruct C; [|discriminate].
    cbn in HCm. destruct lowest; [congruence|discriminate]. }
  destruct (KDTree_query_nearest _ (centroid (el_geometry e)) HCne)
    as [p [Hp Hnear]].
  apply nth_error_map_inv in Hp. destruct Hp as [g [Hg <-]].
  assert (Hlab : nth_error (map bus_idx lowest)
                   (KDTree_query (map geo_xy C) (centroid (el_geometry e)))
                 = Some (geo_idx g)).
  { rewrite <- HCm, nth_error_map, Hg. reflexivity. }
  destruct (nth_error_map_inv _ _ _ _ Hlab) as [b [Hb Eb]].
  (* every row of C is the row of W with its label *)
  assert (HCW : forall c, In c C -> In c W).
  { intros c Hc.
    assert (Hl : In (geo_idx c) (map bus_idx lowest))
      by (rewrite <- HCm; apply in_map; exact Hc).
    apply in_map_iff in Hl. destruct Hl as [b1 [Eb1 Hb1]].
    apply filter_In in Hb1. destruct Hb1 as [Hb1 _].
    assert (Hl : In (bus_idx b1) (map geo_idx W))
      by (rewrite <- HLm; apply in_map; exact Hb1).
    apply in_map_iff in Hl. destruct Hl as [g1 [Eg1 Hg1]].
    assert (c = g1).
    { apply (NoDup_map_inj geo_idx (net_bus_geodata net) c g1 Hndg).
      - apply Hgeo_in, HCin. exact Hc.
      - apply Hgeo_in, (within_incl geometry within). exact Hg1.
      - congruence. }
    subst c. exact Hg1. }
  (* a bus of the table whose label is the label of a row of W is in L *)
  assert (HWL : forall b' g', In b' (net_bus net) -> In g' W ->
                              geo_idx g' = bus_idx b' -> In b' L).
  { intros b' g' Hb' Hg' E.
    assert (Hl : In (geo_idx g') (map bus_idx L))
      by (rewrite HLm; apply in_map; exact Hg').
    apply in_map_iff in Hl. destruct Hl as [b1 [Eb1 Hb1]].
    assert (b1 = b').
    { apply (NoDup_map_inj bus_idx (net_bus net) b1 b' Hnd).
      - apply HLin. exact Hb1.
      - exact Hb'.
      - congruence. }
    subst b1. exact Hb1. }
  pose proof (nth_error_In _ _ Hb) as Hbl.
  pose proof Hbl as Hbl'. apply filter_In in Hbl'.
  destruct Hbl' as [HbL Hbv]. apply Qeq_bool_iff in Hbv.
  pose proof (nth_error_In _ _ Hg) as HgC.
  unfold index_at. rewrite Hlab. rewrite <- Eb.
  exists b, g. eexists. split; [reflexivity|].
  split; [|split; [|split]].
  - pose proof (within_incl _ within net e g (HCW g HgC)) as Hr.
    apply real_geodata_label in Hr. apply in_map_iff in Hr.
    destruct Hr as [b1 [Eb1 Hb1]].
    assert (b1 = b).
    { apply (NoDup_map_inj bus_idx (net_bus net) b1 b Hnd).
      - apply (real_buses_incl geometry within net e). exact Hb1.
      - apply HLin. exact HbL.
      - congruence. }
    subst b1. exact Hb1.
  - apply HCW. exact HgC.
  - symmetry. exact Eb.
  - intros b' g' Hb' Hg' E.
    pose proof (HWL b' g' Hb' Hg' E) as Hb'L.
    split.
    + rewrite Hbv. apply Hmin. exact Hb'L.
    + intro Hv. apply Hnear.
      assert (Hb'low : In b' lowest).
      { apply filter_In. split; [exact Hb'L|].
        apply Qeq_bool_iff. rewrite Hv. exact Hbv. }
      assert (Hl : In (bus_idx b') (map geo_idx C))
        by (rewrite HCm; apply in_map; exact Hb'low).
      apply in_map_iff in Hl. destruct Hl as [c [Ec Hc]].
      assert (c = g').
      { apply (NoDup_map_inj geo_idx (net_bus_geodata net) c g' Hndg).
        - apply Hgeo_in, (within_incl geometry within), HCW. exact Hc.
        - apply Hgeo_in, (within_incl geometry within). exact Hg'.
        - congruence. }
      subst c. apply in_map. exact Hc.
Qed.

(** Under [aligned], the geodata rows selected by the labels of a filtered
    bus table are the rows of these buses, in order. *)
Lemma aligned_filter net (P : bus -> bool) :
  aligned net ->
  map geo_idx
    (filter (fun g => isin (geo_idx g) (map bus_idx (filter P (net_bus net))))
       (net_bus_geodata net))
  = map bus_idx (filter P (net_bus net)).
Proof.
  intros [Hm Hnd].
  apply (filter_by_labels P); [exact Hm|].
  intros b Hb. destruct (P b) eqn:E.
  - apply isin_In. apply in_map. apply filter_In. split; assumption.
  - destruct (isin (bus_idx b) _) eqn:Ei; [|reflexivity].
    apply isin_In, in_map_iff in Ei. destruct Ei as [b' [Eb Hb']].
    apply filter_In in Hb'. destruct Hb' as [Hin' HP'].
    assert (b' = b)
      by (apply (NoDup_map_inj bus_idx (net_bus net) b' b Hnd); auto).
    subst b'. congruence.
Qed.

(** X5.  With [distribute_gen], on such a network where the plant's zone
    has a bus: the generator row is bound to a bus of the zone than which
    no bus of the zone is nearer to the plant, whether or not that bus is
    a real substation or in service; the bus resolved before (the argument
    [closest]) is not used. *)
Theorem create_gen_distributed_nearest (net : network)
  (e : element geometry) (closest : nat) (s : rstate) :
  aligned net ->
  country_buses net e <> [] ->
  exists g row s',
    create_gen_branch centroid true net e closest s = (inr tt, s')
    /\ net_gen (rs_net s') = (net_gen (rs_net s) ++ [row])%list
    /\ gen_bus row = geo_idx g
    /\ In g (net_bus_geodata net)
    /\ In (geo_idx g) (map bus_idx (country_buses net e))
    /\ forall g',
         In g' (net_bus_geodata net) ->
         In (geo_idx g') (map bus_idx (country_buses net e)) ->
         sq_dist (geo_xy g) (centroid (el_geometry e))
         <= sq_dist (geo_xy g') (centroid (el_geometry e)).
Proof.
  intros Hal Hne.
  pose proof (aligned_filter net
                (fun b => String.eqb (bus_zone b) (el_zone e)) Hal) as Hlab.
  fold (country_buses net e) in Hlab.
  set (G := filter (fun g => isin (geo_idx g)
                                (map bus_idx (country_buses net e)))
              (net_bus_geodata net)) in *.
  assert (HG : map geo_xy G <> []).
  { intro H. apply map_eq_nil in H. rewrite H in Hlab. cbn in Hlab.
    symmetry in Hlab. apply map_eq_nil in Hlab. contradiction. }
  destruct (KDTree_query_nearest _ (centroid (el_geometry e)) HG)
    as [p [Hp Hnear]].
  apply nth_error_map_inv in Hp. destruct Hp as [g [Hg <-]].
  assert (Hidx : nth_error (map bus_idx (country_buses net e))
                   (KDTree_query (map geo_xy G) (centroid (el_geometry e)))
                 = Some (geo_idx g)).
  { rewrite <- Hlab, nth_error_map, Hg. reflexivity. }
  pose proof (nth_error_In _ _ Hg) as HgG.
  pose proof HgG as HgG'. apply filter_In in HgG'. destruct HgG' as [Hin Hz].
  destruct (match calculate_power_limits (el_fueltype e) (el_capacity e)
            with Some (lo, hi) => (lo, hi) | None => (0, 0) end)
    as [P_min P_max] eqn:Elim.
  exists g. eexists. eexists. split; [|split; [|split; [|split; [|split]]]].
  - unfold create_gen_branch. rewrite Elim.
    unfold bind at 1. unfold bind at 1. unfold KDTree at 1.
    fold G. unfold index_at. rewrite Hidx. unfold ret.
    unfold create_gen, update_net. reflexivity.
  - cbn [rs_net net_gen set_net_gen]. reflexivity.
  - reflexivity.
  - exact Hin.
  - apply isin_In. exact Hz.
  - intros g' Hg' Hz'. apply Hnear. apply in_map.
    apply filter_In. split; [exact Hg'|]. apply isin_In. exact Hz'.
Qed.
End LowestVoltage.

(** *** Runs on the example network *)

Lemma resolver_net_aligned : aligned resolver_net.
Proof.
  split; [reflexivity|].
  repeat constructor; cbn; intuition discriminate.
Qed.

(** X4, witness: of the two real substations inside [square_region], bus 0
    (220 kV) is chosen, not bus 1 (380 kV). *)
Lemma closest_bus_lowest_voltage_witness :
  exists b g kd,
    closest_bus ex_within ex_centroid resolver_net square_region
      resolver_start
    = (inr (bus_idx b), mkRstate (rs_net resolver_start) kd)
    /\ In b (real_country_buses resolver_net square_region)
    /\ In g (buses_within_polygon ex_within resolver_net square_region)
    /\ geo_idx g = bus_idx b
    /\ forall b' g',
         In b' (net_bus resolver_net) ->
         In g' (buses_within_polygon ex_within resolver_net square_region) ->
         geo_idx g' = bus_idx b' ->
         bus_vn_kv b <= bus_vn_kv b'
         /\ (bus_vn_kv b' == bus_vn_kv b ->
             sq_dist (geo_xy g) (ex_centroid (el_geometry square_region))
             <= sq_dist (geo_xy g')
                  (ex_centroid (el_geometry square_region))).
Proof.
  apply (closest_bus_lowest_voltage ex_geometry ex_within ex_centroid
           resolver_net square_region resolver_start).
  - exact resolver_net_aligned.
  - vm_compute. discriminate.
Defined.

(** X5, witness: [central_plant] goes to a bus of zone AA nearest to it
    (on this network the virtual bus 3). *)
Lemma create_gen_distributed_nearest_witness :
  exists g row s',
    create_gen_branch ex_centroid true resolver_net central_plant 0
      resolver_start = (inr tt, s')
    /\ net_gen (rs_net s') = (net_gen (rs_net resolver_start) ++ [row])%list
    /\ gen_bus row = geo_idx g
    /\ In g (net_bus_geodata resolver_net)
    /\ In (geo_idx g) (map bus_idx (country_buses resolver_net central_plant))
    /\ forall g',
         In g' (net_bus_geodata resolver_net) ->
         In (geo_idx g')
           (map bus_idx (country_buses resolver_net central_plant)) ->
         sq_dist (geo_xy g) (ex_centroid (el_geometry central_plant))
         <= sq_dist (geo_xy g') (ex_centroid (el_geometry central_plant)).
Proof.
  apply (create_gen_distributed_nearest ex_geometry ex_centroid resolver_net
           central_plant 0 resolver_start).
  - exact resolver_net_aligned.
  - vm_compute. discriminate.
Defined.

(** With [distribute_gen] the plant is bound to the virtual bus 3; without
    it, to the nearest real substation, bus 1. *)
Example create_gen_distributed_virtual_bus :
  map gen_bus
    (net_gen (rs_net (snd (create_gen_or_load ex_within ex_centroid
                             [central_plant] "gen" true false
                             resolver_start))))
  = [3%nat]
  /\ map gen_bus
       (net_gen (rs_net (snd (create_gen_or_load ex_within ex_centroid
                                [central_plant] "gen" false false
                                resolver_start))))
     = [1%nat].
Proof. split; vm_compute; reflexivity. Qed.


(** X7, witness: [square_region] (two buses inside) and [empty_region]
    (none), with even distribution. *)
Lemma create_load_conserves_demand_witness :
  exists new,
    rs_net (snd (create_gen_or_load ex_within ex_centroid
                   [square_region; empty_region] "load" false true
                   resolver_start))
    = set_net_load (net_load (rs_net resolver_start) ++ new)
        (rs_net resolver_start)
    /\ fsum (map load_p_mw new)
       == Qsum (map el_load_factor [square_region; empty_region])
    /\ Forall (fun l => In (load_name l)
                          (map el_id [square_region; empty_region])) new.
Proof.
  apply (create_load_conserves_demand ex_geometry ex_within ex_centroid
           [square_region; empty_region] false true resolver_start).
  vm_compute. reflexivity.
Defined.

(** X8, witness: the element type "line". *)
Lemma create_gen_or_load_unknown_type_witness :
  rs_net (snd (create_gen_or_load ex_within ex_centroid
                 [idle_coal_plant; central_plant] "line" false false
                 resolver_start))
  = rs_net resolver_start
  /\ create_gen_or_load ex_within ex_centroid
       [idle_coal_plant; central_plant] "line" false false resolver_start
     = create_gen_or_load ex_within ex_centroid
         (firstn 1 [idle_coal_plant; central_plant]) "line" false false
         resolver_start.
Proof.
  apply (create_gen_or_load_unknown_type ex_geometry ex_within ex_centroid
           [idle_coal_plant; central_plant] "line" false false
           resolver_start); discriminate.
Defined.

(** ** The time-series update and the driver *)

(** *** Which exceptions a computation can raise *)

Lemma raises_only_ret {S A} (P : exn -> Prop) (a : A) :
  raises_only P (ret a : M S A).
Proof. intros s e s' H. discriminate. Qed.

Lemma raises_only_get {S} (P : exn -> Prop) : raises_only P (@get S).
Proof. intros s e s' H. discriminate. Qed.

Lemma raises_only_modify {S} (P : exn -> Prop) (f : S -> S) :
  raises_only P (modify f).
Proof. intros s e s' H. discriminate. Qed.

Lemma raises_only_raise {S A} (P : exn -> Prop) (e : exn) :
  P e -> raises_only P (raise e : M S A).
Proof. intros He s e' s' H. injection H as <- _. exact He. Qed.

Lemma raises_only_bind {S A B} (P : exn -> Prop) (c : M S A)
  (k : A -> M S B) :
  raises_only P c -> (forall a, raises_only P (k a)) ->
  raises_only P (bind c k).
Proof.
  intros Hc Hk s e s'. unfold bind.
  destruct (c s) as [[e1|a] s1] eqn:E.
  - intro H. injection H as <- _. exact (Hc _ _ _ E).
  - apply Hk.
Qed.

Lemma raises_only_on_net {A} (P : exn -> Prop) (c : M network A) :
  raises_only P c -> raises_only P (on_net c).
Proof.
  intros Hc w e w'. unfold on_net.
  destruct (c (w_net w)) as [[e1|a] n1] eqn:E; intro H; [|discriminate].
  injection H as <- _. exact (Hc _ _ _ E).
Qed.

Lemma raises_only_on_world {A} (P : exn -> Prop) (c : M world A) :
  raises_only P c -> raises_only P (on_world c).
Proof.
  intros Hc d e d'. unfold on_world.
  destruct (c (dr_world d)) as [[e1|a] w1] eqn:E; intro H; [|discriminate].
  injection H as <- _. exact (Hc _ _ _ E).
Qed.

Lemma raises_only_ts_loc {S} ts time_step col :
  raises_only lookup_error (ts_loc ts time_step col : M S float).
Proof.
  unfold ts_loc.
  destruct (dict_get col (ts_columns ts)) as [cells|];
    [|apply raises_only_raise; left; reflexivity].
  destruct (position time_step (ts_index ts)) as [k|];
    [|apply raises_only_raise; left; reflexivity].
  destruct (nth_error cells k);
    [apply raises_only_ret|apply raises_only_raise; left; reflexivity].
Qed.

Lemma raises_only_first_of {S A} (xs : list A) :
  raises_only lookup_error (first_of xs : M S A).
Proof.
  destruct xs; [apply raises_only_raise; right; reflexivity
               |apply raises_only_ret].
Qed.

Lemma raises_only_cached_total country_code key :
  raises_only lookup_error (cached_total country_code key).
Proof.
  intros w e w'. unfold cached_total.
  destruct (dict_get country_code (cache_of w)) as [totals|].
  - destruct (dict_get key totals); intro H; [discriminate|].
    injection H as <- _. left. reflexivity.
  - intro H. injection H as <- _. left. reflexivity.
Qed.

(** A call with one of the four accepted technologies does not raise. *)
Lemma raises_only_allocate (P : exn -> Prop) cg r :
  In r accepted_renewables ->
  raises_only P (allocate_renewable_generation cg r).
Proof.
  intro H. apply str_in_In in H. unfold allocate_renewable_generation.
  rewrite H. cbn [negb]. apply raises_only_modify.
Qed.

Lemma raises_only_allocate_if ts time_step matching total r :
  In r accepted_renewables ->
  raises_only lookup_error (allocate_if ts time_step matching total r).
Proof.
  intro H. unfold allocate_if.
  destruct (truthy_list matching && Qltb 0 total); [|apply raises_only_ret].
  apply raises_only_bind; [apply raises_only_first_of|]. intro col.
  apply raises_only_bind; [apply raises_only_ts_loc|]. intro cg.
  apply raises_only_on_net, raises_only_allocate. exact H.
Qed.

Lemma raises_only_update_region_load ts time_step r cols :
  raises_only lookup_error (update_region_load ts time_step r cols).
Proof.
  unfold update_region_load. destruct cols as [|col cols];
    [apply raises_only_ret|].
  apply raises_only_bind; [apply raises_only_ts_loc|]. intro cl.
  apply raises_only_modify.
Qed.

Lemma raises_only_update_region ts time_step variable v r :
  raises_only lookup_error (update_region ts time_step variable v r).
Proof.
  unfold update_region.
  apply raises_only_bind; [apply raises_only_get|]. intro w.
  destruct (expected_prefixes ts (w_net w) (region_country r) v)
    as [[[country_code expected_prefix] expected_prefix_solar] v1].
  apply raises_only_bind; [apply raises_only_cached_total|]. intro t1.
  apply raises_only_bind; [apply raises_only_cached_total|]. intro t2.
  apply raises_only_bind; [apply raises_only_cached_total|]. intro t3.
  apply raises_only_bind; [apply raises_only_update_region_load|]. intros _.
  apply raises_only_bind; [|intros _; apply raises_only_ret].
  destruct (negb variable); [|apply raises_only_ret].
  apply raises_only_bind;
    [apply raises_only_allocate_if; cbn; tauto|]. intros _.
  apply raises_only_bind;
    [apply raises_only_allocate_if; cbn; tauto|]. intros _.
  apply raises_only_bind;
    [apply raises_only_allocate_if; cbn; tauto|]. intros _.
  match goal with |- raises_only _ (if ?c then _ else _) => destruct c end;
    [|apply raises_only_ret].
  apply raises_only_bind; [apply raises_only_first_of|]. intro col.
  apply raises_only_bind; [apply raises_only_ts_loc|]. intro cg.
  apply raises_only_on_net, raises_only_allocate. cbn. tauto.
Qed.

Lemma raises_only_update_regions ts time_step variable regions :
  forall v,
    raises_only lookup_error (update_regions ts time_step variable v regions).
Proof.
  induction regions as [|r regions IH]; intro v; cbn [update_regions].
  - apply raises_only_ret.
  - apply raises_only_bind; [apply raises_only_update_region|].
    intro v'. apply IH.
Qed.

Lemma raises_only_create_values (P : exn -> Prop) regions force :
  raises_only P (create_values_per_country regions force).
Proof.
  intros w e w'. unfold create_values_per_country.
  destruct force; [discriminate|].
  destruct (w_cached_values _); discriminate.
Qed.

(** [update_loads] raises nothing but the exceptions of its lookups. *)
Lemma raises_only_update_loads ts regions time_step force variable :
  raises_only lookup_error
    (update_loads ts regions time_step force variable).
Proof.
  unfold update_loads.
  apply raises_only_bind; [apply raises_only_create_values|]. intros _.
  apply raises_only_bind; [apply raises_only_modify|]. intros _.
  apply raises_only_update_regions.
Qed.

Lemma raises_only_weaken {S A} (P Q : exn -> Prop) (c : M S A) :
  (forall e, P e -> Q e) -> raises_only P c -> raises_only Q c.
Proof. intros H Hc s e s' E. apply H. exact (Hc _ _ _ E). Qed.

Section DriverErrors.
Variable pp : solver_call -> network -> exn + res_summary.

Lemma raises_only_solve call :
  raises_only (fun e => exists n, pp call n = inl e) (solve pp call).
Proof.
  intros d e d'. unfold solve.
  destruct (pp call (w_net (dr_world d))) as [e1|r] eqn:E; intro H;
    [|discriminate].
  injection H as <- _. eexists. exact E.
Qed.

Lemma raises_only_run_ac_opf (P : exn -> Prop) :
  raises_only P (run_ac_opf pp).
Proof.
  intros d e d'. unfold run_ac_opf, try_except, solve, ret.
  destruct (pp runopp (w_net (dr_world d))); discriminate.
Qed.

Lemma raises_only_run_calculation calculation :
  raises_only (driver_error pp calculation) (run_calculation pp calculation).
Proof.
  unfold run_calculation.
  destruct (String.eqb calculation "ac_pf") eqn:E1.
  { apply String.eqb_eq in E1. subst.
    eapply raises_only_weaken; [|apply raises_only_solve].
    intros e He. right. right. left. split; [reflexivity|exact He]. }
  destruct (String.eqb calculation "dc_opf") eqn:E2.
  { apply String.eqb_eq in E2. subst.
    eapply raises_only_weaken; [|apply raises_only_solve].
    intros e He. right. right. right. split; [reflexivity|exact He]. }
  destruct (String.eqb calculation "ac_opf") eqn:E3.
  { apply raises_only_run_ac_opf. }
  apply raises_only_raise. right. left. split; [reflexivity|].
  apply String.eqb_neq in E1, E2, E3.
  unfold calculation_modes. cbn [In]. intros [H|[H|[H|[]]]]; congruence.
Qed.

Lemma raises_only_pf_steps calculation ts regions variable steps :
  forall first results_list,
    raises_only (driver_error pp calculation)
      (pf_steps pp calculation ts regions variable first steps results_list).
Proof.
  induction steps as [|t steps IH]; intros first acc; cbn [pf_steps].
  - apply raises_only_ret.
  - apply raises_only_bind; [|intro row; apply IH].
    unfold pf_step.
    apply raises_only_bind.
    { eapply raises_only_weaken;
        [|apply raises_only_on_world, raises_only_update_loads].
      intros e He. left. exact He. }
    intros _. apply raises_only_bind.
    { apply raises_only_on_world, raises_only_modify. }
    intros _. apply raises_only_bind.
    { apply raises_only_run_calculation. }
    intros _. apply raises_only_bind; [apply raises_only_get|].
    intro d. apply raises_only_ret.
Qed.

End DriverErrors.

(** *** What a computation keeps of the state *)

Lemma preserves_ret {S A} (R : S -> S -> Prop) (a : A) :
  (forall s, R s s) -> preserves R (ret a : M S A).
Proof. intros Hr s r s' H. injection H as _ <-. apply Hr. Qed.

Lemma preserves_raise {S A} (R : S -> S -> Prop) (e : exn) :
  (forall s, R s s) -> preserves R (raise e : M S A).
Proof. intros Hr s r s' H. injection H as _ <-. apply Hr. Qed.

Lemma preserves_get {S} (R : S -> S -> Prop) :
  (forall s, R s s) -> preserves R (@get S).
Proof. intros Hr s r s' H. injection H as _ <-. apply Hr. Qed.

Lemma preserves_modify {S} (R : S -> S -> Prop) (f : S -> S) :
  (forall s, R s (f s)) -> preserves R (modify f).
Proof. intros Hf s r s' H. injection H as _ <-. apply Hf. Qed.

Lemma preserves_bind {S A B} (R : S -> S -> Prop) (c : M S A)
  (k : A -> M S B) :
  (forall s1 s2 s3, R s1 s2 -> R s2 s3 -> R s1 s3) ->
  preserves R c -> (forall a, preserves R (k a)) -> preserves R (bind c k).
Proof.
  intros Ht Hc Hk s r s'. unfold bind.
  destruct (c s) as [[e1|a] s1] eqn:E.
  - intro H. injection H as _ <-. exact (Hc _ _ _ E).
  - intro H. eapply Ht; [exact (Hc _ _ _ E)|exact (Hk _ _ _ _ H)].
Qed.

Lemma Forall2_refl {A} (R : A -> A -> Prop) (l : list A) :
  (forall a, R a a) -> Forall2 R l l.
Proof. intro H. induction l; constructor; auto. Qed.

Lemma Forall2_trans {A} (R : A -> A -> Prop) :
  (forall a b c, R a b -> R b c -> R a c) ->
  forall l1 l2 l3, Forall2 R l1 l2 -> Forall2 R l2 l3 -> Forall2 R l1 l3.
Proof.
  intros Ht l1 l2 l3 H12. revert l3.
  induction H12 as [|a b l1 l2 Hab _ IH]; intros l3 H23;
    inversion H23; subst; constructor; eauto.
Qed.

Lemma same_dispatch_columns_refl g : same_dispatch_columns g g.
Proof.
  unfold same_dispatch_columns.
  destruct g as [idx bus name p vm sl sc co mn mx cost ty te orig nm cy ins].
  reflexivity.
Qed.

Lemma same_dispatch_columns_trans g1 g2 g3 :
  same_dispatch_columns g1 g2 -> same_dispatch_columns g2 g3 ->
  same_dispatch_columns g1 g3.
Proof.
  unfold same_dispatch_columns.
  destruct g1 as [i1 b1 n1 p1 v1 s1 c1 o1 m1 x1 k1 y1 t1 r1 q1 u1 z1].
  destruct g2 as [i2 b2 n2 p2 v2 s2 c2 o2 m2 x2 k2 y2 t2 r2 q2 u2 z2].
  destruct g3 as [i3 b3 n3 p3 v3 s3 c3 o3 m3 x3 k3 y3 t3 r3 q3 u3 z3].
  cbn. intros H12 H23. injection H12 as <- <- <- <- <- <- <- <- <- <- <- <- <- <-.
  injection H23 as <- <- <- <- <- <- <- <- <- <- <- <- <- <-. reflexivity.
Qed.

Lemma same_load_refl l : same_load l l.
Proof. unfold same_load. destruct l. reflexivity. Qed.

Lemma same_load_trans l1 l2 l3 :
  same_load l1 l2 -> same_load l2 l3 -> same_load l1 l3.
Proof.
  unfold same_load.
  destruct l1 as [b1 p1 n1 c1 u1 m1 x1 i1].
  destruct l2 as [b2 p2 n2 c2 u2 m2 x2 i2].
  destruct l3 as [b3 p3 n3 c3 u3 m3 x3 i3].
  cbn. intros H12 H23. injection H12 as <- <- <- <- <- <- <-.
  injection H23 as <- <- <- <- <- <- <-. reflexivity.
Qed.

Lemma loads_only_refl n : loads_only n n.
Proof.
  unfold loads_only. repeat split.
  - apply Forall2_refl, same_dispatch_columns_refl.
  - apply Forall2_refl, same_load_refl.
Qed.

Lemma loads_only_trans n1 n2 n3 :
  loads_only n1 n2 -> loads_only n2 n3 -> loads_only n1 n3.
Proof.
  unfold loads_only. intros [Hb1 [Hg1 [Hn1 Hl1]]] [Hb2 [Hg2 [Hn2 Hl2]]].
  repeat split; try congruence.
  - eapply Forall2_trans; eauto using same_dispatch_columns_trans.
  - eapply Forall2_trans; eauto using same_load_trans.
Qed.

Lemma world_loads_only_refl w : world_loads_only w w.
Proof. apply loads_only_refl. Qed.

Lemma world_loads_only_trans w1 w2 w3 :
  world_loads_only w1 w2 -> world_loads_only w2 w3 -> world_loads_only w1 w3.
Proof. apply loads_only_trans. Qed.

Lemma Forall2_map_r' {A B} (R : A -> B -> Prop) (f : A -> B) (l : list A) :
  (forall a, R a (f a)) -> Forall2 R l (map f l).
Proof. intro H. induction l; cbn [map]; constructor; auto. Qed.

Lemma create_values_loads_only regions force :
  preserves world_loads_only (create_values_per_country regions force).
Proof.
  intros w r w' H.
  assert (Hw : w' = snd (create_values_per_country regions force w))
    by (rewrite H; reflexivity).
  clear H. subst w'.
  assert (Hcases : recomputes force w
                   \/ (force = false /\ exists c, w_cached_values w = Some c)).
  { unfold recomputes. destruct force; [left; left; reflexivity|].
    destruct (w_cached_values w) as [c|]; [right|left; right; reflexivity].
    split; [reflexivity|]. exists c. reflexivity. }
  unfold world_loads_only, loads_only.
  destruct Hcases as [Hre|[-> [c Hc]]].
  - rewrite (create_values_recompute_pair _ _ _ Hre). cbn [snd].
    rewrite recomputed_world_net.
    unfold map_gen_country.
    cbn [net_gen net_bus net_bus_geodata net_load set_net_gen].
    repeat split.
    + rewrite map_map. apply Forall2_map_r'. intro g.
      unfold same_dispatch_columns.
      destruct g as [idx bus name p vm sl sc co mn mx cost ty te orig nm cy ins].
      reflexivity.
    + apply Forall2_refl, same_load_refl.
  - rewrite (create_values_cached _ _ _ Hc). cbn [snd].
    unfold map_gen_country.
    cbn [w_net set_w_net net_gen net_bus net_bus_geodata net_load set_net_gen].
    repeat split.
    + apply Forall2_map_r'. intro g. unfold same_dispatch_columns.
      destruct g as [idx bus name p vm sl sc co mn mx cost ty te orig nm cy ins].
      reflexivity.
    + apply Forall2_refl, same_load_refl.
Qed.

Lemma cached_total_state country_code key :
  preserves world_loads_only (cached_total country_code key).
Proof.
  intros w r w'. unfold cached_total.
  destruct (dict_get country_code (cache_of w)) as [totals|].
  - destruct (dict_get key totals); intro H; injection H as _ <-;
      apply world_loads_only_refl.
  - intro H. injection H as _ <-. apply world_loads_only_refl.
Qed.

Lemma ts_loc_state {S} (R : S -> S -> Prop) ts time_step col :
  (forall s, R s s) -> preserves R (ts_loc ts time_step col : M S float).
Proof.
  intro Hr. unfold ts_loc.
  destruct (dict_get col (ts_columns ts)) as [cells|];
    [|apply preserves_raise; exact Hr].
  destruct (position time_step (ts_index ts)) as [k|];
    [|apply preserves_raise; exact Hr].
  destruct (nth_error cells k);
    [apply preserves_ret|apply preserves_raise]; exact Hr.
Qed.

Lemma update_region_load_loads_only ts time_step r cols :
  preserves world_loads_only (update_region_load ts time_step r cols).
Proof.
  unfold update_region_load. destruct cols as [|col cols].
  { apply preserves_ret, world_loads_only_refl. }
  apply preserves_bind; [exact world_loads_only_trans| |].
  { apply ts_loc_state, world_loads_only_refl. }
  intro cl. apply preserves_modify. intro w.
  unfold world_loads_only, loads_only.
  destruct (has_num_column (w_net w));
    cbn [w_net set_w_net net_gen net_bus net_bus_geodata net_load
         set_net_load];
    repeat split;
    try (apply Forall2_refl, same_dispatch_columns_refl);
    unfold update_where; apply Forall2_map_r'; intro l;
    match goal with |- same_load _ (if ?c then _ else _) => destruct c end;
    unfold same_load; destruct l; reflexivity.
Qed.

Lemma update_regions_loads_only ts time_step regions :
  forall v,
    preserves world_loads_only (update_regions ts time_step true v regions).
Proof.
  induction regions as [|r regions IH]; intro v; cbn [update_regions].
  - apply preserves_ret, world_loads_only_refl.
  - apply preserves_bind; [exact world_loads_only_trans| |intro; apply IH].
    unfold update_region.
    apply preserves_bind; [exact world_loads_only_trans| |].
    { apply preserves_get, world_loads_only_refl. }
    intro w.
    destruct (expected_prefixes ts (w_net w) (region_country r) v)
      as [[[country_code expected_prefix] expected_prefix_solar] v1].
    repeat (apply preserves_bind;
            [exact world_loads_only_trans
            |apply cached_total_state
            |intro]).
    apply preserves_bind; [exact world_loads_only_trans| |].
    { apply update_region_load_loads_only. }
    intros _. cbn [negb].
    apply preserves_bind; [exact world_loads_only_trans| |];
      [|intros _]; apply preserves_ret, world_loads_only_refl.
Qed.

(** X10.  With [variable = True], [update_loads] writes, however it ends,
    nothing but the columns [country], [normed_p_mw] and [tech] of the
    generators and the column [p_mw] of the loads: dispatch and limits of
    every generator, and so the relaxations of the fallback protocol, are
    as they were; no row is added or removed. *)
Theorem update_loads_variable_keeps_dispatch (ts : time_series)
  (regions : list region) (time_step : nat) (force_update : bool)
  (w : world) :
  loads_only (w_net w)
    (w_net (snd (update_loads ts regions time_step force_update true w))).
Proof.
  assert (H : preserves world_loads_only
                (update_loads ts regions time_step force_update true)).
  { unfold update_loads.
    apply preserves_bind; [exact world_loads_only_trans| |].
    { apply create_values_loads_only. }
    intros _.
    apply preserves_bind; [exact world_loads_only_trans| |].
    { apply preserves_modify. intro w0.
      unfold world_loads_only, loads_only.
      cbn [w_net set_w_net net_gen net_bus net_bus_geodata net_load
           set_net_gen].
      repeat split.
      - unfold update_where. apply Forall2_map_r'. intro g.
        unfold same_dispatch_columns.
        destruct g as [idx bus name p vm sl sc co mn mx cost ty te orig nm cy ins].
        cbn [gen_type]. destruct (String.eqb ty "solar"); reflexivity.
      - apply Forall2_refl, same_load_refl. }
    intros _. apply update_regions_loads_only. }
  destruct (update_loads ts regions time_step force_update true w)
    as [r w'] eqn:E.
  exact (H _ _ _ E).
Qed.

(** *** An empty time window *)

Section EmptyWindow.
Variable pp : solver_call -> network -> exn + res_summary.
Variable ts : time_series.
Variable regions : list region.
Hypothesis no_step : ts_index ts = [].

Lemma time_series_pf_results_empty calculation force variable d :
  time_series_pf_results pp calculation ts regions force variable d
  = (inr [], d).
Proof. unfold time_series_pf_results. rewrite no_step. reflexivity. Qed.

Lemma handle_pf_results_empty mode variable d :
  handle_pf_results pp ts regions mode variable d = (false, d).
Proof.
  unfold handle_pf_results. rewrite time_series_pf_results_empty.
  reflexivity.
Qed.
End EmptyWindow.

(** X11.  When the time series has no time step, every call of
    [handle_pf_results] returns [False] without a call of the solver, the
    fallback protocol walks through its five stages and the retry, and the
    network ends with all three relaxations applied and the scaling factor
    set. *)
Theorem fallback_on_empty_time_window
  (pp : solver_call -> network -> exn + res_summary) (ts : time_series)
  (regions : list region) (d0 : driver) :
  ts_index ts = [] ->
  let n := w_net (dr_world d0) in
  let gens := relax_gens gen_controllable
                (relax_gens conventional (net_gen n)) in
  let n' := set_net_load (curtail_loads (net_load n)) (set_net_gen gens n) in
  let sf := calculate_scaling_factor n' in
  power_flow_with_fallback pp ts regions d0
  = (mkDriver
       (mkWorld (set_net_gen (map (set_gen_scaling sf) gens) n')
          (w_cached_values (dr_world d0)))
       (dr_res d0),
     [stage1 false; stage2 false; ev_relax_conventional; stage3 false;
      ev_relax_controllable; stage4 false; ev_curtail_loads; stage5 false;
      ev_diagnostic; ev_scaling sf; ev_retry "ac_pf" false]).
Proof.
  intros Hempty n gens n' sf.
  unfold power_flow_with_fallback, fallback_protocol.
  rewrite !(handle_pf_results_empty pp ts regions Hempty).
  cbn [negb]. unfold scaling_retry.
  rewrite (time_series_pf_results_empty pp ts regions Hempty).
  destruct d0 as [[[bs bg gs ls] cache] res]. reflexivity.
Qed.

(** *** The scaling factor *)

Lemma fsum_scaled {A} (f : A -> float) (c : Q) (l : list A) :
  fsum (map (fun a => fmul (f a) (Some c)) l) == c * fsum (map f l).
Proof.
  induction l as [|a l IH]; cbn [map fsum].
  - ring.
  - destruct (f a) as [x|]; cbn [fmul fsum]; rewrite IH; ring.
Qed.

(** X12.  When the in-service generators dispatch a positive total, the
    factor [calculate_scaling_factor] returns makes the scaled dispatch of
    the in-service generators equal to the demand of the in-service
    loads. *)
Theorem calculate_scaling_factor_balances (n : network) :
  0 < fsum (map gen_p_mw (filter gen_in_service (net_gen n))) ->
  fsum (map (fun g => fmul (gen_p_mw g)
                        (Some (calculate_scaling_factor n)))
          (filter gen_in_service (net_gen n)))
  == fsum (map load_p_mw (filter load_in_service (net_load n))).
Proof.
  intro Hpos. rewrite fsum_scaled. unfold calculate_scaling_factor.
  apply Qltb_true in Hpos. rewrite Hpos. apply Qltb_true in Hpos.
  field. lra.
Qed.

(** *** The demand of a region *)

Lemma named_sum (id : string) (X K : Q) (loads : list load) :
  forallb
    (fun l =>
       implb (named id l)
         (match load_num l with
          | Some v => Qeq_bool v K
          | None => false
          end))
    loads = true ->
  ~ K == 0 ->
  fsum (map load_p_mw
          (filter (named id)
             (update_where (named id)
                (fun l => set_load_p_mw (fdiv (Some X) (load_num l)) l)
                loads)))
  == inject_Z (Z.of_nat (List.length (filter (named id) loads))) * (X / K).
Proof.
  intros H HK. unfold update_where.
  induction loads as [|l loads IH].
  - cbn. ring.
  - cbn [forallb] in H. apply andb_true_iff in H. destruct H as [Hl Hls].
    specialize (IH Hls). cbn [map filter].
    destruct (named id l) eqn:E.
    + change (named id (set_load_p_mw (fdiv (Some X) (load_num l)) l))
        with (named id l).
      rewrite E. cbn [implb] in Hl.
      destruct (load_num l) as [v|] eqn:Ev; [|discriminate].
      apply Qeq_bool_iff in Hl.
      cbn [map fsum List.length load_p_mw set_load_p_mw fdiv].
      rewrite IH, Nat2Z.inj_succ. unfold Z.succ. rewrite inject_Z_plus.
      rewrite Hl. field. exact HK.
    + rewrite E. exact IH.
Qed.

Lemma others_kept (id : string) (f : load -> load) (loads : list load) :
  (forall l, named id (f l) = named id l) ->
  filter (fun l => negb (named id l)) (update_where (named id) f loads)
  = filter (fun l => negb (named id l)) loads.
Proof.
  intro Hf. unfold update_where.
  induction loads as [|l loads IH]; [reflexivity|].
  cbn [map filter]. destruct (named id l) eqn:E.
  - rewrite Hf, E. cbn [negb]. exact IH.
  - rewrite E. cbn [negb]. f_equal. exact IH.
Qed.

(** X13.  When the loads of a region are numbered as the even distribution
    numbers them and the time series holds a value for the time step, the
    load update of [update_loads] leaves the loads of the region with a
    total of country load x load factor, and every other load as it
    was. *)
Theorem update_region_load_total (ts : time_series) (time_step : nat)
  (r : region) (col : string) (cols : list string) (country_load : Q)
  (w : world) :
  ts_loc ts time_step col w = (inr (Some country_load), w) ->
  numbered_evenly (region_id r) (net_load (w_net w)) ->
  exists w',
    update_region_load ts time_step r (col :: cols) w = (inr tt, w')
    /\ fsum (map load_p_mw
               (filter (named (region_id r)) (net_load (w_net w'))))
       == country_load * region_load_factor r
    /\ filter (fun l => negb (named (region_id r) l)) (net_load (w_net w'))
       = filter (fun l => negb (named (region_id r) l))
           (net_load (w_net w)).
Proof.
  intros Hloc [Hk Hnum].
  set (k := List.length (filter (named (region_id r)) (net_load (w_net w))))
    in *.
  assert (HK : 0 < inject_Z (Z.of_nat k)) by (apply inject_nat_pos; exact Hk).
  assert (Hcol : has_num_column (w_net w) = true).
  { unfold has_num_column. apply existsb_exists.
    destruct (filter (named (region_id r)) (net_load (w_net w)))
      as [|l ls] eqn:Ef; [subst k; cbn in Hk; lia|].
    assert (Hl : In l (filter (named (region_id r)) (net_load (w_net w))))
      by (rewrite Ef; left; reflexivity).
    apply filter_In in Hl. destruct Hl as [Hin Hn].
    exists l. split; [exact Hin|].
    rewrite forallb_forall in Hnum. specialize (Hnum l Hin).
    rewrite Hn in Hnum. cbn [implb] in Hnum.
    destruct (load_num l); [reflexivity|discriminate]. }
  unfold update_region_load. unfold bind. rewrite Hloc.
  unfold modify. rewrite Hcol. eexists. split; [reflexivity|].
  cbn [w_net set_w_net net_load set_net_load fmul]. split.
  - change (fun l => String.eqb (load_name l) (region_id r))
      with (named (region_id r)).
    rewrite (named_sum _ _ (inject_Z (Z.of_nat k))); [|exact Hnum|lra].
    fold k. field. lra.
  - apply others_kept. reflexivity.
Qed.

(** *** Runs *)


(** X11, witness: the coal network, no time step, and a solver that would
    never converge. *)
Lemma fallback_on_empty_time_window_witness :
  let n := w_net (dr_world (start_of coal_net)) in
  let gens := relax_gens gen_controllable
                (relax_gens conventional (net_gen n)) in
  let n' := set_net_load (curtail_loads (net_load n)) (set_net_gen gens n) in
  let sf := calculate_scaling_factor n' in
  power_flow_with_fallback failing_solver empty_series de_regions
    (start_of coal_net)
  = (mkDriver
       (mkWorld (set_net_gen (map (set_gen_scaling sf) gens) n')
          (w_cached_values (dr_world (start_of coal_net))))
       (dr_res (start_of coal_net)),
     [stage1 false; stage2 false; ev_relax_conventional; stage3 false;
      ev_relax_controllable; stage4 false; ev_curtail_loads; stage5 false;
      ev_diagnostic; ev_scaling sf; ev_retry "ac_pf" false]).
Proof.
  apply (fallback_on_empty_time_window failing_solver empty_series
           de_regions (start_of coal_net)).
  reflexivity.
Defined.

(** X12, witness: 100 MW of generation and 1 MW of load. *)
Lemma calculate_scaling_factor_balances_witness :
  fsum (map (fun g => fmul (gen_p_mw g)
                        (Some (calculate_scaling_factor coal_net)))
          (filter gen_in_service (net_gen coal_net)))
  == fsum (map load_p_mw (filter load_in_service (net_load coal_net))).
Proof.
  apply (calculate_scaling_factor_balances coal_net).
  vm_compute. reflexivity.
Defined.

(** The rows of an even distribution are numbered evenly. *)
Example square_region_numbered_evenly :
  numbered_evenly "AA001" (net_load (w_net square_loads_world))
  /\ map load_num (net_load (w_net square_loads_world)) = [Some 2; Some 2].
Proof.
  split; [split; [vm_compute; lia|vm_compute; reflexivity]
         |vm_compute; reflexivity].
Qed.

(** X13, witness: the two loads of [square_region] at the first time
    step. *)
Lemma update_region_load_total_witness :
  exists w',
    update_region_load aa_series 0 aa_region ["AA_load_actual"]
      square_loads_world = (inr tt, w')
    /\ fsum (map load_p_mw
               (filter (named (region_id aa_region)) (net_load (w_net w'))))
       == 50 * region_load_factor aa_region
    /\ filter (fun l => negb (named (region_id aa_region) l))
         (net_load (w_net w'))
       = filter (fun l => negb (named (region_id aa_region) l))
           (net_load (w_net square_loads_world)).
Proof.
  apply (update_region_load_total aa_series 0 aa_region "AA_load_actual" []
           50 square_loads_world).
  - vm_compute. reflexivity.
  - split; [vm_compute; lia|vm_compute; reflexivity].
Defined.

(** ** Connections and the slack generator *)

Lemma set_of_In x l : In x (set_of l) <-> In x l.
Proof. unfold set_of. apply nodup_In. Qed.

Lemma set_minus_In x a b : In x (set_minus a b) <-> In x a /\ ~ In x b.
Proof.
  unfold set_minus. rewrite filter_In. rewrite negb_true_iff.
  split; intros [Ha Hb]; split; try exact Ha.
  - intro H. apply isin_In in H. congruence.
  - destruct (isin x b) eqn:E; [|reflexivity].
    apply isin_In in E. contradiction.
Qed.

Lemma isin_false i labels : isin i labels = false <-> ~ In i labels.
Proof.
  split.
  - intros H Hin. apply isin_In in Hin. congruence.
  - intro H. destruct (isin i labels) eqn:E; [|reflexivity].
    apply isin_In in E. contradiction.
Qed.

(** A bus is connected when a line or a transformer ends at it. *)
Lemma connected_buses_set_In b net_line net_trafo :
  In b (connected_buses_set net_line net_trafo)
  <-> (exists l, In l net_line /\ (line_from_bus l = b \/ line_to_bus l = b))
      \/ (exists t, In t net_trafo
                    /\ (trafo_hv_bus t = b \/ trafo_lv_bus t = b)).
Proof.
  unfold connected_buses_set.
  rewrite set_of_In, in_app_iff, !set_of_In, !in_app_iff, !in_map_iff.
  split.
  - intros [[[l [E H]]|[l [E H]]]|[[t [E H]]|[t [E H]]]].
    + left. exists l. auto.
    + left. exists l. auto.
    + right. exists t. auto.
    + right. exists t. auto.
  - intros [[l [H [E|E]]]|[t [H [E|E]]]].
    + left. left. exists l. auto.
    + left. right. exists l. auto.
    + right. left. exists t. auto.
    + right. right. exists t. auto.
Qed.

(** X14.  The results of [check_connections] on tables whose generator
    labels are distinct: a bus is reported disconnected exactly when it is
    a bus of the table at which no line and no transformer ends; a
    generator is reported disconnected exactly when no line and no
    transformer ends at its bus, which for a generator on a bus of the
    table is the same as its bus being reported; and the buses reported
    without generators are the disconnected buses that carry none. *)
Theorem check_connections_consistent (net_bus : list bus)
  (net_load : list load) (net_gen : list gen) (net_line : list line)
  (net_trafo : list trafo) :
  NoDup (map gen_idx net_gen) ->
  let result :=
    check_connections net_bus net_load net_gen net_line net_trafo in
  let connected := connected_buses_set net_line net_trafo in
  (forall b, In b (disconnected_buses_set result)
             <-> In b (map bus_idx net_bus) /\ ~ In b connected)
  /\ (forall g, In g net_gen ->
        (In (gen_idx g) (disconnected_gens result)
         <-> ~ In (gen_bus g) connected))
  /\ (forall g, In g net_gen -> In (gen_bus g) (map bus_idx net_bus) ->
        (In (gen_idx g) (disconnected_gens result)
         <-> In (gen_bus g) (disconnected_buses_set result)))
  /\ (forall b, In b (disconnected_buses_no_gens result)
                <-> In b (disconnected_buses_set result)
                    /\ forall g, In g net_gen -> gen_bus g <> b).
Proof.
  intros Hnd result connected.
  assert (Hb : forall b, In b (disconnected_buses_set result)
                         <-> In b (map bus_idx net_bus) /\ ~ In b connected).
  { intro b. subst result. unfold check_connections.
    cbn [disconnected_buses_set]. rewrite set_minus_In, set_of_In.
    reflexivity. }
  assert (Hg : forall g, In g net_gen ->
                 (In (gen_idx g) (disconnected_gens result)
                  <-> ~ In (gen_bus g) connected)).
  { intros g Hin. subst result. unfold check_connections.
    cbn [disconnected_gens]. rewrite in_map_iff. split.
    - intros [g' [E H]]. apply filter_In in H. destruct H as [Hin' Hc].
      assert (g' = g)
        by (apply (NoDup_map_inj gen_idx net_gen g' g Hnd); auto).
      subst g'. apply negb_true_iff, isin_false in Hc. exact Hc.
    - intro H. exists g. split; [reflexivity|]. apply filter_In.
      split; [exact Hin|]. apply negb_true_iff, isin_false. exact H. }
  split; [exact Hb|]. split; [exact Hg|]. split.
  - intros g Hin Hbus. rewrite (Hg g Hin), Hb. tauto.
  - intro b. subst result. unfold check_connections.
    cbn [disconnected_buses_no_gens]. rewrite set_minus_In, set_of_In.
    fold connected.
    change (set_minus (set_of (map bus_idx net_bus)) connected)
      with (disconnected_buses_set
              (check_connections net_bus net_load net_gen net_line
                 net_trafo)).
    rewrite in_map_iff. split.
    + intros [H Hno]. split; [exact H|]. intros g Hg' E. apply Hno.
      exists g. auto.
    + intros [H Hno]. split; [exact H|]. intros [g [E Hg']].
      exact (Hno g Hg' E).
Qed.

(** *** [idxmax] *)

Lemma idxmax_from_spec cells : forall best best_v,
  (idxmax_from best best_v cells = best
   /\ forall j v', In (j, Some v') cells -> v' <= best_v)
  \/ exists v,
       In (idxmax_from best best_v cells, Some v) cells
       /\ best_v < v
       /\ forall j v', In (j, Some v') cells -> v' <= v.
Proof.
  induction cells as [|[i [v|]] cells IH]; intros best best_v;
    cbn [idxmax_from].
  - left. split; [reflexivity|]. intros j v' [].
  - destruct (Qltb best_v v) eqn:E.
    + apply Qltb_true in E. right.
      destruct (IH i v) as [[-> Hmax]|[v1 [Hin [Hlt Hmax]]]].
      * exists v. split; [left; reflexivity|]. split; [exact E|].
        intros j v' [H|H]; [injection H as _ <-; apply Qle_refl|].
        exact (Hmax j v' H).
      * exists v1. split; [right; exact Hin|]. split; [lra|].
        intros j v' [H|H]; [injection H as _ <-; lra|].
        exact (Hmax j v' H).
    + apply Qltb_false in E.
      destruct (IH best best_v) as [[-> Hmax]|[v1 [Hin [Hlt Hmax]]]].
      * left. split; [reflexivity|].
        intros j v' [H|H]; [injection H as _ <-; exact E|].
        exact (Hmax j v' H).
      * right. exists v1. split; [right; exact Hin|]. split; [exact Hlt|].
        intros j v' [H|H]; [injection H as _ <-; lra|].
        exact (Hmax j v' H).
  - destruct (IH best best_v) as [[-> Hmax]|[v1 [Hin [Hlt Hmax]]]].
    + left. split; [reflexivity|].
      intros j v' [H|H]; [discriminate|]. exact (Hmax j v' H).
    + right. exists v1. split; [right; exact Hin|]. split; [exact Hlt|].
      intros j v' [H|H]; [discriminate|]. exact (Hmax j v' H).
Qed.

(** The label [idxmax] returns is the label of a cell with a value, and no
    cell holds a larger value. *)
Lemma idxmax_spec cells i :
  idxmax cells = Some i ->
  exists v,
    In (i, Some v) cells
    /\ forall j v', In (j, Some v') cells -> v' <= v.
Proof.
  induction cells as [|[i0 [v0|]] cells IH]; cbn [idxmax].
  - discriminate.
  - intro H. injection H as <-.
    destruct (idxmax_from_spec cells i0 v0)
      as [[-> Hmax]|[v1 [Hin [Hlt Hmax]]]].
    + exists v0. split; [left; reflexivity|].
      intros j v' [H|H]; [injection H as _ <-; apply Qle_refl|].
      exact (Hmax j v' H).
    + exists v1. split; [right; exact Hin|].
      intros j v' [H|H]; [injection H as _ <-; lra|].
      exact (Hmax j v' H).
  - intro H. destruct (IH H) as [v [Hin Hmax]].
    exists v. split; [right; exact Hin|].
    intros j v' [H'|H']; [discriminate|]. exact (Hmax j v' H').
Qed.

(** [idxmax] finds a label as soon as one cell has a value. *)
Lemma idxmax_some cells j v :
  In (j, Some v) cells -> exists i, idxmax cells = Some i.
Proof.
  induction cells as [|[i0 [v0|]] cells IH]; cbn [idxmax In].
  - contradiction.
  - intros _. eexists. reflexivity.
  - intros [H|H]; [discriminate|]. exact (IH H).
Qed.

Lemma idxmax_gens gens i :
  idxmax (p_mw_cells gens) = Some i ->
  exists g v,
    In g gens /\ gen_idx g = i /\ gen_p_mw g = Some v
    /\ forall g' v', In g' gens -> gen_p_mw g' = Some v' -> v' <= v.
Proof.
  intro H. destruct (idxmax_spec _ _ H) as [v [Hin Hmax]].
  unfold p_mw_cells in Hin. apply in_map_iff in Hin.
  destruct Hin as [g [E Hg]]. injection E as Ei Ev.
  exists g, v. repeat split; auto.
  intros g' v' Hg' Ev'. apply (Hmax (gen_idx g')).
  unfold p_mw_cells. apply in_map_iff. exists g'. split; [|exact Hg'].
  rewrite Ev'. reflexivity.
Qed.

(** *** The slack column *)

Lemma with_slack_update s i b gens :
  update_where (labelled i) (set_gen_slack b) (with_slack s gens)
  = with_slack (fun g => if labelled i g then b else s g) gens.
Proof.
  unfold update_where, with_slack. rewrite map_map. apply map_ext.
  intro g. change (labelled i (set_gen_slack (s g) g)) with (labelled i g).
  destruct (labelled i g); reflexivity.
Qed.

Lemma with_slack_ext s1 s2 gens :
  (forall g, s1 g = s2 g) -> with_slack s1 gens = with_slack s2 gens.
Proof. intro H. unfold with_slack. apply map_ext. intro g. rewrite H. reflexivity. Qed.

Lemma with_slack_same gens :
  Forall (fun g => gen_slack g = false) gens ->
  with_slack (fun _ => false) gens = gens.
Proof.
  unfold with_slack. induction 1 as [|g l Hg _ IH]; [reflexivity|].
  cbn [map]. rewrite IH. f_equal.
  destruct g as [idx bus name p vm sl sc co mn mx cost ty te orig nm cy ins].
  cbn in Hg. subst sl. reflexivity.
Qed.

Lemma with_slack_idx s gens :
  map gen_idx (with_slack s gens) = map gen_idx gens.
Proof. unfold with_slack. rewrite map_map. reflexivity. Qed.

Lemma with_slack_bus s gens :
  map gen_bus (with_slack s gens) = map gen_bus gens.
Proof. unfold with_slack. rewrite map_map. reflexivity. Qed.

Lemma with_slack_cells s gens :
  p_mw_cells (with_slack s gens) = p_mw_cells gens.
Proof. unfold p_mw_cells, with_slack. rewrite map_map. reflexivity. Qed.

Lemma with_slack_filter (p : gen -> bool) s gens :
  (forall g b, p (set_gen_slack b g) = p g) ->
  filter p (with_slack s gens) = with_slack s (filter p gens).
Proof.
  intro Hp. unfold with_slack.
  induction gens as [|g gens IH]; [reflexivity|].
  cbn [map filter]. rewrite Hp. destruct (p g); cbn [map]; rewrite IH;
    reflexivity.
Qed.

Lemma with_slack_frame s gens :
  Forall2 same_but_slack gens (with_slack s gens).
Proof.
  unfold with_slack. apply Forall2_map_r'. intro g. unfold same_but_slack.
  destruct g as [idx bus name p vm sl sc co mn mx cost ty te orig nm cy ins].
  reflexivity.
Qed.

(** The slack rows of a table whose slack column marks one label. *)
Lemma with_slack_rows i gens :
  filter gen_slack (with_slack (labelled i) gens)
  = with_slack (labelled i) (filter (labelled i) gens).
Proof.
  unfold with_slack. induction gens as [|g gens IH]; [reflexivity|].
  cbn [map filter]. cbn [gen_slack set_gen_slack].
  destruct (labelled i g) eqn:E; cbn [map]; rewrite IH, ?E; reflexivity.
Qed.

Lemma with_slack_no_rows gens :
  filter gen_slack (with_slack (fun _ => false) gens) = [].
Proof.
  unfold with_slack. induction gens as [|g gens IH]; [reflexivity|].
  cbn [map filter]. cbn [gen_slack set_gen_slack]. exact IH.
Qed.

(** With distinct labels, at most one row carries a label. *)
Lemma filter_labelled_length i gens :
  NoDup (map gen_idx gens) ->
  (List.length (filter (labelled i) gens) <= 1)%nat.
Proof.
  induction gens as [|g gens IH]; cbn [map filter]; [cbn; lia|].
  intro Hnd. inversion Hnd as [|x xs Hx Hnd']. subst.
  destruct (labelled i g) eqn:E; [|exact (IH Hnd')].
  cbn [List.length].
  assert (Hnone : filter (labelled i) gens = []).
  { destruct (filter (labelled i) gens) as [|g' l] eqn:Ef; [reflexivity|].
    exfalso. apply Hx.
    assert (Hin : In g' (filter (labelled i) gens))
      by (rewrite Ef; left; reflexivity).
    apply filter_In in Hin. destruct Hin as [Hin El].
    unfold labelled in *. apply Nat.eqb_eq in E, El.
    rewrite E, <- El. apply in_map. exact Hin. }
  rewrite Hnone. cbn. lia.
Qed.

(** [check_connections] reads the generators' labels and buses only. *)
Lemma check_connections_with_slack s net_bus net_load gens net_line
  net_trafo :
  check_connections net_bus net_load (with_slack s gens) net_line net_trafo
  = check_connections net_bus net_load gens net_line net_trafo.
Proof.
  unfold check_connections. f_equal.
  - rewrite (with_slack_filter
               (fun g => negb (isin (gen_bus g)
                                 (connected_buses_set net_line net_trafo))))
      by reflexivity.
    apply with_slack_idx.
  - rewrite with_slack_bus. reflexivity.
Qed.

Lemma available_gens_with_slack result s gens :
  available_gens result (with_slack s gens)
  = with_slack s (available_gens result gens).
Proof. unfold available_gens. apply with_slack_filter. reflexivity. Qed.

Lemma In_with_slack s gens g' :
  In g' (with_slack s gens)
  <-> exists g, In g gens /\ g' = set_gen_slack (s g) g.
Proof.
  unfold with_slack. rewrite in_map_iff. split; intros [g [H1 H2]];
    exists g; auto.
Qed.

Lemma filter_labelled_In i gens g :
  NoDup (map gen_idx gens) -> In g gens -> gen_idx g = i ->
  filter (labelled i) gens = [g].
Proof.
  intros Hnd Hin Ei.
  pose proof (filter_labelled_length i gens Hnd) as Hlen.
  assert (Hg : In g (filter (labelled i) gens)).
  { apply filter_In. split; [exact Hin|]. unfold labelled.
    apply Nat.eqb_eq. exact Ei. }
  destruct (filter (labelled i) gens) as [|a [|b l]]; cbn in Hlen.
  - contradiction.
  - destruct Hg as [->|[]]. reflexivity.
  - lia.
Qed.

Lemma assign_slack_shape n n' :
  assign_slack n = (inr tt, n') ->
  exists i,
    idxmax (p_mw_cells (net_gen n)) = Some i
    /\ n' = set_net_gen (with_slack (labelled i) (net_gen n)) n.
Proof.
  unfold assign_slack, bind, get.
  destruct (idxmax (p_mw_cells (net_gen n))) as [i|]; [|discriminate].
  unfold modify. intro H. injection H as <-. exists i.
  split; [reflexivity|]. f_equal.
  change (map (set_gen_slack false) (net_gen n))
    with (with_slack (fun _ => false) (net_gen n)).
  rewrite with_slack_update. apply with_slack_ext. intro g.
  destruct (labelled i g); reflexivity.
Qed.

(** X15.  When the slack assignment of [main_program.py] (lines 279-283)
    returns on a table with distinct labels, it has written the column
    [slack] only, exactly one generator is the slack, it has a dispatch
    value and no generator has a larger one. *)
Theorem assign_slack_largest (n n' : network) :
  NoDup (map gen_idx (net_gen n)) ->
  assign_slack n = (inr tt, n') ->
  n' = set_net_gen (net_gen n') n
  /\ Forall2 same_but_slack (net_gen n) (net_gen n')
  /\ exists g v,
       filter gen_slack (net_gen n') = [g]
       /\ gen_p_mw g = Some v
       /\ forall g' v',
            In g' (net_gen n') -> gen_p_mw g' = Some v' -> v' <= v.
Proof.
  intros Hnd H. destruct (assign_slack_shape _ _ H) as [i [Hi ->]].
  cbn [net_gen set_net_gen]. split; [reflexivity|].
  split; [apply with_slack_frame|].
  destruct (idxmax_gens _ _ Hi) as [g [v [Hin [Ei [Ev Hmax]]]]].
  exists (set_gen_slack true g), v. split; [|split].
  - rewrite with_slack_rows, (filter_labelled_In i _ g Hnd Hin Ei).
    cbn [with_slack map]. unfold labelled. rewrite Ei, Nat.eqb_refl.
    reflexivity.
  - exact Ev.
  - intros g' v' Hg' Ev'. apply In_with_slack in Hg'.
    destruct Hg' as [g0 [Hg0 ->]]. exact (Hmax g0 v' Hg0 Ev').
Qed.

Lemma find_with_slack i s gens :
  find (labelled i) (with_slack s gens)
  = option_map (fun g => set_gen_slack (s g) g) (find (labelled i) gens).
Proof.
  unfold with_slack. induction gens as [|g gens IH]; [reflexivity|].
  cbn [map find]. change (labelled i (set_gen_slack (s g) g))
    with (labelled i g).
  destruct (labelled i g); [reflexivity|exact IH].
Qed.

Lemma find_labelled i gens g :
  NoDup (map gen_idx gens) -> In g gens -> gen_idx g = i ->
  find (labelled i) gens = Some g.
Proof.
  intros Hnd Hin Ei.
  pose proof (filter_labelled_In i gens g Hnd Hin Ei) as Hf.
  clear Hnd Hin Ei. revert Hf.
  induction gens as [|a gens IH]; cbn [filter find]; [discriminate|].
  destruct (labelled i a); [intro H; injection H as -> _; reflexivity|].
  exact IH.
Qed.

(** The three ways sections 5 and 5.1 can end without an exception. *)
Lemma assign_and_verify_shape net_line net_trafo n n' :
  NoDup (map gen_idx (net_gen n)) ->
  assign_and_verify_slack net_line net_trafo n = (inr tt, n') ->
  let gens := net_gen n in
  let result :=
    check_connections (net_bus n) (net_load n) gens net_line net_trafo in
  exists g0 v0,
    In g0 gens /\ gen_p_mw g0 = Some v0
    /\ (forall g' v', In g' gens -> gen_p_mw g' = Some v' -> v' <= v0)
    /\ ((isin (gen_idx g0) (disconnected_gens result) = false
         /\ n' = set_net_gen (with_slack (labelled (gen_idx g0)) gens) n)
        \/ (available_gens result gens = []
            /\ n' = set_net_gen (with_slack (fun _ => false) gens) n)
        \/ (exists inew,
              idxmax (p_mw_cells (available_gens result gens)) = Some inew
              /\ n' = set_net_gen (with_slack (labelled inew) gens) n)).
Proof.
  intros Hnd H gens result.
  unfold assign_and_verify_slack in H. unfold bind at 1 in H.
  destruct (assign_slack n) as [[e|[]] n1] eqn:E1; [discriminate|].
  destruct (assign_slack_shape _ _ E1) as [i0 [Hi0 ->]].
  destruct (idxmax_gens _ _ Hi0) as [g0 [v0 [Hin [Ei [Ev Hmax]]]]].
  subst i0. set (i0 := gen_idx g0) in *.
  exists g0, v0. split; [exact Hin|]. split; [exact Ev|].
  split; [exact Hmax|]. fold gens in H, Hin, Hi0, Hmax.
  unfold bind at 1 in H. unfold get at 1 in H.
  cbn [net_bus net_load net_gen set_net_gen net_bus_geodata] in H.
  rewrite check_connections_with_slack in H. fold gens in H.
  fold result in H.
  unfold bind at 1 in H. unfold slack_gen_index at 1 in H.
  unfold bind at 1 in H. unfold get at 1 in H.
  cbn [net_gen set_net_gen] in H.
  rewrite with_slack_rows, (filter_labelled_In i0 gens g0 Hnd Hin eq_refl)
    in H.
  cbn [with_slack map first_of gen_idx set_gen_slack] in H.
  unfold ret at 1 in H.
  unfold verify_slack_connection in H.
  unfold bind at 1 in H. unfold get at 1 in H.
  cbn [net_gen set_net_gen] in H.
  fold i0 in H.
  rewrite find_with_slack, (find_labelled i0 gens g0 Hnd Hin eq_refl) in H.
  cbn [option_map] in H.
  unfold bind at 1 in H.
  destruct (isin i0 (disconnected_gens result)) eqn:Edg.
  - (* the slack is a disconnected generator *)
    unfold ret at 1 in H. unfold bind at 1 in H. unfold modify at 1 in H.
    unfold bind at 1 in H. unfold get at 1 in H.
    cbn [net_gen set_net_gen] in H.
    rewrite with_slack_update, available_gens_with_slack in H.
    rewrite with_slack_cells in H.
    assert (Hs : with_slack
                   (fun g => if labelled i0 g then false else labelled i0 g)
                   gens
                 = with_slack (fun _ => false) gens).
    { apply with_slack_ext. intro g. destruct (labelled i0 g); reflexivity. }
    rewrite Hs in H.
    destruct (available_gens result gens) as [|a l] eqn:Ea.
    + cbn [with_slack map] in H. unfold ret in H. injection H as <-.
      right. left. split; [reflexivity|]. reflexivity.
    + cbn [with_slack map] in H. rewrite <- Ea in *.
      destruct (idxmax (p_mw_cells (available_gens result gens)))
        as [inew|] eqn:En; [|discriminate].
      unfold modify in H. injection H as <-.
      right. right. exists inew. split; [reflexivity|].
      cbn [net_gen set_net_gen net_bus net_bus_geodata net_load].
      unfold set_net_gen. cbn [net_gen net_bus net_bus_geodata net_load].
      f_equal. fold (with_slack (fun _ : gen => false) gens).
      rewrite with_slack_update. apply with_slack_ext. intro g.
      destruct (labelled inew g); reflexivity.
  - unfold ret at 1 in H. cbn [gen_bus set_gen_slack] in H.
    destruct (isin (gen_bus g0) (disconnected_buses_set result)) eqn:Edb.
    + unfold bind at 1 in H. unfold modify at 1 in H.
      unfold bind at 1 in H. unfold get at 1 in H.
      cbn [net_gen set_net_gen] in H.
      rewrite with_slack_update, available_gens_with_slack in H.
      rewrite with_slack_cells in H.
      assert (Hs : with_slack
                     (fun g => if labelled i0 g then false
                               else labelled i0 g) gens
                   = with_slack (fun _ => false) gens).
      { apply with_slack_ext. intro g.
        destruct (labelled i0 g); reflexivity. }
      rewrite Hs in H.
      destruct (available_gens result gens) as [|a l] eqn:Ea.
      * cbn [with_slack map] in H. unfold ret in H. injection H as <-.
        right. left. split; reflexivity.
      * cbn [with_slack map] in H. rewrite <- Ea in *.
        destruct (idxmax (p_mw_cells (available_gens result gens)))
          as [inew|] eqn:En; [|discriminate].
        unfold modify in H. injection H as <-.
        right. right. exists inew. split; [reflexivity|].
        unfold set_net_gen. cbn [net_gen net_bus net_bus_geodata net_load].
        f_equal. fold (with_slack (fun _ : gen => false) gens).
        rewrite with_slack_update. apply with_slack_ext. intro g.
        destruct (labelled inew g); reflexivity.
    + unfold ret in H. injection H as <-. left.
      split; [exact Edg|reflexivity].
Qed.

(** With distinct labels, the generators [verify_slack_connection] may
    choose from are the generators on a connected bus. *)
Lemma available_iff_connected net_bus net_load gens net_line net_trafo g :
  NoDup (map gen_idx gens) -> In g gens ->
  (In g (available_gens
           (check_connections net_bus net_load gens net_line net_trafo)
           gens)
   <-> on_connected_bus net_line net_trafo g = true).
Proof.
  intros Hnd Hin.
  destruct (check_connections_consistent net_bus net_load gens net_line
              net_trafo Hnd) as [Hb [Hg _]].
  unfold available_gens, on_connected_bus. rewrite filter_In.
  rewrite andb_true_iff, !negb_true_iff, !isin_false, isin_In.
  rewrite (Hg g Hin), Hb.
  destruct (isin (gen_bus g) (connected_buses_set net_line net_trafo))
    eqn:E.
  - apply isin_In in E. tauto.
  - apply isin_false in E. tauto.
Qed.

(** X16.  When sections 5 and 5.1 of [main_program.py] (slack assignment,
    [check_connections], [verify_slack_connection]) return on a table with
    distinct labels: only the column [slack] was written; at most one
    generator is the slack; the slack is on a bus at which a line or a
    transformer ends and no generator on such a bus has a larger dispatch;
    and there is a slack as soon as some generator is on such a bus. *)
Theorem slack_on_connected_bus (net_line : list line)
  (net_trafo : list trafo) (n n' : network) :
  NoDup (map gen_idx (net_gen n)) ->
  assign_and_verify_slack net_line net_trafo n = (inr tt, n') ->
  n' = set_net_gen (net_gen n') n
  /\ Forall2 same_but_slack (net_gen n) (net_gen n')
  /\ (List.length (filter gen_slack (net_gen n')) <= 1)%nat
  /\ (forall g, In g (net_gen n') -> gen_slack g = true ->
        on_connected_bus net_line net_trafo g = true
        /\ exists v,
             gen_p_mw g = Some v
             /\ forall g' v',
                  In g' (net_gen n') ->
                  on_connected_bus net_line net_trafo g' = true ->
                  gen_p_mw g' = Some v' -> v' <= v)
  /\ ((exists g, In g (net_gen n')
                 /\ on_connected_bus net_line net_trafo g = true) ->
      filter gen_slack (net_gen n') <> []).
Proof.
  intros Hnd H.
  destruct (assign_and_verify_shape _ _ _ _ Hnd H)
    as [g0 [v0 [Hin0 [Ev0 [Hmax0 Hcases]]]]].
  set (gens := net_gen n) in *.
  set (result := check_connections (net_bus n) (net_load n) gens net_line
                   net_trafo) in *.
  assert (Hav : forall g, In g gens ->
                  (In g (available_gens result gens)
                   <-> on_connected_bus net_line net_trafo g = true)).
  { intros g Hg. apply available_iff_connected; assumption. }
  (* the table that marks the label of [g1], a generator on a connected
     bus whose dispatch no generator on a connected bus exceeds *)
  assert (Hmark : forall g1 v1,
            In g1 gens -> gen_p_mw g1 = Some v1 ->
            on_connected_bus net_line net_trafo g1 = true ->
            (forall g' v', In g' gens ->
               on_connected_bus net_line net_trafo g' = true ->
               gen_p_mw g' = Some v' -> v' <= v1) ->
            n' = set_net_gen (with_slack (labelled (gen_idx g1)) gens) n ->
            n' = set_net_gen (net_gen n') n
            /\ Forall2 same_but_slack gens (net_gen n')
            /\ (List.length (filter gen_slack (net_gen n')) <= 1)%nat
            /\ (forall g, In g (net_gen n') -> gen_slack g = true ->
                  on_connected_bus net_line net_trafo g = true
                  /\ exists v,
                       gen_p_mw g = Some v
                       /\ forall g' v',
                            In g' (net_gen n') ->
                            on_connected_bus net_line net_trafo g' = true ->
                            gen_p_mw g' = Some v' -> v' <= v)
            /\ ((exists g, In g (net_gen n')
                           /\ on_connected_bus net_line net_trafo g = true) ->
                filter gen_slack (net_gen n') <> [])).
  { intros g1 v1 Hin1 Ev1 Hc1 Hmax1 ->. cbn [net_gen set_net_gen].
    split; [reflexivity|]. split; [apply with_slack_frame|].
    rewrite with_slack_rows,
      (filter_labelled_In (gen_idx g1) gens g1 Hnd Hin1 eq_refl).
    cbn [with_slack map List.length]. split; [lia|]. split.
    - intros g Hg Hs. apply In_with_slack in Hg.
      destruct Hg as [g2 [Hg2 ->]]. cbn [gen_slack set_gen_slack] in Hs.
      assert (g2 = g1).
      { apply (NoDup_map_inj gen_idx gens g2 g1 Hnd Hg2 Hin1).
        unfold labelled in Hs. apply Nat.eqb_eq in Hs. exact Hs. }
      subst g2. split; [exact Hc1|].
      exists v1. split; [exact Ev1|].
      intros g' v' Hg' Hc' Ev'. apply In_with_slack in Hg'.
      destruct Hg' as [g3 [Hg3 ->]]. exact (Hmax1 g3 v' Hg3 Hc' Ev').
    - intros _. discriminate. }
  destruct Hcases as [[Edg ->]|[[Ea ->]|[inew [En ->]]]].
  - apply (Hmark g0 v0 Hin0 Ev0); [| |reflexivity].
    + apply Hav; [exact Hin0|]. unfold available_gens. apply filter_In.
      split; [exact Hin0|]. rewrite Edg. cbn [negb andb].
      apply negb_true_iff, isin_false. intro Hdb.
      destruct (check_connections_consistent (net_bus n) (net_load n) gens
                  net_line net_trafo Hnd) as [Hb [Hg _]].
      fold result in Hb, Hg.
      apply Hb in Hdb. destruct Hdb as [_ Hnc].
      apply (Hg g0 Hin0) in Hnc. apply isin_false in Edg. contradiction.
    + intros g' v' Hg' _ Ev'. exact (Hmax0 g' v' Hg' Ev').
  - cbn [net_gen set_net_gen]. split; [reflexivity|].
    split; [apply with_slack_frame|].
    rewrite with_slack_no_rows. cbn [List.length]. split; [lia|]. split.
    + intros g Hg Hs. apply In_with_slack in Hg.
      destruct Hg as [g2 [_ ->]]. discriminate.
    + intros [g [Hg Hc]]. apply In_with_slack in Hg.
      destruct Hg as [g2 [Hg2 ->]].
      change (on_connected_bus net_line net_trafo g2 = true) in Hc.
      apply (Hav g2 Hg2) in Hc. rewrite Ea in Hc. contradiction.
  - destruct (idxmax_gens _ _ En) as [g1 [v1 [Hin1 [Ei1 [Ev1 Hmax1]]]]].
    subst inew.
    assert (Hin1' : In g1 gens).
    { unfold available_gens in Hin1. apply filter_In in Hin1. tauto. }
    apply (Hmark g1 v1 Hin1' Ev1); [| |reflexivity].
    + apply Hav; assumption.
    + intros g' v' Hg' Hc' Ev'. apply (Hmax1 g' v'); [|exact Ev'].
      apply Hav; assumption.
Qed.

(** *** Runs *)

Lemma slack_net_labels : NoDup (map gen_idx (net_gen slack_net)).
Proof. repeat constructor; cbn; intuition discriminate. Qed.

(** X14, witness: the network of three buses and one line. *)
Lemma check_connections_consistent_witness :
  let result :=
    check_connections (net_bus slack_net) (net_load slack_net)
      (net_gen slack_net) slack_lines [] in
  let connected := connected_buses_set slack_lines [] in
  (forall b, In b (disconnected_buses_set result)
             <-> In b (map bus_idx (net_bus slack_net))
                 /\ ~ In b connected)
  /\ (forall g, In g (net_gen slack_net) ->
        (In (gen_idx g) (disconnected_gens result)
         <-> ~ In (gen_bus g) connected))
  /\ (forall g, In g (net_gen slack_net) ->
        In (gen_bus g) (map bus_idx (net_bus slack_net)) ->
        (In (gen_idx g) (disconnected_gens result)
         <-> In (gen_bus g) (disconnected_buses_set result)))
  /\ (forall b, In b (disconnected_buses_no_gens result)
                <-> In b (disconnected_buses_set result)
                    /\ forall g, In g (net_gen slack_net) ->
                                 gen_bus g <> b).
Proof.
  apply (check_connections_consistent (net_bus slack_net)
           (net_load slack_net) (net_gen slack_net) slack_lines []).
  exact slack_net_labels.
Defined.

Example check_connections_run :
  check_connections (net_bus slack_net) (net_load slack_net)
    (net_gen slack_net) slack_lines []
  = mkConnections [2%nat] [10%nat] [] [].
Proof. vm_compute. reflexivity. Qed.

(** X15, witness: the largest unit, label 10, becomes the slack. *)
Lemma assign_slack_largest_witness :
  let n' := snd (assign_slack slack_net) in
  n' = set_net_gen (net_gen n') slack_net
  /\ Forall2 same_but_slack (net_gen slack_net) (net_gen n')
  /\ exists g v,
       filter gen_slack (net_gen n') = [g]
       /\ gen_p_mw g = Some v
       /\ forall g' v',
            In g' (net_gen n') -> gen_p_mw g' = Some v' -> v' <= v.
Proof.
  apply (assign_slack_largest slack_net (snd (assign_slack slack_net))).
  - exact slack_net_labels.
  - vm_compute. reflexivity.
Defined.

(** X16, witness: the largest unit is on the bus without a line, and the
    slack goes to the unit of 200 MW, label 11. *)
Lemma slack_on_connected_bus_witness :
  let n' := snd (assign_and_verify_slack slack_lines [] slack_net) in
  n' = set_net_gen (net_gen n') slack_net
  /\ Forall2 same_but_slack (net_gen slack_net) (net_gen n')
  /\ (List.length (filter gen_slack (net_gen n')) <= 1)%nat
  /\ (forall g, In g (net_gen n') -> gen_slack g = true ->
        on_connected_bus slack_lines [] g = true
        /\ exists v,
             gen_p_mw g = Some v
             /\ forall g' v',
                  In g' (net_gen n') ->
                  on_connected_bus slack_lines [] g' = true ->
                  gen_p_mw g' = Some v' -> v' <= v)
  /\ ((exists g, In g (net_gen n')
                 /\ on_connected_bus slack_lines [] g = true) ->
      filter gen_slack (net_gen n') <> []).
Proof.
  apply (slack_on_connected_bus slack_lines [] slack_net
           (snd (assign_and_verify_slack slack_lines [] slack_net))).
  - exact slack_net_labels.
  - vm_compute. reflexivity.
Defined.

Example slack_run :
  map gen_idx (filter gen_slack (net_gen (snd (assign_slack slack_net))))
  = [10%nat]
  /\ map gen_idx
       (filter gen_slack
          (net_gen (snd (assign_and_verify_slack slack_lines []
                           slack_net))))
     = [11%nat].
Proof. split; vm_compute; reflexivity. Qed.

(** ** The network filter and the line checks *)

Section GridFacts.
Variable coords : Type.
Variable convert_coords : coords -> coords.

Lemma filtered_grid_closed (net : grid coords)
  (countries : countries_arg) :
  let net' := filter_network_by_countries convert_coords net countries in
  (forall b, In b (grid_bus net') <->
             In b (grid_bus net) /\ In (bus_zone b) (as_list countries))
  /\ (forall l, In l (grid_line net') ->
        In l (grid_line net)
        /\ In (line_from_bus l) (map bus_idx (grid_bus net'))
        /\ In (line_to_bus l) (map bus_idx (grid_bus net')))
  /\ (forall t, In t (grid_trafo net') ->
        In t (grid_trafo net)
        /\ In (trafo_hv_bus t) (map bus_idx (grid_bus net'))
        /\ In (trafo_lv_bus t) (map bus_idx (grid_bus net')))
  /\ (forall g, In g (grid_bus_geodata net') ->
        In g (grid_bus_geodata net)
        /\ In (geo_idx g) (map bus_idx (grid_bus net')))
  /\ (forall g, In g (grid_line_geodata net') ->
        In (lgeo_idx g) (map line_idx (grid_line net'))).
Proof.
  intro net'. subst net'. unfold filter_network_by_countries.
  cbn [grid_bus grid_line grid_trafo grid_bus_geodata grid_line_geodata].
  split; [|split; [|split; [|split]]].
  - intro b. rewrite filter_In. unfold zone_isin. rewrite str_in_In.
    reflexivity.
  - intros l Hl. apply filter_In in Hl. destruct Hl as [Hin Hb].
    apply andb_true_iff in Hb. destruct Hb as [H1 H2].
    apply isin_In in H1, H2. auto.
  - intros t Ht. apply filter_In in Ht. destruct Ht as [Hin Hb].
    apply andb_true_iff in Hb. destruct Hb as [H1 H2].
    apply isin_In in H1, H2. auto.
  - intros g Hg. apply filter_In in Hg. destruct Hg as [Hin Hb].
    apply isin_In in Hb. auto.
  - intros g Hg. apply in_map_iff in Hg. destruct Hg as [g0 [<- Hg0]].
    apply filter_In in Hg0. destruct Hg0 as [_ Hb]. apply isin_In in Hb.
    exact Hb.
Qed.

(** A table of lines whose ends are all buses has no invalid line. *)
Lemma no_invalid_lines (buses : list bus) (lines : list line) :
  (forall l, In l lines ->
     In (line_from_bus l) (map bus_idx buses)
     /\ In (line_to_bus l) (map bus_idx buses)) ->
  filter (fun l => negb (isin (line_from_bus l) (map bus_idx buses))
                   || negb (isin (line_to_bus l) (map bus_idx buses)))
    lines = [].
Proof.
  intro H. induction lines as [|l lines IH]; [reflexivity|].
  cbn [filter]. destruct (H l (or_introl eq_refl)) as [H1 H2].
  apply isin_In in H1, H2. rewrite H1, H2. cbn [negb orb].
  apply IH. intros l' Hl'. apply H. right. exact Hl'.
Qed.

Lemma combine_seq_fst {A} (l : list A) : forall k,
  map fst (combine (seq k (List.length l)) l) = seq k (List.length l).
Proof.
  induction l as [|a l IH]; intro k; [reflexivity|].
  cbn [List.length seq combine map fst]. rewrite IH. reflexivity.
Qed.

Lemma combine_seq_snd {A} (l : list A) : forall k,
  map snd (combine (seq k (List.length l)) l) = l.
Proof.
  induction l as [|a l IH]; intro k; [reflexivity|].
  cbn [List.length seq combine map snd]. rewrite IH. reflexivity.
Qed.

Lemma reset_line_index_labels lines :
  map line_idx (reset_line_index lines) = seq 0 (List.length lines).
Proof.
  unfold reset_line_index. rewrite map_map. cbn [line_idx set_line_idx].
  apply (combine_seq_fst lines 0).
Qed.

Lemma reset_line_index_ends lines l :
  In l (reset_line_index lines) ->
  exists l0, In l0 lines
             /\ line_from_bus l = line_from_bus l0
             /\ line_to_bus l = line_to_bus l0.
Proof.
  unfold reset_line_index. intro H. apply in_map_iff in H.
  destruct H as [[i l0] [<- Hin]]. exists l0. split; [|split; reflexivity].
  apply in_combine_r in Hin. exact Hin.
Qed.

Lemma reset_line_geo_index_labels (rows : list (line_geo coords)) :
  map lgeo_idx (reset_line_geo_index rows) = seq 0 (List.length rows).
Proof.
  unfold reset_line_geo_index. rewrite map_map. cbn [lgeo_idx].
  apply (combine_seq_fst rows 0).
Qed.

Lemma reset_line_index_length lines :
  List.length (reset_line_index lines) = List.length lines.
Proof.
  unfold reset_line_index.
  rewrite length_map, length_combine, length_seq. apply Nat.min_id.
Qed.

Lemma loc_rows_length {A} (label_of : A -> nat) rows : forall labels l,
  loc_rows label_of rows labels = Some l ->
  List.length l = List.length labels.
Proof.
  induction labels as [|i labels IH]; intro l; cbn [loc_rows].
  - intro H. injection H as <-. reflexivity.
  - destruct (find _ rows); [|discriminate].
    destruct (loc_rows label_of rows labels) eqn:E; [|discriminate].
    intro H. injection H as <-. cbn [List.length].
    f_equal. exact (IH _ eq_refl).
Qed.

(** X18.  When section 6.1 of [main_program.py] returns, the bus table is
    as it was and every line has both ends among the buses; the lines kept
    are as many as the valid lines of the input; a network whose lines are
    all valid is left as it was; and if a line was dropped, lines and line
    geodata are both relabelled 0, 1, 2, ... *)
Theorem drop_invalid_lines_valid (net net' : grid coords) :
  drop_invalid_lines net = (inr tt, net') ->
  grid_bus net' = grid_bus net
  /\ (forall l, In l (grid_line net') ->
        valid_line (grid_bus net') l = true)
  /\ (List.length (grid_line net')
      = List.length (filter (valid_line (grid_bus net)) (grid_line net)))
  /\ ((forall l, In l (grid_line net) ->
         valid_line (grid_bus net) l = true) -> net' = net)
  /\ ((exists l, In l (grid_line net)
                 /\ valid_line (grid_bus net) l = false) ->
      map line_idx (grid_line net')
      = seq 0 (List.length (grid_line net'))
      /\ map lgeo_idx (grid_line_geodata net')
         = seq 0 (List.length (grid_line net'))).
Proof.
  unfold drop_invalid_lines, bind, get.
  set (invalid := filter _ (grid_line net)).
  assert (Hinv : forall l, In l invalid <->
                   In l (grid_line net)
                   /\ valid_line (grid_bus net) l = false).
  { intro l. subst invalid. rewrite filter_In. unfold valid_line.
    destruct (isin (line_from_bus l) _), (isin (line_to_bus l) _);
      cbn; intuition congruence. }
  assert (Hall : invalid = [] ->
                 forall l, In l (grid_line net) ->
                           valid_line (grid_bus net) l = true).
  { intros Hnil l Hl.
    destruct (valid_line (grid_bus net) l) eqn:E; [reflexivity|].
    exfalso. assert (Hin : In l invalid) by (apply Hinv; auto).
    rewrite Hnil in Hin. exact Hin. }
  destruct invalid as [|x xs] eqn:Einv.
  - unfold ret. intro H. injection H as <-.
    specialize (Hall eq_refl).
    split; [reflexivity|]. split; [exact Hall|]. split; [|split].
    + f_equal. symmetry. rewrite forallb_filter_id; [reflexivity|].
      apply forallb_forall. exact Hall.
    + reflexivity.
    + intros [l [Hl E]]. rewrite (Hall l Hl) in E. discriminate.
  - unfold loc.
    destruct (loc_rows lgeo_idx (grid_line_geodata net)
                (map line_idx
                   (filter (valid_line (grid_bus net)) (grid_line net))))
      as [geodata|] eqn:Eloc; [|discriminate].
    unfold ret, modify. intro H. injection H as <-.
    cbn [grid_bus grid_line grid_line_geodata].
    split; [reflexivity|]. split; [|split; [|split]].
    + intros l Hl. apply reset_line_index_ends in Hl.
      destruct Hl as [l0 [Hl0 [Ef Et]]]. apply filter_In in Hl0.
      unfold valid_line in *. rewrite Ef, Et. tauto.
    + apply reset_line_index_length.
    + intro Hv. exfalso.
      assert (Hx : In x (x :: xs)) by (left; reflexivity).
      apply Hinv in Hx. destruct Hx as [Hx Ex].
      rewrite (Hv x Hx) in Ex. discriminate.
    + intros _. rewrite reset_line_index_length. split.
      * apply reset_line_index_labels.
      * rewrite reset_line_geo_index_labels.
        rewrite (loc_rows_length _ _ _ _ Eloc), length_map. reflexivity.
Qed.

(** After the country filter, section 6.1 finds no line to drop. *)
Lemma drop_invalid_lines_after_filter (net : grid coords)
  (countries : countries_arg) :
  drop_invalid_lines (filter_network_by_countries convert_coords net
                        countries)
  = (inr tt, filter_network_by_countries convert_coords net countries).
Proof.
  destruct (filtered_grid_closed net countries) as [_ [Hl _]].
  unfold drop_invalid_lines, bind, get.
  rewrite no_invalid_lines; [reflexivity|].
  intros l H. destruct (Hl l H) as [_ [H1 H2]]. split; assumption.
Qed.

(** X17.  [filter_network_by_countries] keeps the buses of the given
    countries and nothing else, and returns a closed network: every line
    and every transformer it keeps is one of the input and has both ends
    among the kept buses, every geodata row belongs to a kept bus or a kept
    line; so the check of section 6.1 of [main_program.py] finds no line to
    drop on it. *)
Theorem filter_network_by_countries_closed (net : grid coords)
  (countries : countries_arg) :
  let net' := filter_network_by_countries convert_coords net countries in
  (forall b, In b (grid_bus net') <->
             In b (grid_bus net) /\ In (bus_zone b) (as_list countries))
  /\ (forall l, In l (grid_line net') ->
        In l (grid_line net)
        /\ In (line_from_bus l) (map bus_idx (grid_bus net'))
        /\ In (line_to_bus l) (map bus_idx (grid_bus net')))
  /\ (forall t, In t (grid_trafo net') ->
        In t (grid_trafo net)
        /\ In (trafo_hv_bus t) (map bus_idx (grid_bus net'))
        /\ In (trafo_lv_bus t) (map bus_idx (grid_bus net')))
  /\ (forall g, In g (grid_bus_geodata net') ->
        In g (grid_bus_geodata net)
        /\ In (geo_idx g) (map bus_idx (grid_bus net')))
  /\ (forall g, In g (grid_line_geodata net') ->
        In (lgeo_idx g) (map line_idx (grid_line net')))
  /\ drop_invalid_lines net' = (inr tt, net').
Proof.
  intro net'.
  destruct (filtered_grid_closed net countries) as [H1 [H2 [H3 [H4 H5]]]].
  repeat (split; [assumption|]).
  apply drop_invalid_lines_after_filter.
Qed.

(** *** HVDC links *)

Lemma isin_filter_labels (p : line -> bool) (lines : list line) l :
  NoDup (map line_idx lines) -> In l lines ->
  isin (line_idx l) (map line_idx (filter p lines)) = p l.
Proof.
  intros Hnd Hin. destruct (p l) eqn:E.
  - apply isin_In, in_map, filter_In. split; assumption.
  - apply isin_false. intro H. apply in_map_iff in H.
    destruct H as [l' [El Hl']]. apply filter_In in Hl'.
    destruct Hl' as [Hin' Hp'].
    assert (l' = l)
      by (apply (NoDup_map_inj line_idx lines l' l Hnd); auto).
    subst l'. congruence.
Qed.

End GridFacts.

(** *** Runs *)

Example filter_network_by_countries_run :
  let net' :=
    filter_network_by_countries (fun c => c) border_grid
      (a_country "DE") in
  map bus_idx (grid_bus net') = [0; 1]%nat
  /\ map line_idx (grid_line net') = [0%nat]
  /\ map trafo_idx (grid_trafo net') = [0%nat]
  /\ map lgeo_idx (grid_line_geodata net') = [0%nat].
Proof. repeat split. Qed.

(** X18, witness: on [cut_grid] the link to the missing bus is dropped. *)
Lemma drop_invalid_lines_valid_witness :
  let net' := snd (drop_invalid_lines cut_grid) in
  grid_bus net' = grid_bus cut_grid
  /\ (forall l, In l (grid_line net') ->
        valid_line (grid_bus net') l = true)
  /\ (List.length (grid_line net')
      = List.length (filter (valid_line (grid_bus cut_grid))
                       (grid_line cut_grid)))
  /\ ((forall l, In l (grid_line cut_grid) ->
         valid_line (grid_bus cut_grid) l = true) -> net' = cut_grid)
  /\ ((exists l, In l (grid_line cut_grid)
                 /\ valid_line (grid_bus cut_grid) l = false) ->
      map line_idx (grid_line net')
      = seq 0 (List.length (grid_line net'))
      /\ map lgeo_idx (grid_line_geodata net')
         = seq 0 (List.length (grid_line net'))).
Proof.
  apply (drop_invalid_lines_valid string cut_grid
           (snd (drop_invalid_lines cut_grid))).
  vm_compute. reflexivity.
Defined.


Example adjust_hvdc_link_capacity_run :
  map line_max_i_ka (grid_line (adjust_hvdc_link_capacity large_grid))
  = [Some 1; Some (2 * 2.5); Some 3]
  /\ adjust_hvdc_link_capacity border_grid = border_grid.
Proof. split; reflexivity. Qed.

(** ** Country codes *)

(** X20.  The three codes of a country.  For every country of
    [eu_countries] the code [prompt_for_valid_countries] returns is its
    entry in [country_codes], [get_country_code(., True)] of that code is the
    ISO code of the name, and [transform_iso_code] takes the ISO code back
    to the code; the 36 ISO codes are distinct.  The key under which
    [create_values_per_country] groups the generators (the code of the
    regions, "UK" replaced by "GB") is the zone code for every country but
    Greece: in general it gives back a zone code [z] exactly when [z] is
    neither "GR" nor "UK". *)
Theorem region_code_matches_zone_code (z : string) :
  (uk_to_gb (transform_iso_code z) = z <-> z <> "GR" /\ z <> "UK")
  /\ Forall
       (fun name =>
          dict_get name country_codes = Some (chosen_code name)
          /\ region_code name = chosen_code name
          /\ zone_code name = get_code true name)
       eu_countries
  /\ get_country_code (get_country_code (name_list eu_countries) false) true
     = get_country_code (name_list eu_countries) true
  /\ NoDup (map zone_code eu_countries)
  /\ filter
       (fun name =>
          negb (String.eqb (uk_to_gb (region_code name)) (zone_code name)))
       eu_countries
     = ["Greece"].
Proof.
  split; [|split; [|split; [reflexivity|split]]].
  - unfold transform_iso_code, dict_get_default, uk_to_gb.
    cbn [dict_get].
    destruct (String.eqb "GB" z) eqn:E1.
    { apply String.eqb_eq in E1. subst z. cbn. split; [intros _|reflexivity].
      split; discriminate. }
    destruct (String.eqb "GR" z) eqn:E2.
    { apply String.eqb_eq in E2. subst z. cbn. split; [discriminate|].
      intros [H _]. congruence. }
    destruct (String.eqb z "UK") eqn:E3.
    { apply String.eqb_eq in E3. subst z. split; [discriminate|].
      intros [_ H]. congruence. }
    apply String.eqb_neq in E2, E3. split; [intros _|reflexivity].
    split; congruence.
  - repeat constructor.
  - repeat constructor; cbn; intuition discriminate.
  - reflexivity.
Qed.

(** *** A country without generators *)

Lemma mapped_gens_country w g :
  In g (mapped_gens w) ->
  exists g0, In g0 (net_gen (w_net w))
             /\ gen_country g
                = zone_of_bus (net_bus (w_net w)) (gen_bus g0).
Proof.
  unfold mapped_gens, map_gen_country. cbn [net_gen set_net_gen].
  intro H. apply in_map_iff in H. destruct H as [g0 [<- H0]].
  exists g0. split; [exact H0|reflexivity].
Qed.

Lemma no_generator_in_zone_group w zone :
  no_generator_in_zone (w_net w) zone ->
  filter (in_country zone) (mapped_gens w) = [].
Proof.
  unfold no_generator_in_zone. intro H. rewrite forallb_forall in H.
  apply filter_nowhere. apply forallb_forall. intros g Hg.
  destruct (mapped_gens_country _ _ Hg) as [g0 [Hg0 Ec]].
  specialize (H g0 Hg0). unfold in_country. rewrite Ec.
  destruct (zone_of_bus (net_bus (w_net w)) (gen_bus g0)); [exact H|].
  reflexivity.
Qed.


(** ** Demand shares *)

(** The table with the column [load_factor] rewritten by [f]. *)
Lemma load_factor_of_country_rows key_gdp key_pop regions country :
  load_factor_of_country key_gdp key_pop regions country
  = map (fun r =>
           set_nuts_load_factor
             (if of_country country r
                 && (Qltb 0 (total_gdp regions country)
                     && Qltb 0 (total_pop regions country))
              then fadd
                     (fmul (Some key_gdp)
                        (fdiv (nuts_gdp r)
                           (Some (total_gdp regions country))))
                     (fmul (Some key_pop)
                        (fdiv (nuts_pop r)
                           (Some (total_pop regions country))))
              else nuts_load_factor r) r)
      regions.
Proof.
  unfold load_factor_of_country, update_where.
  destruct (Qltb 0 (total_gdp regions country)
            && Qltb 0 (total_pop regions country)).
  - apply map_ext. intro r. rewrite andb_true_r.
    destruct (of_country country r); [reflexivity|].
    destruct r; reflexivity.
  - rewrite <- (map_id regions) at 1. apply map_ext. intro r.
    rewrite andb_false_r. destruct r; reflexivity.
Qed.

Lemma totals_set_load_factor (f : nuts_region -> float) regions country :
  total_gdp (map (fun r => set_nuts_load_factor (f r) r) regions) country
  = total_gdp regions country
  /\ total_pop (map (fun r => set_nuts_load_factor (f r) r) regions) country
     = total_pop regions country.
Proof.
  unfold total_gdp, total_pop.
  induction regions as [|r regions [IH1 IH2]]; [split; reflexivity|].
  cbn [map filter].
  change (of_country country (set_nuts_load_factor (f r) r))
    with (of_country country r).
  destruct (of_country country r); cbn [map fsum nuts_gdp nuts_pop
                                        set_nuts_load_factor].
  - rewrite IH1, IH2. split; reflexivity.
  - split; assumption.
Qed.


Lemma fold_load_factor key_gdp key_pop cs : forall regions,
  fold_left (load_factor_of_country key_gdp key_pop) cs regions
  = map (fun r =>
           set_nuts_load_factor
             (factor_after key_gdp key_pop regions cs r
                (nuts_load_factor r)) r)
      regions.
Proof.
  induction cs as [|c cs IH]; intro regions; cbn [fold_left].
  - unfold factor_after. cbn [fold_left].
    rewrite <- (map_id regions) at 1. apply map_ext. intro r.
    destruct r; reflexivity.
  - rewrite IH, load_factor_of_country_rows, map_map. apply map_ext.
    intro r. unfold factor_after. cbn [fold_left].
    match goal with
    | |- set_nuts_load_factor _ (set_nuts_load_factor ?x r) = _ =>
        set (x0 := x)
    end.
    change (set_nuts_load_factor ?a (set_nuts_load_factor x0 r))
      with (set_nuts_load_factor a r).
    f_equal.
    change (nuts_load_factor (set_nuts_load_factor x0 r)) with x0.
    apply fold_left_pointwise. intros v c'. unfold positive_totals.
    destruct (totals_set_load_factor
                (fun r =>
                   if of_country c r
                      && (Qltb 0 (total_gdp regions c)
                          && Qltb 0 (total_pop regions c))
                   then fadd
                          (fmul (Some key_gdp)
                             (fdiv (nuts_gdp r)
                                (Some (total_gdp regions c))))
                          (fmul (Some key_pop)
                             (fdiv (nuts_pop r)
                                (Some (total_pop regions c))))
                   else nuts_load_factor r) regions c') as [-> ->].
    reflexivity.
Qed.


Lemma factor_after_spec key_gdp key_pop regions cs r : forall v,
  factor_after key_gdp key_pop regions cs r v
  = if str_in (nuts_country r) cs
       && positive_totals regions (nuts_country r)
    then share key_gdp key_pop (total_gdp regions (nuts_country r))
           (total_pop regions (nuts_country r)) r
    else v.
Proof.
  unfold factor_after, str_in, positive_totals.
  induction cs as [|c cs IH]; intro v; cbn [fold_left existsb].
  - reflexivity.
  - rewrite IH. unfold of_country.
    destruct (String.eqb (nuts_country r) c) eqn:E.
    + apply String.eqb_eq in E. subst c. cbn [orb andb].
      destruct (Qltb 0 (total_gdp regions (nuts_country r))
                && Qltb 0 (total_pop regions (nuts_country r))).
      * rewrite andb_true_r.
        destruct (existsb _ cs); reflexivity.
      * rewrite andb_false_r. reflexivity.
    + cbn [orb andb]. reflexivity.
Qed.

Lemma load_of_country_rows regions column :
  load_of_country regions column
  = map (fun r =>
           set_nuts_load
             (if of_country (fst column) r && Qltb 0 (fsum (snd column))
              then fmul (nuts_load_factor r) (Some (fsum (snd column)))
              else nuts_load r) r)
      regions.
Proof.
  unfold load_of_country, update_where.
  destruct (str_in (fst column) (unique (map nuts_country regions))) eqn:E.
  - destruct (Qltb 0 (fsum (snd column))).
    + apply map_ext. intro r. rewrite andb_true_r.
      destruct (of_country (fst column) r); [reflexivity|].
      destruct r; reflexivity.
    + rewrite <- (map_id regions) at 1. apply map_ext. intro r.
      rewrite andb_false_r. destruct r; reflexivity.
  - rewrite <- (map_id regions) at 1. apply map_ext_in. intros r Hr.
    replace (of_country (fst column) r) with false.
    { destruct r; reflexivity. }
    symmetry. apply not_true_is_false. intro H. unfold of_country in H.
    apply String.eqb_eq in H.
    assert (Hin : str_in (fst column) (unique (map nuts_country regions))
                  = true).
    { apply str_in_In, unique_In. rewrite <- H. apply in_map. exact Hr. }
    congruence.
Qed.

Lemma fold_load load_df : forall regions,
  fold_left load_of_country load_df regions
  = map (fun r => set_nuts_load (load_after load_df r (nuts_load r)) r)
      regions.
Proof.
  induction load_df as [|column load_df IH]; intro regions;
    cbn [fold_left].
  - unfold load_after. cbn [fold_left].
    rewrite <- (map_id regions) at 1. apply map_ext. intro r.
    destruct r; reflexivity.
  - rewrite IH, load_of_country_rows, map_map. apply map_ext. intro r.
    unfold load_after. cbn [fold_left]. destruct r; reflexivity.
Qed.

Lemma load_after_absent load_df r : forall v,
  ~ In (nuts_country r) (map fst load_df) ->
  load_after load_df r v = v.
Proof.
  unfold load_after.
  induction load_df as [|column load_df IH]; intros v H;
    cbn [fold_left]; [reflexivity|].
  cbn [map In] in H. rewrite IH by tauto. unfold of_country.
  destruct (String.eqb (nuts_country r) (fst column)) eqn:E.
  { apply String.eqb_eq in E. exfalso. apply H. left. congruence. }
  reflexivity.
Qed.

Lemma load_after_column load_df r column : forall v,
  NoDup (map fst load_df) ->
  In (nuts_country r, column) load_df ->
  load_after load_df r v
  = if Qltb 0 (fsum column)
    then fmul (nuts_load_factor r) (Some (fsum column))
    else v.
Proof.
  induction load_df as [|c load_df IH]; intros v Hnd Hin; [destruct Hin|].
  cbn [map] in Hnd. apply NoDup_cons_iff in Hnd. destruct Hnd as [Hc Hnd].
  destruct Hin as [->|Hin].
  - change (load_after ((nuts_country r, column) :: load_df) r v)
      with (load_after load_df r
              (if of_country (nuts_country r) r && Qltb 0 (fsum column)
               then fmul (nuts_load_factor r) (Some (fsum column))
               else v)).
    rewrite (load_after_absent load_df r _ Hc). unfold of_country.
    rewrite String.eqb_refl. reflexivity.
  - change (load_after (c :: load_df) r v)
      with (load_after load_df r
              (if of_country (fst c) r && Qltb 0 (fsum (snd c))
               then fmul (nuts_load_factor r) (Some (fsum (snd c)))
               else v)).
    rewrite (IH _ Hnd Hin). unfold of_country.
    destruct (String.eqb (nuts_country r) (fst c)) eqn:E.
    { apply String.eqb_eq in E. exfalso. apply Hc. rewrite <- E.
      apply (in_map fst) in Hin. exact Hin. }
    reflexivity.
Qed.


Lemma distribute_load_to_nuts_rows load_df regions key_gdp key_pop :
  distribute_load_to_nuts load_df regions key_gdp key_pop
  = map (fun r =>
           set_nuts_load
             (load_after load_df
                (set_nuts_load_factor
                   (load_factor_of key_gdp key_pop regions r) r)
                (Some 0))
             (set_nuts_load_factor
                (load_factor_of key_gdp key_pop regions r) r))
      regions.
Proof.
  unfold distribute_load_to_nuts.
  rewrite fold_load, fold_load_factor, !map_map.
  apply map_ext_in. intros r Hr.
  set (init := fun r => set_nuts_load (Some 0)
                          (set_nuts_load_factor (Some 0) r)).
  assert (Hf : factor_after key_gdp key_pop (map init regions)
                 (unique (map nuts_country (map init regions))) (init r)
                 (nuts_load_factor (init r))
               = load_factor_of key_gdp key_pop regions r).
  { rewrite factor_after_spec. unfold load_factor_of, positive_totals.
    change (nuts_country (init r)) with (nuts_country r).
    assert (Ht : forall c,
               total_gdp (map init regions) c = total_gdp regions c
               /\ total_pop (map init regions) c = total_pop regions c).
    { intro c. unfold total_gdp, total_pop. clear Hr.
      induction regions as [|a regions [IH1 IH2]];
        [split; reflexivity|].
      cbn [map filter].
      change (of_country c (init a)) with (of_country c a).
      destruct (of_country c a); cbn [map fsum].
      - change (nuts_gdp (init a)) with (nuts_gdp a).
        change (nuts_pop (init a)) with (nuts_pop a).
        rewrite IH1, IH2. split; reflexivity.
      - split; assumption. }
    destruct (Ht (nuts_country r)) as [-> ->].
    replace (str_in (nuts_country r)
               (unique (map nuts_country (map init regions)))) with true.
    2:{ symmetry. apply str_in_In, unique_In. rewrite map_map.
        change (fun x => nuts_country (init x)) with nuts_country.
        apply in_map. exact Hr. }
    cbn [andb]. reflexivity. }
  rewrite map_map in Hf. unfold init in *. rewrite Hf.
  destruct r; reflexivity.
Qed.


Lemma filter_map_same {A} (p : A -> bool) (f : A -> A) (l : list A) :
  (forall a, p (f a) = p a) ->
  filter p (map f l) = map f (filter p l).
Proof.
  intro H. induction l as [|a l IH]; cbn [map filter]; [reflexivity|].
  rewrite H. destruct (p a); cbn [map]; rewrite IH; reflexivity.
Qed.

Lemma fsum_share key_gdp key_pop tg tp (l : list nuts_region) :
  Forall (fun r => nuts_gdp r <> None /\ nuts_pop r <> None) l ->
  fsum (map (share key_gdp key_pop tg tp) l)
  == key_gdp * (fsum (map nuts_gdp l) / tg)
     + key_pop * (fsum (map nuts_pop l) / tp).
Proof.
  induction 1 as [|r l [Hg Hp] _ IH]; cbn [map fsum].
  - unfold Qdiv. ring.
  - unfold share at 1.
    destruct (nuts_gdp r) as [g|]; [|congruence].
    destruct (nuts_pop r) as [p|]; [|congruence].
    cbn [fdiv fmul fadd]. rewrite IH. unfold Qdiv. ring.
Qed.

Lemma country_has_data_rows regions country :
  country_has_data regions country ->
  Forall (fun r => nuts_gdp r <> None /\ nuts_pop r <> None)
    (filter (of_country country) regions).
Proof.
  unfold country_has_data. intro H. rewrite forallb_forall in H.
  apply Forall_forall. intros r Hr. apply filter_In in Hr.
  destruct Hr as [Hr Hc]. specialize (H r Hr). rewrite Hc in H.
  cbn [implb] in H. apply andb_prop in H. destruct H as [H1 H2].
  split; intro E; rewrite E in *; discriminate.
Qed.

(** X22.  [distribute_load_to_nuts] writes the columns [load_factor] and
    [load] only.  For a country whose regions all have a GDP and a
    population, with positive totals, the load factors of its regions sum
    to [distribution_key["gdp"] + distribution_key["pop"]]; and when
    [load_df] has distinct columns, one of them for the country, the loads
    of its regions sum to that sum times the total of the column if the
    total is positive, and to 0 otherwise. *)
Theorem distribute_load_to_nuts_conserves
  (load_df : list (string * list float)) (regions : list nuts_region)
  (key_gdp key_pop : Q) (country : string) (column : list float) :
  NoDup (map fst load_df) ->
  In (country, column) load_df ->
  0 < total_gdp regions country ->
  0 < total_pop regions country ->
  country_has_data regions country ->
  let out := distribute_load_to_nuts load_df regions key_gdp key_pop in
  Forall2 same_region regions out
  /\ fsum (map nuts_load_factor (filter (of_country country) out))
     == key_gdp + key_pop
  /\ fsum (map nuts_load (filter (of_country country) out))
     == if Qltb 0 (fsum column) then (key_gdp + key_pop) * fsum column
        else 0.
Proof.
  intros Hnd Hin Hg Hp Hdata out. subst out.
  rewrite distribute_load_to_nuts_rows.
  split.
  { apply Forall2_map_r. intro r. unfold same_region.
    destruct r; reflexivity. }
  rewrite filter_map_same by reflexivity.
  rewrite !map_map.
  set (rows := filter (of_country country) regions).
  assert (Hrows : forall r, In r rows ->
             nuts_country r = country
             /\ load_factor_of key_gdp key_pop regions r
                = share key_gdp key_pop (total_gdp regions country)
                    (total_pop regions country) r).
  { intros r Hr. apply filter_In in Hr. destruct Hr as [_ Hc].
    unfold of_country in Hc. apply String.eqb_eq in Hc. split; [exact Hc|].
    unfold load_factor_of, positive_totals. rewrite Hc.
    apply Qltb_true in Hg, Hp. rewrite Hg, Hp. reflexivity. }
  assert (Hsum : fsum (map (share key_gdp key_pop
                              (total_gdp regions country)
                              (total_pop regions country)) rows)
                 == key_gdp + key_pop).
  { rewrite (fsum_share _ _ _ _ rows
               (country_has_data_rows regions country Hdata)).
    change (fsum (map nuts_gdp rows)) with (total_gdp regions country).
    change (fsum (map nuts_pop rows)) with (total_pop regions country).
    field. split; lra. }
  split.
  - rewrite <- Hsum.
    erewrite map_ext_in; [reflexivity|].
    intros r Hr. destruct (Hrows r Hr) as [_ E].
    destruct r; exact E.
  - erewrite map_ext_in.
    2:{ intros r Hr. destruct (Hrows r Hr) as [Hc E].
        assert (Hcol : In (nuts_country
                             (set_nuts_load_factor
                                (load_factor_of key_gdp key_pop regions r)
                                r), column) load_df).
        { destruct r. cbn in *. rewrite Hc. exact Hin. }
        cbn [set_nuts_load nuts_load].
        rewrite (load_after_column load_df _ column (Some 0) Hnd Hcol).
        cbn [set_nuts_load_factor nuts_load_factor]. rewrite E.
        reflexivity. }
    destruct (Qltb 0 (fsum column)).
    + rewrite fsum_scaled, Hsum. ring.
    + clear. induction rows as [|r rows IH]; cbn [map fsum].
      * reflexivity.
      * rewrite IH. ring.
Qed.

(** X23.  A country whose total GDP or total population is not positive
    gets no demand: every region of it leaves [distribute_load_to_nuts]
    with the load factor 0 and a load of 0, whatever [load_df] holds. *)
Theorem distribute_load_to_nuts_without_totals
  (load_df : list (string * list float)) (regions : list nuts_region)
  (key_gdp key_pop : Q) (country : string) :
  ~ (0 < total_gdp regions country /\ 0 < total_pop regions country) ->
  Forall
    (fun r => nuts_load_factor r = Some 0 /\ feq (nuts_load r) (Some 0))
    (filter (of_country country)
       (distribute_load_to_nuts load_df regions key_gdp key_pop)).
Proof.
  intro Hno. rewrite distribute_load_to_nuts_rows.
  rewrite filter_map_same by reflexivity.
  apply Forall_forall. intros r' Hr'. apply in_map_iff in Hr'.
  destruct Hr' as [r [<- Hr]]. apply filter_In in Hr.
  destruct Hr as [_ Hc]. unfold of_country in Hc.
  apply String.eqb_eq in Hc.
  assert (E : load_factor_of key_gdp key_pop regions r = Some 0).
  { unfold load_factor_of, positive_totals. rewrite Hc.
    destruct (Qltb 0 (total_gdp regions country)) eqn:E1;
      [|reflexivity].
    destruct (Qltb 0 (total_pop regions country)) eqn:E2;
      [|reflexivity].
    exfalso. apply Hno. split; apply Qltb_true; assumption. }
  rewrite E. split; [destruct r; reflexivity|].
  cbn [set_nuts_load nuts_load].
  set (r0 := set_nuts_load_factor (Some 0) r).
  assert (H0 : nuts_load_factor r0 = Some 0) by (destruct r; reflexivity).
  assert (G : forall v, feq v (Some 0) ->
                feq (load_after load_df r0 v) (Some 0)).
  { unfold load_after. clear - H0.
    induction load_df as [|c load_df IH]; intros v Hv; cbn [fold_left];
      [exact Hv|].
    apply IH.
    destruct (of_country (fst c) r0 && Qltb 0 (fsum (snd c)));
      [|exact Hv].
    rewrite H0. cbn [fmul feq]. ring. }
  apply G. cbn [feq]. reflexivity.
Qed.

(** ** Hydro plants *)

Lemma Qeq_bool_false (x y : Q) : ~ x == y -> Qeq_bool x y = false.
Proof.
  intro H. destruct (Qeq_bool x y) eqn:E; [|reflexivity].
  exfalso. apply H. apply Qeq_bool_eq. exact E.
Qed.

(** X24.  The marginal cost [process_powerplants_data] computes for a
    hydro or run-of-river plant and for a pumped-storage plant whose
    capacity, efficiency and lifetime are not 0: both are computed with
    5000 hours a year (the call for "PHS" does not pass [is_phs]); the hydro
    cost is the annual investment per MWh plus the O&M rate (52000 up to
    20 MW, 45000 above) over [efficiency * 5000], and the pumped-storage
    cost is the hydro cost plus [50 / efficiency], whatever the capacity
    and the hours. *)
Theorem hydro_marginal_cost_closed_form (row : plant_costs) :
  ~ pc_capacity row == 0 ->
  ~ pc_efficiency_r row == 0 ->
  ~ pc_lifetime row == 0 ->
  let rate := if Qle_bool (pc_capacity row) 20 then 52000 else 45000 in
  exists h p,
    hydro_marginal_cost row = value h
    /\ phs_marginal_cost row = value p
    /\ h == pc_capital_cost row
            / (pc_lifetime row * pc_capacity row * pc_efficiency_r row
               * 5000)
            + rate / (pc_efficiency_r row * 5000)
    /\ p == h + 50 / pc_efficiency_r row.
Proof.
  intros Hc He Hl rate.
  destruct row as [cap eff capital life]. cbn [pc_capacity pc_efficiency_r
    pc_capital_cost pc_lifetime] in *.
  assert (Hout : ~ cap * eff * 5000 == 0).
  { intro H. apply Qmult_integral in H. destruct H as [H|H]; [|lra].
    apply Qmult_integral in H. tauto. }
  unfold hydro_marginal_cost, phs_marginal_cost,
    calculate_hydro_marginal_cost, divide, dynamic_operating_cost_and_time.
  cbn [pc_capacity pc_efficiency_r pc_capital_cost pc_lifetime fst snd].
  rewrite (Qeq_bool_false _ _ Hc), (Qeq_bool_false _ _ Hl),
    (Qeq_bool_false _ _ Hout).
  eexists. eexists. split; [reflexivity|]. split; [reflexivity|].
  fold rate. split; field; repeat split; assumption.
Qed.

(** ** Examples *)


(** On that network the 100 MW of onshore wind in zone "GR" are counted
    for no country. *)
Example create_values_per_country_greece :
  fst (create_values_per_country greek_regions true
         (mkWorld greek_net None))
  = inr [("EL", [("solar", 0); ("wind", 0); ("onwind", 0); ("offwind", 0)])].
Proof. reflexivity. Qed.

(** X22, witness: the two regions of DE share 300 MWh. *)
Lemma distribute_load_to_nuts_conserves_witness :
  let out := distribute_load_to_nuts demand_columns demand_regions 0.6 0.4 in
  Forall2 same_region demand_regions out
  /\ fsum (map nuts_load_factor (filter (of_country "DE") out)) == 0.6 + 0.4
  /\ fsum (map nuts_load (filter (of_country "DE") out))
     == if Qltb 0 (fsum [Some 100; Some 200])
        then (0.6 + 0.4) * fsum [Some 100; Some 200]
        else 0.
Proof.
  apply (distribute_load_to_nuts_conserves demand_columns demand_regions
           0.6 0.4 "DE" [Some 100; Some 200]).
  - repeat constructor; cbn; intuition discriminate.
  - left. reflexivity.
  - reflexivity.
  - reflexivity.
  - reflexivity.
Defined.

(** X23, witness: the region of FR has no GDP. *)
Lemma distribute_load_to_nuts_without_totals_witness :
  Forall
    (fun r => nuts_load_factor r = Some 0 /\ feq (nuts_load r) (Some 0))
    (filter (of_country "FR")
       (distribute_load_to_nuts demand_columns demand_regions 0.6 0.4)).
Proof.
  apply (distribute_load_to_nuts_without_totals demand_columns
           demand_regions 0.6 0.4 "FR").
  intros [H _]. vm_compute in H. discriminate H.
Defined.

Example distribute_load_to_nuts_run :
  map (fun r => (nuts_id r, option_map Qred (nuts_load_factor r),
                 option_map Qred (nuts_load r)))
    (distribute_load_to_nuts demand_columns demand_regions 0.6 0.4)
  = [("DE1", Some (11 # 20), Some 165); ("DE2", Some (9 # 20), Some 135);
     ("FR1", Some 0, Some 0)].
Proof. reflexivity. Qed.

(** X24, witness: a plant of 10 MW. *)
Lemma hydro_marginal_cost_closed_form_witness :
  let rate := if Qle_bool (pc_capacity small_hydro) 20 then 52000
              else 45000 in
  exists h p,
    hydro_marginal_cost small_hydro = value h
    /\ phs_marginal_cost small_hydro = value p
    /\ h == pc_capital_cost small_hydro
            / (pc_lifetime small_hydro * pc_capacity small_hydro
               * pc_efficiency_r small_hydro * 5000)
            + rate / (pc_efficiency_r small_hydro * 5000)
    /\ p == h + 50 / pc_efficiency_r small_hydro.
Proof.
  apply (hydro_marginal_cost_closed_form small_hydro);
    intro H; vm_compute in H; discriminate H.
Defined.

(** ** The relaxations of the fallback protocol *)

Lemma relax_gens_rows (mask : gen -> bool) (gens : list gen) :
  (forall g v, mask (set_gen_max_p_mw v g) = mask g) ->
  relax_gens mask gens
  = map (fun g =>
           if mask g
           then set_gen_min_p_mw (Some 0) (set_gen_max_p_mw (gen_p_mw g) g)
           else g)
      gens.
Proof.
  intro Hmask. unfold relax_gens, update_where. rewrite map_map.
  apply map_ext. intro g. destruct (mask g) eqn:E.
  - rewrite Hmask, E. reflexivity.
  - rewrite E. reflexivity.
Qed.

Lemma relax_gens_relaxed (mask : gen -> bool) (gens : list gen) :
  (forall g v, mask (set_gen_max_p_mw v g) = mask g) ->
  Forall2 (relaxed_unit mask) gens (relax_gens mask gens).
Proof.
  intro Hmask. rewrite (relax_gens_rows mask gens Hmask).
  apply Forall2_map_r. intro g. unfold relaxed_unit.
  destruct (mask g).
  - split; [destruct g; reflexivity|].
    split; [intros _; destruct g; split; reflexivity|discriminate].
  - split; [destruct g; reflexivity|].
    split; [discriminate|reflexivity].
Qed.

(** X25.  The two generator relaxations of section 7.1.2 of
    [main_program.py] write the two limits only: a generator of the mask
    leaves with [min_p_mw = 0] and [max_p_mw] at its present dispatch, any
    other generator as it was.  The relaxation of all controllable
    generators absorbs the relaxation of the conventional ones, and
    applying it twice is applying it once. *)
Theorem relax_gens_controllable_absorbs (gens : list gen) :
  Forall2 (relaxed_unit conventional) gens (relax_gens conventional gens)
  /\ Forall2 (relaxed_unit gen_controllable) gens
       (relax_gens gen_controllable gens)
  /\ relax_gens gen_controllable (relax_gens conventional gens)
     = relax_gens gen_controllable gens
  /\ relax_gens gen_controllable (relax_gens gen_controllable gens)
     = relax_gens gen_controllable gens.
Proof.
  assert (H1 : forall g v,
             conventional (set_gen_max_p_mw v g) = conventional g)
    by (intros g v; destruct g; reflexivity).
  assert (H2 : forall g v,
             gen_controllable (set_gen_max_p_mw v g) = gen_controllable g)
    by (intros g v; destruct g; reflexivity).
  split; [exact (relax_gens_relaxed conventional gens H1)|].
  split; [exact (relax_gens_relaxed gen_controllable gens H2)|].
  rewrite !(relax_gens_rows gen_controllable _ H2),
    (relax_gens_rows conventional _ H1), !map_map.
  split; apply map_ext; intro g;
    destruct g as [idx bus name p vm sl sc co mn mx cost ty te orig nm cy
                     ins];
    unfold conventional; cbn [gen_controllable gen_type];
    destruct co; cbn [andb];
    try destruct (negb (str_in ty ["solar"; "wind"])); reflexivity.
Qed.

(** On [solar_park_gens] the conventional relaxation leaves the solar park
    as it is and caps the coal unit at its dispatch of 100 MW. *)
Example relax_gens_conventional_run :
  map (fun g => (gen_name g, gen_min_p_mw g, gen_max_p_mw g))
    (relax_gens conventional solar_park_gens)
  = [("pv0", Some 0, Some 100); ("coal0", Some 0, Some 100)].
Proof. reflexivity. Qed.
